(** * SEGY_tools: the irregular-to-grid matching core

    A shallow embedding of the three scripts that make up the matching
    engine of the repository:

    - [F_receivers_regularize.py]  ([regularize_coordinates]): synthesis of
      the regular lattice from the bounding box of the receivers;
    - [G_shot_match.py]  ([sort_shots_from_right_bottom_to_left_top],
      [match_shots_to_grid]): greedy one-to-one matching of shots to nodes;
    - [H_receivers_match.py]  ([process_segy_file]): centroid alignment
      followed by nearest-node matching.

    Numeric conventions.  SEGY trace headers store coordinates as 32-bit
    integers and the synthesized grid is an [int32] array, so the points
    handled by the two matchers are pairs of integers ([Z]).  The scripts
    compute on them in [float64].  Each script is embedded twice.

    - In exact arithmetic ([G_shot_match], [F_receivers_regularize],
      [H_receivers_match]): reference coordinates and spacings are
      rationals ([Q]), a Euclidean distance is represented by its square,
      and distances are compared on squares.  The properties that no
      rounding can change are proved of these.
    - With the roundings of IEEE 754 binary64 written out ([Float64] and
      the modules whose names end in [_float64]): the distances of [cdist],
      the extent and the quotient the synthesizer rounds, the means and
      the offset of the alignment.  The runs whose outcome depends on a
      rounding are evaluated on these.

    The two embeddings are proved to agree where [float64] arithmetic loses
    nothing that a comparison could see: coordinates below 2^24 and an
    integer threshold for the sequential matcher, coordinates that are
    multiples of 2^-16 for the synthesizer; for the alignment the offset is
    bounded against the exact difference of the centroids. *)

From Stdlib Require Import Reals Qreals Lra.
From Stdlib Require Import ZArith QArith Qround Qabs Qminmax Qpower Lia Lqa.
From stdpp Require Import base list sorting gmap.

#[local] Open Scope Z_scope.

(** A survey position: one row of an [(n, 2)] coordinate array. *)
Definition point : Type := (Z * Z)%type.

(** ** The NumPy / SciPy primitives used by the scripts *)
Module NumPy.

(** One stable pass of an indirect sort: [i] is placed in front of the
    first index whose key is not smaller. *)
Fixpoint insert_by (key : nat → Z) (i : nat) (l : list nat) : list nat :=
  match l with
  | [] => [i]
  | j :: l' => if key i <=? key j then i :: j :: l' else j :: insert_by key i l'
  end.

(** Stable indirect sort of the index vector [idx] by [key]. *)
Definition stable_sort_by (key : nat → Z) (idx : list nat) : list nat :=
  foldr (insert_by key) [] idx.

(** [np.lexsort(keys)] over columns of length [n]: successive stable
    passes, the last key of the sequence being the primary one. *)
Definition lexsort (keys : list (list Z)) (n : nat) : list nat :=
  fold_left (λ idx k, stable_sort_by (λ i, nth i k 0) idx) keys (seq 0 n).

(** Integer-array indexing [a[indices]]. *)
Definition take (a : list point) (indices : list nat) : list point :=
  (λ i, nth i a (0, 0)) <$> indices.

(** [~mask]. *)
Definition invert (mask : list bool) : list bool := negb <$> mask.

(** Boolean-mask indexing [a[mask]]; the scripts only ever use a mask of
    the length of the array. *)
Fixpoint mask_index {A} (a : list A) (mask : list bool) : list A :=
  match a, mask with
  | x :: a', b :: mask' =>
      if b then x :: mask_index a' mask' else mask_index a' mask'
  | _, _ => []
  end.

Fixpoint where_from (i : nat) (mask : list bool) : list nat :=
  match mask with
  | [] => []
  | b :: mask' =>
      if b then i :: where_from (S i) mask' else where_from (S i) mask'
  end.

(** [np.where(mask)[0]]: the positions at which [mask] holds. *)
Definition where_ (mask : list bool) : list nat := where_from 0 mask.

(** [np.min]; only ever called on a non-empty array. *)
Definition min (d : list Z) : Z :=
  match d with
  | [] => 0
  | x :: r => fold_left Z.min r x
  end.

(** [np.argmin]: the position of the first occurrence of the minimum. *)
Fixpoint argmin (d : list Z) : nat :=
  match d with
  | [] => 0%nat
  | x :: r =>
      match r with
      | [] => 0%nat
      | _ => if x <=? min r then 0%nat else S (argmin r)
      end
  end.

End NumPy.

(** Squared Euclidean distance. *)
Definition sqdist (p q : point) : Z :=
  (p.1 - q.1) * (p.1 - q.1) + (p.2 - q.2) * (p.2 - q.2).

(** [cdist([shot], pts, 'euclidean')[0]], each entry given by its square. *)
Definition cdist (shot : point) (pts : list point) : list Z :=
  sqdist shot <$> pts.

(** [d <= max_distance] for the distance [d] whose square is [d2]. *)
Definition dist_le (d2 : Z) (max_distance : Q) : bool :=
  Qle_bool 0 max_distance && Qle_bool (inject_Z d2) (max_distance * max_distance).

(** ** G_shot_match.py *)
Module G_shot_match.

Definition sort_shots_from_right_bottom_to_left_top
    (shot_points : list point) : list point :=
  let indices :=
    NumPy.lexsort [ (λ p : point, - p.1) <$> shot_points;
                    (λ p : point, - p.2) <$> shot_points ]
                  (length shot_points) in
  NumPy.take shot_points indices.

(** The three variables the matching loop updates. *)
Record state : Type := State {
  shot_to_grid : gmap point point;
  matched_grid : list bool;
  matched_shots : list point
}.

(** One iteration of [for shot in sorted_shots]. *)
Definition match_step (grid_points : list point) (max_distance : Q)
    (st : state) (shot : point) : state :=
  let unmatched := NumPy.invert (matched_grid st) in
  let distances := cdist shot (NumPy.mask_index grid_points unmatched) in
  if bool_decide (0 < length distances)%nat
     && dist_le (NumPy.min distances) max_distance
  then
    let closest_index := NumPy.argmin distances in
    let global_index := nth closest_index (NumPy.where_ unmatched) 0%nat in
    let node := nth global_index grid_points (0, 0) in
    State (<[shot := node]> (shot_to_grid st))
          (<[global_index := true]> (matched_grid st))
          (matched_shots st ++ [node])
  else st.

Definition init (grid_points : list point) : state :=
  State ∅ (replicate (length grid_points) false) [].

Definition run (grid_points : list point) (max_distance : Q)
    (shots : list point) : state :=
  fold_left (match_step grid_points max_distance) shots (init grid_points).

Definition match_shots_to_grid (shot_points grid_points : list point)
    (max_distance : Q) : gmap point point * list point :=
  let sorted_shots := sort_shots_from_right_bottom_to_left_top shot_points in
  let st := run grid_points max_distance sorted_shots in
  (shot_to_grid st, matched_shots st).

End G_shot_match.

(** Python's [round] and [np.round]: to the nearest integer, a tie going
    to the even neighbour. *)
Definition round_half_even (q : Q) : Z :=
  let f := Qfloor q in
  match (q - inject_Z f ?= 1 # 2)%Q with
  | Lt => f
  | Gt => f + 1
  | Eq => if Z.even f then f else f + 1
  end.

(** Python's [int] on a float: truncation toward zero. *)
Definition int_ (q : Q) : Z :=
  if Qle_bool 0 q then Qfloor q else Qceiling q.

(** ** IEEE 754 binary64 arithmetic

    NumPy and SciPy compute on [float64] values.  A [float64] value is
    represented by the rational number it denotes, and an operation is the
    exact operation followed by [fl], the rounding to the nearest number
    with a significand of 53 bits, a tie going to the even significand.
    The exponent is not bounded: there is no overflow and there are no
    subnormal numbers, which coordinates of 32 bits never reach. *)
Module Float64.

(** The exponent of a positive number [q]: [2^e <= q < 2^(e+1)]. *)
Definition ilog2 (q : Q) : Z :=
  let e0 := Z.log2 (Qnum q) - Z.log2 (Zpos (Qden q)) in
  if Qle_bool (2 ^ e0) q then e0 else e0 - 1.

(** Rounding to [float64]. *)
Definition fl (q : Q) : Q :=
  if Qeq_bool q 0 then 0%Q
  else
    let ulp := (2 ^ (ilog2 (Qabs q) - 52))%Q in
    (inject_Z (round_half_even (q / ulp)) * ulp)%Q.

(** [sqrt]: the [float64] value nearest to the square root. *)
Definition sqrt (q : Q) : Q :=
  if Qle_bool q 0 then 0%Q
  else
    let ulp := (2 ^ (ilog2 q / 2 - 52))%Q in
    let n := (q / (ulp * ulp))%Q in
    let r := Z.sqrt (Qfloor n) in
    let half := (inject_Z r + (1 # 2))%Q in
    let m := match (n ?= half * half)%Q with
             | Lt => r
             | Gt => r + 1
             | Eq => if Z.even r then r else r + 1
             end in
    (inject_Z m * ulp)%Q.

(** [np.min] of an array of floats; only ever called on a non-empty array. *)
Definition min (d : list Q) : Q :=
  match d with
  | [] => 0%Q
  | x :: r => fold_left Qmin r x
  end.

(** [np.argmin] of an array of floats: the position of the first occurrence
    of the minimum. *)
Fixpoint argmin (d : list Q) : nat :=
  match d with
  | [] => 0%nat
  | x :: r =>
      match r with
      | [] => 0%nat
      | _ => if Qle_bool x (min r) then 0%nat else S (argmin r)
      end
  end.

End Float64.

(** ** G_shot_match.py, the distances in [float64]

    The matching loop with the distances as [cdist] computes them: the
    coordinates converted to [float64], the differences, their squares, the
    sum and the root each rounded.  [max_distance] is the [float64] value
    the threshold is compared as.  The loop state and the order of the
    shots are those of [G_shot_match]. *)
Module G_shot_match_float64.

(** One entry of [cdist(XA, XB, 'euclidean')]. *)
Definition euclidean (u v : point) : Q :=
  let dx := Float64.fl (Float64.fl (inject_Z u.1) - Float64.fl (inject_Z v.1)) in
  let dy := Float64.fl (Float64.fl (inject_Z u.2) - Float64.fl (inject_Z v.2)) in
  Float64.sqrt (Float64.fl (Float64.fl (dx * dx) + Float64.fl (dy * dy))).

(** [cdist([shot], pts, 'euclidean')[0]]. *)
Definition cdist (shot : point) (pts : list point) : list Q :=
  euclidean shot <$> pts.

(** One iteration of [for shot in sorted_shots]. *)
Definition match_step (grid_points : list point) (max_distance : Q)
    (st : G_shot_match.state) (shot : point) : G_shot_match.state :=
  let unmatched := NumPy.invert (G_shot_match.matched_grid st) in
  let distances := cdist shot (NumPy.mask_index grid_points unmatched) in
  if bool_decide (0 < length distances)%nat
     && Qle_bool (Float64.min distances) max_distance
  then
    let closest_index := Float64.argmin distances in
    let global_index := nth closest_index (NumPy.where_ unmatched) 0%nat in
    let node := nth global_index grid_points (0, 0) in
    G_shot_match.State
      (<[shot := node]> (G_shot_match.shot_to_grid st))
      (<[global_index := true]> (G_shot_match.matched_grid st))
      (G_shot_match.matched_shots st ++ [node])
  else st.

Definition run (grid_points : list point) (max_distance : Q)
    (shots : list point) : G_shot_match.state :=
  fold_left (match_step grid_points max_distance) shots
    (G_shot_match.init grid_points).

Definition match_shots_to_grid (shot_points grid_points : list point)
    (max_distance : Q) : gmap point point * list point :=
  let sorted_shots :=
    G_shot_match.sort_shots_from_right_bottom_to_left_top shot_points in
  let st := run grid_points max_distance sorted_shots in
  (G_shot_match.shot_to_grid st, G_shot_match.matched_shots st).

End G_shot_match_float64.

(** ** F_receivers_regularize.py *)
Module F_receivers_regularize.

Inductive exn : Type :=
| EmptyArray          (* [np.min] of an empty column *)
| DivisionByZero      (* a zero spacing *)
| OutOfInt32          (* a coordinate that does not fit the [int32] array *)
| NonIntegerCoordinate. (* [ValueError] of the final check *)

Inductive result : Type :=
| Grid (reg_coords : list point)
| Raises (e : exn).

(** [np.min] and [np.max] of a column of floats with first entry [x]. *)
Definition column_min (x : Q) (col : list Q) : Q := fold_left Qmin col x.
Definition column_max (x : Q) (col : list Q) : Q := fold_left Qmax col x.

Definition int32_min : Z := - 2 ^ 31.
Definition int32_max : Z := 2 ^ 31 - 1.

(** Storing a number into an [int32] array: the fractional part is
    dropped.  What NumPy does with a value outside the range of the type
    depends on its version (an [OverflowError], or a wrapped value with a
    warning); the model stops there, with [OutOfInt32]. *)
Definition to_int32 (q : Q) : option Z :=
  let v := int_ q in
  if (int32_min <=? v) && (v <=? int32_max) then Some v else None.

(** [a.astype(np.int32)] on an entry of an array that already is [int32]. *)
Definition astype_int32 (v : Z) : Z :=
  (v - int32_min) mod 2 ^ 32 + int32_min.

(** [np.array([start + i * spacing for i in range(count)], dtype=np.int32)]. *)
Definition axis (start : Z) (spacing : Q) (count : Z) : option (list Z) :=
  mapM (λ i : Z, to_int32 (inject_Z start + inject_Z i * spacing)%Q)
       (seqZ 0 count).

(** [np.meshgrid(x, y)]: both results have one row per entry of [y]. *)
Definition meshgrid (x y : list Z) : list (list Z) * list (list Z) :=
  (replicate (length y) x, (λ v, replicate (length x) v) <$> y).

Definition ravel (a : list (list Z)) : list Z := concat a.

Definition column_stack (a b : list Z) : list point := zip a b.

Definition regularize_coordinates (orig_coords : list (Q * Q))
    (row_spacing col_spacing : Q) : result :=
  match orig_coords with
  | [] => Raises EmptyArray
  | p :: rest =>
      let x_min := column_min p.1 (fst <$> rest) in
      let x_max := column_max p.1 (fst <$> rest) in
      let y_min := column_min p.2 (snd <$> rest) in
      let y_max := column_max p.2 (snd <$> rest) in
      if Qeq_bool col_spacing 0 || Qeq_bool row_spacing 0
      then Raises DivisionByZero
      else
        let cols := round_half_even ((x_max - x_min) / col_spacing) + 1 in
        let rows := round_half_even ((y_max - y_min) / row_spacing) + 1 in
        let start_x := int_ x_min in
        let start_y := int_ y_min in
        match axis start_x col_spacing cols, axis start_y row_spacing rows with
        | Some x, Some y =>
            let '(X, Y) := meshgrid x y in
            let reg_coords := column_stack (ravel X) (ravel Y) in
            if forallb (λ c : point, (c.1 =? astype_int32 c.1)
                                     && (c.2 =? astype_int32 c.2)) reg_coords
            then Grid reg_coords
            else Raises NonIntegerCoordinate
        | _, _ => Raises OutOfInt32
        end
  end.

End F_receivers_regularize.

(** ** F_receivers_regularize.py, the extent in [float64]

    The synthesizer with the numbers of columns and rows as the script
    computes them: the difference of the two bounds and its quotient by the
    spacing are each rounded to [float64] before [round] is applied.  The
    coordinates and the spacings are [float64] values. *)
Module F_receivers_regularize_float64.

Definition regularize_coordinates (orig_coords : list (Q * Q))
    (row_spacing col_spacing : Q) : F_receivers_regularize.result :=
  match orig_coords with
  | [] => F_receivers_regularize.Raises F_receivers_regularize.EmptyArray
  | p :: rest =>
      let x_min := F_receivers_regularize.column_min p.1 (fst <$> rest) in
      let x_max := F_receivers_regularize.column_max p.1 (fst <$> rest) in
      let y_min := F_receivers_regularize.column_min p.2 (snd <$> rest) in
      let y_max := F_receivers_regularize.column_max p.2 (snd <$> rest) in
      if Qeq_bool col_spacing 0 || Qeq_bool row_spacing 0
      then F_receivers_regularize.Raises F_receivers_regularize.DivisionByZero
      else
        let cols :=
          round_half_even
            (Float64.fl (Float64.fl (x_max - x_min) / col_spacing)) + 1 in
        let rows :=
          round_half_even
            (Float64.fl (Float64.fl (y_max - y_min) / row_spacing)) + 1 in
        let start_x := int_ x_min in
        let start_y := int_ y_min in
        match F_receivers_regularize.axis start_x col_spacing cols, F_receivers_regularize.axis start_y row_spacing rows with
        | Some x, Some y =>
            let '(X, Y) := F_receivers_regularize.meshgrid x y in
            let reg_coords := F_receivers_regularize.column_stack (F_receivers_regularize.ravel X) (F_receivers_regularize.ravel Y) in
            if forallb (λ c : point, (c.1 =? F_receivers_regularize.astype_int32 c.1)
                                     && (c.2 =? F_receivers_regularize.astype_int32 c.2)) reg_coords
            then F_receivers_regularize.Grid reg_coords
            else F_receivers_regularize.Raises F_receivers_regularize.NonIntegerCoordinate
        | _, _ => F_receivers_regularize.Raises F_receivers_regularize.OutOfInt32
        end
  end.

End F_receivers_regularize_float64.

(** The synthesizer as the specification words it (section 4.2), to be
    compared with the script: the anchor is the floor of the bounding-box
    minimum, node [(r, c)] is [(ox + c·colSpacing, oy + r·rowSpacing)], and
    a lattice with a coordinate that is no integer is rejected. *)
Module Spec.

Definition is_integer (q : Q) : bool := Qeq_bool q (inject_Z (Qfloor q)).

Definition synthesize (referenceSet : list (Q * Q)) (rowSpacing colSpacing : Q)
    : F_receivers_regularize.result :=
  match referenceSet with
  | [] => F_receivers_regularize.Raises F_receivers_regularize.EmptyArray
  | p :: rest =>
      let xmin := F_receivers_regularize.column_min p.1 (fst <$> rest) in
      let xmax := F_receivers_regularize.column_max p.1 (fst <$> rest) in
      let ymin := F_receivers_regularize.column_min p.2 (snd <$> rest) in
      let ymax := F_receivers_regularize.column_max p.2 (snd <$> rest) in
      let cols := round_half_even ((xmax - xmin) / colSpacing) + 1 in
      let rows := round_half_even ((ymax - ymin) / rowSpacing) + 1 in
      let ox := Qfloor xmin in
      let oy := Qfloor ymin in
      let nodes :=
        concat ((λ r, (λ c, (inject_Z ox + inject_Z c * colSpacing,
                             inject_Z oy + inject_Z r * rowSpacing)%Q)
                        <$> seqZ 0 cols) <$> seqZ 0 rows) in
      if forallb (λ n : Q * Q, is_integer n.1 && is_integer n.2) nodes
      then F_receivers_regularize.Grid ((λ n : Q * Q, (Qfloor n.1, Qfloor n.2)) <$> nodes)
      else F_receivers_regularize.Raises F_receivers_regularize.NonIntegerCoordinate
  end.

End Spec.

(** ** H_receivers_match.py *)
Module H_receivers_match.

(** [np.mean] of a column of coordinates. *)
Definition mean (col : list Z) : Q :=
  (inject_Z (foldr Z.add 0%Z col) / inject_Z (Z.of_nat (length col)))%Q.

(** [np.mean(pts, axis=0)]. *)
Definition centre (pts : list point) : Q * Q :=
  (mean (fst <$> pts), mean (snd <$> pts)).

(** Rows compared column by column, the first column first. *)
Definition row_le : relation point :=
  λ p q, p.1 < q.1 ∨ (p.1 = q.1 ∧ p.2 ≤ q.2).

#[global] Instance row_le_dec p q : Decision (row_le p q).
Proof. unfold row_le. apply _. Defined.

Fixpoint drop_repeats (rows : list point) : list point :=
  match rows with
  | [] => []
  | p :: rest =>
      match rest with
      | [] => [p]
      | q :: _ => if decide (p = q) then drop_repeats rest
                  else p :: drop_repeats rest
      end
  end.

(** [np.unique(rows, axis=0)]: the distinct rows, in increasing order. *)
Definition unique_rows (rows : list point) : list point :=
  drop_repeats (merge_sort row_le rows).

(** [cKDTree(grid_points).query(p)]: the distance (by its square) to a
    nearest node and the position of that node.  The tree is searched, never
    modified.  Which of several nearest nodes SciPy reports is not
    documented; the model reports the first. *)
Definition query (grid_points : list point) (p : point) : Z * nat :=
  let d := cdist p grid_points in (NumPy.min d, NumPy.argmin d).

Definition shift (offset : Z * Z) (p : point) : point :=
  (p.1 + offset.1, p.2 + offset.2).

(** The dictionary comprehension [{k: v for k, v in pairs}]. *)
Definition dict_of (pairs : list (point * point)) : gmap point point :=
  fold_left (λ m kv, <[kv.1 := kv.2]> m) pairs ∅.

Record output : Type := Output {
  offset : Z * Z;
  shifted_coords : list point;
  distances : list Z;            (* squares of the distances of [tree.query] *)
  receiver_to_grid : gmap point point;
  written : list point           (* GroupX, GroupY of each trace of the new file *)
}.

(** [process_segy_file] on the grid and on the receiver position of every
    trace.  [None] stands for the runs that do not complete: an empty grid
    or an empty file (the mean of an empty array is not a number), or a
    trace whose shifted position is no key of the dictionary. *)
Definition process_segy_file (grid_points : list point) (group : list point)
    : option output :=
  if decide (grid_points = [] ∨ group = []) then None
  else
    let grid_center := centre grid_points in
    let orig_coords := unique_rows group in
    let orig_center := centre orig_coords in
    let offset := (round_half_even (grid_center.1 - orig_center.1),
                   round_half_even (grid_center.2 - orig_center.2)) in
    let shifted_group := shift offset <$> group in
    let shifted_coords := unique_rows shifted_group in
    let queried := query grid_points <$> shifted_coords in
    let distances := fst <$> queried in
    let indices := snd <$> queried in
    let matched_coords := NumPy.take grid_points indices in
    let receiver_to_grid := dict_of (zip shifted_coords matched_coords) in
    written ← mapM (λ p, receiver_to_grid !! p) shifted_group;
    Some (Output offset shifted_coords distances receiver_to_grid written).

(** The Euclidean distances themselves. *)
Definition euclidean (d2 : list Z) : list R := (λ d, sqrt (IZR d)) <$> d2.



End H_receivers_match.

(** ** H_receivers_match.py, the offset in [float64]

    The offset as the script computes it: the sums of the coordinates are
    accumulated in [float64], each mean is the rounded quotient of a sum
    by the count, and the difference of the two centres is rounded before
    [np.round] is applied.  What follows the offset is the script of
    [H_receivers_match]. *)
Module H_receivers_match_float64.

(** The sum of a column, accumulated in [float64]. *)
Definition sum (col : list Z) : Q :=
  fold_left (λ acc x, Float64.fl (acc + Float64.fl (inject_Z x))) col 0%Q.

(** [np.mean] of a column. *)
Definition mean (col : list Z) : Q :=
  Float64.fl (sum col / Float64.fl (inject_Z (Z.of_nat (length col)))).

(** [np.mean(pts, axis=0)]. *)
Definition centre (pts : list point) : Q * Q :=
  (mean (fst <$> pts), mean (snd <$> pts)).

(** [np.round(grid_center - orig_center).astype(int)]. *)
Definition offset_of (grid_center orig_center : Q * Q) : Z * Z :=
  (round_half_even (Float64.fl (grid_center.1 - orig_center.1)),
   round_half_even (Float64.fl (grid_center.2 - orig_center.2))).

Definition process_segy_file (grid_points : list point) (group : list point)
    : option H_receivers_match.output :=
  if decide (grid_points = [] ∨ group = []) then None
  else
    let grid_center := centre grid_points in
    let orig_coords := H_receivers_match.unique_rows group in
    let orig_center := centre orig_coords in
    let offset := offset_of grid_center orig_center in
    let shifted_group := H_receivers_match.shift offset <$> group in
    let shifted_coords := H_receivers_match.unique_rows shifted_group in
    let queried := H_receivers_match.query grid_points <$> shifted_coords in
    let distances := fst <$> queried in
    let indices := snd <$> queried in
    let matched_coords := NumPy.take grid_points indices in
    let receiver_to_grid := H_receivers_match.dict_of (zip shifted_coords matched_coords) in
    written ← mapM (λ p, receiver_to_grid !! p) shifted_group;
    Some (H_receivers_match.Output offset shifted_coords distances receiver_to_grid written).

End H_receivers_match_float64.

(** ** G_shot_match.py, the rewriting of the file *)
Module G_shot_match_file.

(** The position fields of a trace header. *)
Record trace : Type := Trace { source : point; group : point }.

(** How a run ends.  A written trace is given by the index of the original
    trace, whose samples and remaining header fields it copies, and by its
    own position fields. *)
Inductive outcome : Type :=
| Written (new_segy : list (nat * trace))
| IndexError       (* [matched_shots[:, 0]] in [plot_match_result], on an
                      array without a second axis *)
| KeyError.        (* [shot_to_grid[orig_shot]] *)

Definition process_segy_file (grid_points : list point) (traces : list trace)
    (max_distance : Q) : outcome :=
  let unique_shots := H_receivers_match.unique_rows (source <$> traces) in
  let '(shot_to_grid, matched_shots) :=
    G_shot_match.match_shots_to_grid unique_shots grid_points max_distance in
  match matched_shots with
  | [] => IndexError
  | _ :: _ =>
      let keep_indices :=
        filter (λ i, is_Some (tr ← traces !! i; shot_to_grid !! source tr))
               (seq 0 (length traces)) in
      match mapM (λ orig_index,
                    tr ← traces !! orig_index;
                    new_shot ← shot_to_grid !! source tr;
                    Some (orig_index, Trace new_shot (group tr)))
                 keep_indices with
      | Some new_segy => Written new_segy
      | None => KeyError
      end
  end.

End G_shot_match_file.

(** ** G_shot_match.py, the rewriting of the file, the distances in
    [float64] *)
Module G_shot_match_file_float64.

Definition process_segy_file (grid_points : list point)
    (traces : list G_shot_match_file.trace) (max_distance : Q)
    : G_shot_match_file.outcome :=
  let unique_shots :=
    H_receivers_match.unique_rows (G_shot_match_file.source <$> traces) in
  let '(shot_to_grid, matched_shots) :=
    G_shot_match_float64.match_shots_to_grid unique_shots grid_points
      max_distance in
  match matched_shots with
  | [] => G_shot_match_file.IndexError
  | _ :: _ =>
      let keep_indices :=
        filter (λ i, is_Some (tr ← traces !! i;
                              shot_to_grid !! G_shot_match_file.source tr))
               (seq 0 (length traces)) in
      match mapM (λ orig_index,
                    tr ← traces !! orig_index;
                    new_shot ← shot_to_grid !! G_shot_match_file.source tr;
                    Some (orig_index,
                          G_shot_match_file.Trace new_shot
                            (G_shot_match_file.group tr)))
                 keep_indices with
      | Some new_segy => G_shot_match_file.Written new_segy
      | None => G_shot_match_file.KeyError
      end
  end.

End G_shot_match_file_float64.

Import G_shot_match_file.
Import G_shot_match F_receivers_regularize H_receivers_match.



(** A point with integer coordinates as a row of a [float64] array. *)
Definition as_floats (p : point) : Q * Q := (inject_Z p.1, inject_Z p.2).

(** * Vocabulary of the statements *)

(** Order by [key] first, by the order [R] already present second. *)
Definition then_by (key : nat → Z) (R : relation nat) : relation nat :=
  λ i j, key i < key j ∨ (key i = key j ∧ R i j).

(** Grid node [j] has not been consumed yet. *)
Definition free (mask : list bool) (j : nat) : Prop := mask !! j = Some false.

(** [node], stored at position [gi], is a free node nearest to [shot], and
    among the free nodes at that same distance it has the smallest position
    in the grid array. *)
Definition first_nearest_free (grid_points : list point) (mask : list bool)
    (shot : point) (gi : nat) (node : point) : Prop :=
  free mask gi ∧ grid_points !! gi = Some node ∧
  ∀ j nj, free mask j → grid_points !! j = Some nj →
    sqdist shot node ≤ sqdist shot nj ∧
    (sqdist shot nj = sqdist shot node → (gi ≤ j)%nat).

(** The distance between [p] and [q] is at most [max_distance]. *)
Definition within_distance (p q : point) (max_distance : Q) : Prop :=
  (0 <= max_distance)%Q ∧
  (inject_Z (sqdist p q) <= max_distance * max_distance)%Q.

(** The distance between [p] and [q] exceeds [max_distance]. *)
Definition farther_than (p q : point) (max_distance : Q) : Prop :=
  (max_distance < 0)%Q ∨
  (max_distance * max_distance < inject_Z (sqdist p q))%Q.

(** The facts that hold of the loop state after any number of iterations. *)
Record invariant (grid_points : list point) (md : Q) (st : state) : Prop := {
  inv_length : length (matched_grid st) = length grid_points;
  inv_within : ∀ s g, shot_to_grid st !! s = Some g →
                 g ∈ grid_points ∧ within_distance s g md ∧ g ∈ matched_shots st;
  inv_nodes : ∀ g, g ∈ matched_shots st → g ∈ grid_points;
  inv_index : ∃ idx : gmap point nat,
      (∀ s g, shot_to_grid st !! s = Some g ↔
              ∃ i, idx !! s = Some i ∧ grid_points !! i = Some g) ∧
      (∀ s i, idx !! s = Some i → matched_grid st !! i = Some true) ∧
      (∀ s1 s2 i, idx !! s1 = Some i → idx !! s2 = Some i → s1 = s2)
}.

(** [p] comes no later than [q] when reading from the right-bottom corner
    to the left-top one: larger Y first, and on equal Y larger X first. *)
Definition reading_order : relation point :=
  λ p q, q.2 < p.2 ∨ (q.2 = p.2 ∧ q.1 ≤ p.1).

#[local] Instance reading_order_dec p q : Decision (reading_order p q).
Proof. unfold reading_order. apply _. Defined.

(** Coordinates below 2^24 in absolute value.  Between two such points the
    differences of the coordinates, their squares and the sum of the
    squares are [float64] values, so that only the root is rounded when
    their distance is computed. *)
Definition survey_range (p : point) : Prop :=
  Z.abs p.1 < 2 ^ 24 ∧ Z.abs p.2 < 2 ^ 24.

#[local] Instance survey_range_dec p : Decision (survey_range p).
Proof. unfold survey_range. apply _. Defined.

(** In [assignment] the node [g] belongs to a shot that is processed before
    the shot [s]. *)
Definition taken_before (assignment : gmap point point) (s g : point) : Prop :=
  ∃ s', assignment !! s' = Some g ∧ s' ≠ s ∧ reading_order s' s.

(** The specification of the order: the sorted rearrangement of the shots
    by descending Y, then descending X. *)
Definition sorted_descending_y_then_x (shot_points : list point) : list point :=
  merge_sort reading_order shot_points.

(** The 3 × 3 lattice anchored at the origin with spacing 10, row by row. *)
Definition grid3x3 : list point :=
  [(0,0); (10,0); (20,0); (0,10); (10,10); (20,10); (0,20); (10,20); (20,20)].

(** The shots of the scenario of the specification (section 8). *)
Definition scenario_shots : list point := [(1,1); (9,9); (21,21)].

(** Three traces of two shots; the second shot is out of reach. *)
Definition three_traces : list trace :=
  [Trace (1,1) (50,50); Trace (100,100) (60,50); Trace (1,1) (70,50)].

(** [v] is a value of the type [int32]. *)
Definition in_int32 (v : Z) : Prop := int32_min ≤ v ≤ int32_max.

(** [m] is the least (greatest) entry of the column [col]. *)
Definition is_min (m : Q) (col : list Q) : Prop :=
  Exists (Qeq m) col ∧ Forall (Qle m) col.
Definition is_max (m : Q) (col : list Q) : Prop :=
  Exists (Qeq m) col ∧ Forall (λ y, y <= m)%Q col.

(** The bounding box of the reference points. *)
Definition bounding_box (coords : list (Q * Q)) (xmin xmax ymin ymax : Q) : Prop :=
  is_min xmin (fst <$> coords) ∧ is_max xmax (fst <$> coords) ∧
  is_min ymin (snd <$> coords) ∧ is_max ymax (snd <$> coords).

(** The lattice with [rows] × [cols] nodes anchored at [(ox, oy)]: node
    [(r, c)] is [(ox + c·cs, oy + r·rs)]; rows follow one another. *)
Definition lattice (ox oy rs cs rows cols : Z) : list point :=
  concat ((λ r, (λ c, (ox + c * cs, oy + r * rs)) <$> seqZ 0 cols) <$> seqZ 0 rows).

(** A reference set whose least X is negative and fractional. *)
Definition fractional_reference : list (Q * Q) :=
  [(-3 # 2, 1 # 2); (17 # 2, 41 # 2)]%Q.

(** The bounding box of [grid] contains the box [xmin, xmax] × [ymin, ymax]:
    some node lies at or beyond each of its four sides. *)
Definition covers (grid : list point) (xmin xmax ymin ymax : Q) : Prop :=
  Exists (λ p : point, inject_Z p.1 <= xmin)%Q grid ∧
  Exists (λ p : point, xmax <= inject_Z p.1)%Q grid ∧
  Exists (λ p : point, inject_Z p.2 <= ymin)%Q grid ∧
  Exists (λ p : point, ymax <= inject_Z p.2)%Q grid.

#[local] Instance Qeq_decision (x y : Q) : Decision (x == y)%Q := Qeq_dec x y.

#[local] Instance Qle_decision (x y : Q) : Decision (x <= y)%Q.
Proof. unfold Qle. apply _. Defined.

#[local] Instance covers_dec grid xmin xmax ymin ymax :
  Decision (covers grid xmin xmax ymin ymax).
Proof. unfold covers. apply _. Defined.

(** A coordinate that is a multiple of 2^-16 of absolute value at most
    2^31: the difference of two such numbers is a [float64] value. *)
Definition exact_coordinate (q : Q) : Prop :=
  (Qabs q <= 2147483648)%Q ∧ (inject_Z (Qfloor (q * 65536)) == q * 65536)%Q.

Definition exact_point (p : Q * Q) : Prop :=
  exact_coordinate p.1 ∧ exact_coordinate p.2.

#[local] Instance exact_coordinate_dec q : Decision (exact_coordinate q).
Proof. unfold exact_coordinate. apply _. Defined.

#[local] Instance exact_point_dec p : Decision (exact_point p).
Proof. unfold exact_point. apply _. Defined.

(** Coordinates below 2^22 in absolute value: the sum of fewer than 2^31
    of them is a [float64] value, and a point shifted by the difference of
    two means of such coordinates stays within [survey_range]. *)
Definition alignment_range (p : point) : Prop :=
  Z.abs p.1 < 2 ^ 22 ∧ Z.abs p.2 < 2 ^ 22.

#[local] Instance alignment_range_dec p : Decision (alignment_range p).
Proof. unfold alignment_range. apply _. Defined.

(** The centroid of a list of points. *)
Definition centroid (pts : list point) : Q * Q :=
  let n := Z.of_nat (length pts) in
  let sx := foldr (λ (p : point) (s : Z), p.1 + s) 0 pts in
  let sy := foldr (λ (p : point) (s : Z), p.2 + s) 0 pts in
  ((inject_Z sx / inject_Z n)%Q, (inject_Z sy / inject_Z n)%Q).



(** Strictly increasing rows. *)
Definition row_lt : relation point := λ p q, row_le p q ∧ p ≠ q.

(** The node the static index reports for [p]. *)
Definition nearest_node (grid_points : list point) (p : point) : point :=
  nth (query grid_points p).2 grid_points (0, 0).


(** The bookkeeping of the matching loop after the shots [pre]: the
    consumed positions, in the order of their consumption, are the
    positions of the matched nodes, each consumed once; and, when no shot
    occurs twice, every matched node is the entry of a shot of [pre] and the
    dictionary has one key per matched node. *)
Record ledger (grid_points : list point) (pre : list point) (st : state) : Prop := {
  led_length : length (matched_grid st) = length grid_points;
  led_consumed : ∃ idxs : list nat,
      NoDup idxs ∧
      Forall2 (λ i g, grid_points !! i = Some g) idxs (matched_shots st) ∧
      ∀ i, matched_grid st !! i = Some true ↔ i ∈ idxs;
  led_owner : NoDup pre → ∀ g, g ∈ matched_shots st →
      ∃ s, s ∈ pre ∧ shot_to_grid st !! s = Some g;
  led_size : NoDup pre → size (shot_to_grid st) = length (matched_shots st);
  led_turns : (length (matched_shots st) ≤ length pre)%nat
}.

(** * Properties of the primitives *)

Section stable_sort.
Context (key : nat → Z) (R : relation nat).

Lemma insert_by_perm i l : NumPy.insert_by key i l ≡ₚ i :: l.
Proof.
  induction l as [|j l IH]; simpl; [done|].
  case_match; [done|]. rewrite IH. apply perm_swap.
Qed.

Lemma stable_sort_by_perm idx : NumPy.stable_sort_by key idx ≡ₚ idx.
Proof.
  induction idx as [|i idx IH]; simpl; [done|].
  rewrite insert_by_perm. by rewrite IH.
Qed.

Lemma then_by_key_le i j : then_by key R i j → key i ≤ key j.
Proof. unfold then_by. lia. Qed.

Lemma then_by_intro i j : key i ≤ key j → R i j → then_by key R i j.
Proof.
  intros Hle HR. destruct (decide (key i = key j)); [by right|left; lia].
Qed.

Lemma insert_by_sorted i l :
  Forall (R i) l →
  StronglySorted (then_by key R) l →
  StronglySorted (then_by key R) (NumPy.insert_by key i l).
Proof.
  intros Hi Hl. induction Hl as [|j l Hl IH Hj]; simpl.
  { repeat constructor. }
  apply Forall_cons in Hi as [Hij Hi].
  destruct (Z.leb_spec (key i) (key j)) as [Hle|Hlt].
  - constructor; [by constructor|].
    constructor.
    + by apply then_by_intro.
    + rewrite Forall_forall in Hj, Hi |- *. intros x Hx.
      specialize (Hj x Hx). apply then_by_key_le in Hj.
      apply then_by_intro; [lia|by apply Hi].
  - constructor; [by apply IH|].
    rewrite insert_by_perm. constructor; [|done].
    unfold then_by. lia.
Qed.

Lemma stable_sort_by_sorted idx :
  StronglySorted R idx →
  StronglySorted (then_by key R) (NumPy.stable_sort_by key idx).
Proof.
  induction 1 as [|i idx Hidx IH Hi]; simpl; [constructor|].
  apply insert_by_sorted; [|done].
  by rewrite stable_sort_by_perm.
Qed.
End stable_sort.

Lemma StronglySorted_True (l : list nat) : StronglySorted (λ _ _, True) l.
Proof.
  induction l; constructor; [done|]. by apply Forall_forall.
Qed.

Lemma take_seq (a : list point) : NumPy.take a (seq 0 (length a)) = a.
Proof.
  unfold NumPy.take. induction a as [|x a IH] using rev_ind; [done|].
  rewrite length_app, Nat.add_1_r, seq_S, fmap_app. simpl.
  rewrite app_nth2, Nat.sub_diag by lia. simpl. f_equal.
  rewrite <- IH at 2. apply list_fmap_ext. intros i j Hj.
  apply lookup_seq in Hj as [-> Hj]. simpl.
  by rewrite app_nth1.
Qed.

(** ** Masks *)

Lemma mask_where_lookup {A} (a : list A) mask off k x :
  length a = length mask →
  NumPy.mask_index a mask !! k = Some x →
  ∃ gi, NumPy.where_from off mask !! k = Some (off + gi)%nat
        ∧ mask !! gi = Some true ∧ a !! gi = Some x.
Proof.
  revert mask off k. induction a as [|y a IH]; intros [|b mask] off k Hlen Hk;
    simplify_eq/=.
  destruct b; simpl in *.
  - destruct k as [|k]; simplify_eq/=.
    + exists 0%nat. by rewrite Nat.add_0_r.
    + destruct (IH mask (S off) k) as (gi & ? & ? & ?); [done..|].
      exists (S gi). by rewrite <- Nat.add_succ_comm.
  - destruct (IH mask (S off) k) as (gi & ? & ? & ?); [done..|].
    exists (S gi). by rewrite <- Nat.add_succ_comm.
Qed.

Lemma where_mask_lookup {A} (a : list A) mask off gi x :
  mask !! gi = Some true → a !! gi = Some x →
  ∃ k, NumPy.where_from off mask !! k = Some (off + gi)%nat
       ∧ NumPy.mask_index a mask !! k = Some x.
Proof.
  revert mask off gi. induction a as [|y a IH]; intros [|b mask] off gi Hm Ha;
    simplify_eq/=.
  destruct gi as [|gi]; simplify_eq/=.
  - exists 0%nat. by rewrite Nat.add_0_r.
  - destruct (IH mask (S off) gi) as (k & ? & ?); [done..|].
    rewrite <- Nat.add_succ_comm.
    destruct b; [by exists (S k)|by exists k].
Qed.

Lemma where_from_ge off mask k i :
  NumPy.where_from off mask !! k = Some i → (off ≤ i)%nat.
Proof.
  revert off k. induction mask as [|b mask IH]; intros off k Hk; simplify_eq/=.
  destruct b.
  - destruct k; simplify_eq/=; [lia|]. apply IH in Hk. lia.
  - apply IH in Hk. lia.
Qed.

(** [np.where] lists the positions in increasing order. *)
Lemma where_from_increasing off mask k1 k2 i1 i2 :
  (k1 < k2)%nat →
  NumPy.where_from off mask !! k1 = Some i1 →
  NumPy.where_from off mask !! k2 = Some i2 →
  (i1 < i2)%nat.
Proof.
  revert off k1 k2. induction mask as [|b mask IH]; intros off k1 k2 Hlt H1 H2;
    simplify_eq/=.
  destruct b; [|by eapply IH].
  destruct k2 as [|k2]; [lia|]. destruct k1 as [|k1]; simplify_eq/=.
  - apply where_from_ge in H2. lia.
  - eapply IH; [|done..]. lia.
Qed.

Lemma lookup_invert mask i b :
  NumPy.invert mask !! i = Some b ↔ mask !! i = Some (negb b).
Proof.
  unfold NumPy.invert. rewrite list_lookup_fmap.
  destruct (mask !! i) as [[]|], b; naive_solver.
Qed.

(** ** Minimum and first position of the minimum *)

Lemma fold_left_min_assoc r x y :
  fold_left Z.min r (Z.min x y) = Z.min x (fold_left Z.min r y).
Proof.
  revert x y. induction r as [|z r IH]; intros x y; simpl; [done|].
  by rewrite <- Z.min_assoc, IH.
Qed.

Lemma min_cons x y r : NumPy.min (x :: y :: r) = Z.min x (NumPy.min (y :: r)).
Proof. simpl. apply fold_left_min_assoc. Qed.

Lemma argmin_cons x y r :
  NumPy.argmin (x :: y :: r) =
    if x <=? NumPy.min (y :: r) then 0%nat else S (NumPy.argmin (y :: r)).
Proof. done. Qed.

Lemma min_le d x : x ∈ d → NumPy.min d ≤ x.
Proof.
  induction d as [|y [|z r] IH]; intros Hx.
  - by apply elem_of_nil in Hx.
  - apply list_elem_of_singleton in Hx as ->. simpl. lia.
  - rewrite min_cons. apply elem_of_cons in Hx as [->|Hx]; [lia|].
    specialize (IH Hx). lia.
Qed.

Lemma argmin_lookup d : d ≠ [] → d !! NumPy.argmin d = Some (NumPy.min d).
Proof.
  induction d as [|y [|z r] IH]; intros Hd; [done|done|].
  rewrite min_cons, argmin_cons.
  specialize (IH ltac:(done)). revert IH.
  generalize (NumPy.min (z :: r)), (NumPy.argmin (z :: r)). intros m k IH.
  destruct (Z.leb_spec y m) as [Hle|Hlt].
  - simpl. f_equal. lia.
  - change ((z :: r) !! k = Some (Z.min y m)). rewrite IH. f_equal. lia.
Qed.

Lemma argmin_first d j x :
  (j < NumPy.argmin d)%nat → d !! j = Some x → NumPy.min d < x.
Proof.
  revert j. induction d as [|y [|z r] IH]; intros j Hj Hx; [simpl in Hj; lia..|].
  rewrite min_cons. rewrite argmin_cons in Hj.
  revert IH Hj.
  generalize (NumPy.min (z :: r)), (NumPy.argmin (z :: r)). intros m k IH Hj.
  destruct (Z.leb_spec y m) as [Hle|Hlt]; [lia|].
  destruct j as [|j]; simplify_eq/=; [lia|].
  assert (m < x); [|lia].
  apply (IH j); [lia|done].
Qed.

(** * The sequential matcher *)

Lemma dist_le_true p q md :
  dist_le (sqdist p q) md = true ↔ within_distance p q md.
Proof.
  unfold dist_le, within_distance.
  by rewrite andb_true_iff, !Qle_bool_iff.
Qed.

Lemma dist_le_false p q md :
  dist_le (sqdist p q) md = false ↔ farther_than p q md.
Proof.
  unfold dist_le, farther_than.
  rewrite andb_false_iff, <- !not_true_iff_false, !Qle_bool_iff.
  split; (intros [H|H]; [left|right]); revert H.
  - apply Qnot_le_lt.
  - apply Qnot_le_lt.
  - apply Qlt_not_le.
  - apply Qlt_not_le.
Qed.

Lemma farther_not_within p q md :
  farther_than p q md ↔ ¬ within_distance p q md.
Proof.
  rewrite <- dist_le_false, <- dist_le_true. symmetry. apply not_true_iff_false.
Qed.

Section selection.
Context (grid_points : list point) (mask : list bool) (shot : point).
Hypothesis Hlen : length mask = length grid_points.

Let unmatched := NumPy.invert mask.
Let distances := cdist shot (NumPy.mask_index grid_points unmatched).

Lemma free_candidate j :
  free mask j →
  ∃ k nj, grid_points !! j = Some nj ∧
          NumPy.where_ unmatched !! k = Some j ∧
          distances !! k = Some (sqdist shot nj).
Proof.
  intros Hj.
  destruct (lookup_lt_is_Some_2 grid_points j) as [nj Hnj].
  { rewrite <- Hlen. by eapply lookup_lt_Some. }
  destruct (where_mask_lookup grid_points unmatched 0 j nj)
    as (k & Hw & Hc); [by apply lookup_invert|done|].
  exists k, nj. split_and!; [done..|].
  unfold distances, cdist. by rewrite list_lookup_fmap, Hc.
Qed.

Lemma no_candidate_no_free : distances = [] → ∀ j, ¬ free mask j.
Proof.
  intros Hd j Hj. destruct (free_candidate j Hj) as (k & nj & _ & _ & Hk).
  by rewrite Hd in Hk.
Qed.

Lemma selection_first_nearest :
  distances ≠ [] →
  let gi := nth (NumPy.argmin distances) (NumPy.where_ unmatched) 0%nat in
  ∃ node, nth gi grid_points (0, 0) = node ∧
          sqdist shot node = NumPy.min distances ∧
          first_nearest_free grid_points mask shot gi node.
Proof.
  intros Hd gi. pose proof (argmin_lookup distances Hd) as Hk.
  assert (∃ node, NumPy.mask_index grid_points unmatched
                    !! NumPy.argmin distances = Some node
                  ∧ sqdist shot node = NumPy.min distances)
    as (node & Hc & Hmin).
  { revert Hk. generalize (NumPy.argmin distances), (NumPy.min distances).
    intros k m. unfold distances, cdist. rewrite list_lookup_fmap.
    destruct (NumPy.mask_index grid_points unmatched !! k) as [node|];
      intros; simplify_eq/=. eauto. }
  assert (length grid_points = length unmatched) as Hlen'.
  { unfold unmatched, NumPy.invert. by rewrite length_fmap. }
  destruct (mask_where_lookup grid_points unmatched 0%nat _ node Hlen' Hc)
    as (gi' & Hw & Hm & Hg).
  simpl in Hw. assert (gi = gi') as ->.
  { unfold gi, NumPy.where_. by apply nth_lookup_Some with (d := 0%nat) in Hw. }
  exists node. split; [by apply nth_lookup_Some with (d := (0, 0)) in Hg|].
  split; [done|]. split; [by apply lookup_invert in Hm|]. split; [done|].
  intros j nj Hj Hnj.
  destruct (free_candidate j Hj) as (k & nj' & Hnj' & Hwk & Hdk).
  simplify_eq. rewrite Hmin. split.
  - apply min_le. by eapply list_elem_of_lookup_2.
  - intros Heq.
    destruct (Nat.lt_trichotomy k (NumPy.argmin distances)) as [Hlt|[->|Hgt]].
    + pose proof (argmin_first distances k _ Hlt Hdk). lia.
    + unfold NumPy.where_ in Hwk. rewrite Hw in Hwk. by simplify_eq.
    + unfold NumPy.where_ in Hwk.
      pose proof (where_from_increasing _ _ _ _ _ _ Hgt Hw Hwk). lia.
Qed.
End selection.

(** What one iteration of the loop does: either it leaves the state alone,
    because no free node remains or the nearest free node is too far, or it
    consumes the first nearest free node. *)
Lemma match_step_cases grid_points md st shot :
  length (matched_grid st) = length grid_points →
  (match_step grid_points md st shot = st ∧
     ((∀ j, ¬ free (matched_grid st) j) ∨
      ∃ gi node, first_nearest_free grid_points (matched_grid st) shot gi node
                 ∧ farther_than shot node md))
  ∨ (∃ gi node, first_nearest_free grid_points (matched_grid st) shot gi node
                ∧ within_distance shot node md
                ∧ match_step grid_points md st shot =
                    State (<[shot := node]> (shot_to_grid st))
                          (<[gi := true]> (matched_grid st))
                          (matched_shots st ++ [node])).
Proof.
  intros Hlen. unfold match_step.
  set (distances := cdist shot _).
  destruct (decide (distances = [])) as [Hd|Hd].
  { left. rewrite Hd. simpl. split; [done|]. left.
    by apply (no_candidate_no_free grid_points _ shot Hlen). }
  destruct (selection_first_nearest grid_points _ shot Hlen Hd)
    as (node & Hnth & Hmin & Hsel).
  fold distances in Hnth, Hmin, Hsel |- *.
  rewrite bool_decide_eq_true_2 by (destruct distances; simpl; [done|lia]).
  rewrite <- Hmin. simpl. destruct (dist_le _ md) eqn:Hle.
  - right. eexists _, node. rewrite Hnth. split; [done|].
    split; [by apply dist_le_true|done].
  - left. split; [done|]. right. eexists _, node. split; [done|].
    by apply dist_le_false.
Qed.

Lemma invariant_init grid_points md : invariant grid_points md (init grid_points).
Proof.
  split; simpl.
  - apply length_replicate.
  - intros s g Hs. by rewrite lookup_empty in Hs.
  - intros g Hg. by apply elem_of_nil in Hg.
  - exists ∅. split_and!.
    + intros s g. rewrite lookup_empty. split; [done|].
      intros (i & Hi & _). by rewrite lookup_empty in Hi.
    + intros s i Hi. by rewrite lookup_empty in Hi.
    + intros s1 s2 i Hi. by rewrite lookup_empty in Hi.
Qed.

Lemma invariant_step grid_points md st shot :
  invariant grid_points md st →
  invariant grid_points md (match_step grid_points md st shot).
Proof.
  intros Hinv.
  destruct (match_step_cases grid_points md st shot (inv_length _ _ _ Hinv))
    as [[-> _]|(gi & node & (Hfree & Hnode & _) & Hmd & ->)]; [done|].
  destruct Hinv as [Hlen Hwithin Hnodes (idx & Hdict & Hused & Hinj)].
  split; simpl.
  - by rewrite length_insert.
  - intros s g. rewrite lookup_insert. case_decide as Hs.
    + intros [= <-]. subst s. split_and!; [by eapply list_elem_of_lookup_2|done|].
      apply elem_of_app. right. by apply list_elem_of_singleton.
    + intros Hg. destruct (Hwithin s g Hg) as (? & ? & ?). split_and!; [done..|].
      apply elem_of_app. by left.
  - intros g [Hg| ->%list_elem_of_singleton]%elem_of_app; [by apply Hnodes|].
    by eapply list_elem_of_lookup_2.
  - exists (<[shot := gi]> idx). split_and!.
    + intros s g. rewrite !lookup_insert. case_decide as Hs.
      * split; [intros [= <-]; eauto|]. intros (i & [= <-] & Hi). congruence.
      * apply Hdict.
    + intros s i. rewrite lookup_insert. case_decide as Hs.
      * intros [= <-]. apply list_lookup_insert_eq. by eapply lookup_lt_Some.
      * intros Hi. destruct (decide (gi = i)) as [->|Hne].
        -- apply list_lookup_insert_eq. by eapply lookup_lt_Some.
        -- rewrite list_lookup_insert_ne by done. by eapply Hused.
    + intros s1 s2 i. rewrite !lookup_insert.
      repeat case_decide; subst; try done.
      * intros [= <-] Hi. apply Hused in Hi. unfold free in Hfree. congruence.
      * intros Hi [= <-]. apply Hused in Hi. unfold free in Hfree. congruence.
      * apply Hinj.
Qed.

Lemma invariant_fold grid_points md shots st :
  invariant grid_points md st →
  invariant grid_points md (fold_left (match_step grid_points md) shots st).
Proof.
  revert st. induction shots as [|shot shots IH]; intros st Hst; simpl; [done|].
  by apply IH, invariant_step.
Qed.

Lemma invariant_run grid_points md shots :
  invariant grid_points md (run grid_points md shots).
Proof. apply invariant_fold, invariant_init. Qed.

(** An iteration only ever touches the dictionary entry of its own shot. *)
Lemma match_step_lookup_ne grid_points md st shot s :
  s ≠ shot →
  shot_to_grid (match_step grid_points md st shot) !! s = shot_to_grid st !! s.
Proof.
  intros Hs. unfold match_step. case_match; [|done]. simpl.
  by rewrite lookup_insert_ne.
Qed.

Lemma fold_lookup_not_in grid_points md shots st s :
  s ∉ shots →
  shot_to_grid (fold_left (match_step grid_points md) shots st) !! s
  = shot_to_grid st !! s.
Proof.
  revert st. induction shots as [|shot shots IH]; intros st Hs; simpl; [done|].
  apply not_elem_of_cons in Hs as [Hne Hs].
  rewrite IH by done. by apply match_step_lookup_ne.
Qed.

(** * The processing order *)

#[local] Instance reading_order_total : Total reading_order.
Proof. intros [x1 y1] [x2 y2]. unfold reading_order. simpl. lia. Qed.

#[local] Instance reading_order_trans : Transitive reading_order.
Proof. intros [x1 y1] [x2 y2] [x3 y3]. unfold reading_order. simpl. lia. Qed.

#[local] Instance reading_order_antisymm : AntiSymm (=) reading_order.
Proof.
  intros [x1 y1] [x2 y2]. unfold reading_order. simpl. intros ??.
  f_equal; lia.
Qed.

Lemma sort_shots_perm shot_points :
  sort_shots_from_right_bottom_to_left_top shot_points ≡ₚ shot_points.
Proof.
  unfold sort_shots_from_right_bottom_to_left_top, NumPy.lexsort. simpl.
  transitivity (NumPy.take shot_points (seq 0 (length shot_points)));
    [|by rewrite take_seq].
  unfold NumPy.take. apply fmap_Permutation. by rewrite !stable_sort_by_perm.
Qed.

Lemma nth_fmap {A B} (f : A → B) (l : list A) (d : A) (i : nat) :
  nth i (f <$> l) (f d) = f (nth i l d).
Proof. revert i. induction l; intros [|i]; simpl; auto. Qed.

Lemma sort_shots_sorted shot_points :
  StronglySorted reading_order
    (sort_shots_from_right_bottom_to_left_top shot_points).
Proof.
  unfold sort_shots_from_right_bottom_to_left_top, NumPy.lexsort. simpl.
  unfold NumPy.take.
  eapply StronglySorted_fmap;
    [|apply stable_sort_by_sorted, stable_sort_by_sorted, StronglySorted_True].
  intros i j. unfold then_by, reading_order.
  rewrite !(nth_fmap (λ p : point, - p.1) shot_points (0, 0)).
  rewrite !(nth_fmap (λ p : point, - p.2) shot_points (0, 0)).
  generalize (nth i shot_points (0, 0)), (nth j shot_points (0, 0)).
  intros [x1 y1] [x2 y2]. simpl. lia.
Qed.

(** C3.  For every array of shots, [sort_shots_from_right_bottom_to_left_top]
    returns a rearrangement of its input that is sorted by descending Y
    with ties broken by descending X, and it is exactly the sorted
    rearrangement for that order. *)
Theorem sort_shots_descending_y_then_x (shot_points : list point) :
  sort_shots_from_right_bottom_to_left_top shot_points ≡ₚ shot_points
  ∧ StronglySorted reading_order
      (sort_shots_from_right_bottom_to_left_top shot_points)
  ∧ sort_shots_from_right_bottom_to_left_top shot_points
    = sorted_descending_y_then_x shot_points.
Proof.
  split; [apply sort_shots_perm|]. split; [apply sort_shots_sorted|].
  apply (StronglySorted_unique reading_order).
  - apply sort_shots_sorted.
  - apply StronglySorted_merge_sort; apply _.
  - unfold sorted_descending_y_then_x.
    by rewrite sort_shots_perm, merge_sort_Permutation.
Qed.

(** * The returned assignment *)

Lemma sort_shots_NoDup shot_points :
  NoDup shot_points →
  NoDup (sort_shots_from_right_bottom_to_left_top shot_points).
Proof. intros H. by rewrite sort_shots_perm. Qed.

(** A key of the returned dictionary is one of the shots handed in. *)
Lemma run_lookup_elem_of grid_points md shots s :
  is_Some (shot_to_grid (run grid_points md shots) !! s) → s ∈ shots.
Proof.
  intros Hs. destruct (decide (s ∈ shots)) as [|Hn]; [done|].
  unfold run in Hs. rewrite fold_lookup_not_in in Hs by done.
  simpl in Hs. rewrite lookup_empty in Hs. by destruct Hs.
Qed.

(** The entry of a shot that is processed once is decided at its turn. *)
Lemma run_lookup_at_turn grid_points md pre shot post :
  NoDup (pre ++ shot :: post) →
  let st := run grid_points md pre in
  shot_to_grid st !! shot = None ∧
  shot_to_grid (run grid_points md (pre ++ shot :: post)) !! shot
  = shot_to_grid (match_step grid_points md st shot) !! shot.
Proof.
  intros Hnd st. apply NoDup_app in Hnd as (_ & Hpre & Hpost).
  apply NoDup_cons in Hpost as [Hpost _]. split.
  - apply eq_None_not_Some. intros Hs%run_lookup_elem_of.
    eapply Hpre; [done|]. by left.
  - unfold run. rewrite fold_left_app. simpl.
    by apply fold_lookup_not_in.
Qed.

(** A turn leaves the state as it was exactly when no free node remains or
    the nearest free node is too far. *)
Lemma match_step_unchanged_iff grid_points md st shot :
  length (matched_grid st) = length grid_points →
  match_step grid_points md st shot = st ↔
    (∀ j, ¬ free (matched_grid st) j) ∨
    ∃ gi node, first_nearest_free grid_points (matched_grid st) shot gi node
               ∧ farther_than shot node md.
Proof.
  intros Hlen.
  destruct (match_step_cases grid_points md st shot Hlen)
    as [[Hst Hwhy]|(gi & node & Hsel & Hmd & Hst)]; [done|].
  split.
  - rewrite Hst. intros Heq. apply (f_equal matched_shots) in Heq.
    apply (f_equal length) in Heq. simpl in Heq.
    rewrite length_app in Heq. simpl in Heq. lia.
  - intros [Hfree|(gi' & node' & Hsel' & Hfar)]; exfalso.
    + destruct Hsel as (Hgi & _). by apply (Hfree gi).
    + apply farther_not_within in Hfar. apply Hfar.
      destruct Hsel as (Hgi & Hnode & Hmin), Hsel' as (Hgi' & Hnode' & Hmin').
      destruct (Hmin' gi node Hgi Hnode) as [Hle _].
      destruct Hmd as [H0 Hd]. split; [done|].
      eapply Qle_trans; [|exact Hd]. by rewrite <- Zle_Qle.
Qed.

(** A turn that appends [node] to the matched nodes has consumed the first
    nearest free node, which lies within reach. *)
Lemma match_step_assigns grid_points md st shot node :
  length (matched_grid st) = length grid_points →
  matched_shots (match_step grid_points md st shot) = matched_shots st ++ [node] →
  ∃ gi, first_nearest_free grid_points (matched_grid st) shot gi node
        ∧ within_distance shot node md
        ∧ match_step grid_points md st shot =
            State (<[shot := node]> (shot_to_grid st))
                  (<[gi := true]> (matched_grid st))
                  (matched_shots st ++ [node]).
Proof.
  intros Hlen.
  destruct (match_step_cases grid_points md st shot Hlen)
    as [[Hst Hwhy]|(gi & node' & Hsel & Hmd & Hst)]; rewrite Hst.
  - intros Heq. apply (f_equal length) in Heq.
    rewrite length_app in Heq. simpl in Heq. lia.
  - simpl. intros [_ [= <-]]%app_inj_tail. by exists gi.
Qed.

(** For a shot that is processed once, absence from the final dictionary
    and a turn without effect are the same thing. *)
Lemma absent_iff_turn_unchanged grid_points md pre shot post :
  NoDup (pre ++ shot :: post) →
  let st := run grid_points md pre in
  shot_to_grid (run grid_points md (pre ++ shot :: post)) !! shot = None ↔
  match_step grid_points md st shot = st.
Proof.
  intros Hnd st.
  destruct (run_lookup_at_turn grid_points md pre shot post Hnd) as [Hnone Heq].
  fold st in Hnone, Heq. rewrite Heq.
  destruct (match_step_cases grid_points md st shot) as
    [[Hst Hwhy]|(gi & node & Hsel & Hmd & Hst)].
  { apply invariant_run. }
  - by rewrite Hst.
  - rewrite Hst. simpl. rewrite lookup_insert_eq. split; [done|].
    intros Heq'. apply (f_equal matched_shots) in Heq'.
    apply (f_equal length) in Heq'. simpl in Heq'.
    rewrite length_app in Heq'. simpl in Heq'. lia.
Qed.

(** C1 (as the code behaves).  The loop consumes positions of the grid
    array, not nodes: every matched shot is assigned its own position, no
    position serves two shots, and so, on a grid whose nodes are pairwise
    distinct, no node is the target of two distinct shots.  A node stored
    twice can be given to two shots. *)
Theorem match_shots_to_grid_injective
    (shot_points grid_points : list point) (max_distance : Q) :
  let assignment := (match_shots_to_grid shot_points grid_points max_distance).1 in
  (∃ idx : gmap point nat,
     (∀ s g, assignment !! s = Some g ↔
             ∃ i, idx !! s = Some i ∧ grid_points !! i = Some g) ∧
     (∀ s1 s2 i, idx !! s1 = Some i → idx !! s2 = Some i → s1 = s2))
  ∧ (NoDup grid_points →
     ∀ s1 s2 g, assignment !! s1 = Some g → assignment !! s2 = Some g → s1 = s2).
Proof.
  simpl.
  destruct (invariant_run grid_points max_distance
              (sort_shots_from_right_bottom_to_left_top shot_points))
    as [_ _ _ (idx & Hdict & _ & Hinj)].
  split; [by exists idx|].
  intros Hnd s1 s2 g (i1 & Hi1 & Hg1)%Hdict (i2 & Hi2 & Hg2)%Hdict.
  assert (i1 = i2) as -> by (by eapply NoDup_lookup).
  by eapply Hinj.
Qed.

(** * Concrete runs *)

Example scenario_order :
  sort_shots_from_right_bottom_to_left_top scenario_shots
  = [(21,21); (9,9); (1,1)].
Proof. reflexivity. Qed.

(** In the scenario the shot (9,9) is matched: its nearest node is the
    centre (10,10), which is free and at squared distance 2. *)
Lemma scenario_centre_shot_is_matched :
  (match_shots_to_grid scenario_shots grid3x3 5).1 !! (9,9) = Some (10,10)
  ∧ size (match_shots_to_grid scenario_shots grid3x3 5).1 = 3%nat.
Proof. split; vm_compute; reflexivity. Qed.

(** C7 (as the code behaves).  On the 3 × 3 lattice with spacing 10, the
    shots (1,1), (9,9), (21,21) and threshold 5, all three shots are
    matched: (21,21) to (20,20), then (9,9) to (10,10), then (1,1) to (0,0). *)
Theorem scenario_result :
  match_shots_to_grid scenario_shots grid3x3 5
  = ({[ (1,1) := (0,0); (9,9) := (10,10); (21,21) := (20,20) ]},
     [(20,20); (10,10); (0,0)]).
Proof. vm_compute. reflexivity. Qed.

(** Two nodes at the same distance: the one stored first wins. *)
Example tie_goes_to_first_stored :
  (match_shots_to_grid [(1,0)] [(0,0); (2,0)] 5).2 = [(0,0)]
  ∧ (match_shots_to_grid [(1,0)] [(2,0); (0,0)] 5).2 = [(2,0)].
Proof. split; reflexivity. Qed.

(** A shot that is out of reach appears nowhere in what the matcher
    returns: it is no key of the dictionary and the second component, the
    list of matched nodes, is empty. *)
Lemma out_of_reach_shot_not_reported :
  (100,100) ∈ [(100,100)]
  ∧ (match_shots_to_grid [(100,100)] [(0,0)] 5).1 !! (100,100) = None
  ∧ (100,100) ∉ (match_shots_to_grid [(100,100)] [(0,0)] 5).2.
Proof.
  split; [by left|]. split; [vm_compute; reflexivity|].
  vm_compute. apply not_elem_of_nil.
Qed.

(** C8 (as the code behaves).  [match_shots_to_grid] returns the dictionary
    and the list of the grid nodes it assigned, nothing else: every key of
    the dictionary is one of the shots, every value of the dictionary occurs
    in the list, and every element of the list is a grid node within reach
    of some shot.  A shot that was not matched is recognised by its absence
    from the keys. *)
Theorem match_shots_to_grid_output
    (shot_points grid_points : list point) (max_distance : Q) :
  let result := match_shots_to_grid shot_points grid_points max_distance in
  (∀ s g, result.1 !! s = Some g → s ∈ shot_points ∧ g ∈ result.2)
  ∧ (∀ g, g ∈ result.2 → g ∈ grid_points).
Proof.
  simpl.
  destruct (invariant_run grid_points max_distance
              (sort_shots_from_right_bottom_to_left_top shot_points))
    as [_ Hwithin Hnodes _].
  split; [|done]. intros s g Hs. split.
  - rewrite <- (sort_shots_perm shot_points).
    eapply run_lookup_elem_of. by rewrite Hs.
  - by destruct (Hwithin s g Hs) as (_ & _ & ?).
Qed.

Lemma match_shots_to_grid_output_witness :
  (1,1) ∈ scenario_shots
  ∧ (0,0) ∈ (match_shots_to_grid scenario_shots grid3x3 5).2.
Proof.
  apply (proj1 (match_shots_to_grid_output scenario_shots grid3x3 5) (1,1) (0,0)).
  vm_compute. reflexivity.
Defined.

(** A grid array that stores one node twice gives it to two shots. *)
Lemma repeated_node_is_assigned_twice :
  (match_shots_to_grid [(1,1); (2,2)] [(0,0); (0,0)] 5).1 !! (1,1) = Some (0,0)
  ∧ (match_shots_to_grid [(1,1); (2,2)] [(0,0); (0,0)] 5).1 !! (2,2) = Some (0,0).
Proof. split; vm_compute; reflexivity. Qed.

Lemma match_shots_to_grid_injective_witness :
  NoDup grid3x3
  ∧ ∀ s1 s2 g,
      (match_shots_to_grid scenario_shots grid3x3 5).1 !! s1 = Some g →
      (match_shots_to_grid scenario_shots grid3x3 5).1 !! s2 = Some g →
      s1 = s2.
Proof.
  assert (NoDup grid3x3) as Hnd by compute_done.
  split; [exact Hnd|].
  exact (proj2 (match_shots_to_grid_injective scenario_shots grid3x3 5) Hnd).
Defined.

(** * Rounding *)

#[local] Instance round_half_even_comp : Proper (Qeq ==> eq) round_half_even.
Proof.
  intros q q' Hq. unfold round_half_even.
  rewrite (Qfloor_comp _ _ Hq).
  assert (q - inject_Z (Qfloor q') == q' - inject_Z (Qfloor q'))%Q as ->
    by (by rewrite Hq).
  done.
Qed.

#[local] Instance int_comp : Proper (Qeq ==> eq) int_.
Proof.
  intros q q' Hq. unfold int_.
  by rewrite (Qfloor_comp _ _ Hq), (Qceiling_comp _ _ Hq), (Qleb_comp _ _ (Qeq_refl 0) _ _ Hq).
Qed.

Lemma floor_bounds q :
  (inject_Z (Qfloor q) <= q)%Q ∧ (q < inject_Z (Qfloor q) + 1)%Q.
Proof.
  split; [apply Qfloor_le|].
  pose proof (Qlt_floor q) as H. by rewrite inject_Z_plus in H.
Qed.

(** [round] returns a nearest integer. *)
Lemma round_half_even_nearest q :
  (q - (1 # 2) <= inject_Z (round_half_even q))%Q
  ∧ (inject_Z (round_half_even q) <= q + (1 # 2))%Q.
Proof.
  unfold round_half_even. destruct (floor_bounds q) as [Hlo Hhi].
  set (f := Qfloor q) in *.
  destruct (q - inject_Z f ?= 1 # 2)%Q eqn:Hc.
  - apply Qeq_alt in Hc.
    destruct (Z.even f); rewrite ?inject_Z_plus;
      change (inject_Z 1) with 1%Q; split; lra.
  - apply Qlt_alt in Hc. split; lra.
  - apply Qgt_alt in Hc. rewrite inject_Z_plus.
    change (inject_Z 1) with 1%Q. split; lra.
Qed.

Lemma round_half_even_Z z : round_half_even (inject_Z z) = z.
Proof.
  unfold round_half_even. rewrite Qfloor_Z.
  assert ((inject_Z z - inject_Z z ?= 1 # 2)%Q = Lt) as ->; [|done].
  apply (proj1 (Qlt_alt _ _)). lra.
Qed.

Lemma round_half_even_nonneg q : (0 <= q)%Q → 0 ≤ round_half_even q.
Proof.
  intros Hq. destruct (round_half_even_nearest q) as [Hlo _].
  assert (-1 < inject_Z (round_half_even q))%Q as H by lra.
  change (-1)%Q with (inject_Z (-1)) in H. rewrite <- Zlt_Qlt in H. lia.
Qed.

Lemma int_Z z : int_ (inject_Z z) = z.
Proof. unfold int_. rewrite Qfloor_Z, Qceiling_Z. by case_match. Qed.

Lemma int_nonneg q : (0 <= q)%Q → int_ q = Qfloor q.
Proof. intros Hq. unfold int_. apply Qle_bool_iff in Hq. by rewrite Hq. Qed.

(** Truncation toward zero: the floor of a non-negative number, the ceiling
    of a negative one. *)
Lemma int_negative q : (q < 0)%Q → int_ q = Qceiling q.
Proof.
  intros Hq. unfold int_. destruct (Qle_bool 0 q) eqn:H; [|done].
  apply Qle_bool_iff in H. lra.
Qed.

(** * The grid synthesizer *)

Lemma Qmin_cases x y : Qmin x y = x ∨ Qmin x y = y.
Proof. unfold Qmin, GenericMinMax.gmin. destruct (x ?= y)%Q; auto. Qed.

Lemma Qmax_cases x y : Qmax x y = x ∨ Qmax x y = y.
Proof. unfold Qmax, GenericMinMax.gmax. destruct (x ?= y)%Q; auto. Qed.

Lemma column_min_spec x col : is_min (column_min x col) (x :: col).
Proof.
  unfold is_min, column_min. revert x.
  induction col as [|y col IH]; intros x; simpl.
  { split; [by left|]. repeat constructor. apply Qle_refl. }
  destruct (IH (Qmin x y)) as [Hex Hall]. revert Hex Hall.
  generalize (fold_left Qmin col (Qmin x y)). intros m Hex Hall. split.
  - apply Exists_cons in Hex as [Hex|Hex]; [|by right; right].
    destruct (Qmin_cases x y) as [Hm|Hm]; rewrite Hm in Hex;
      [by left|by right; left].
  - apply Forall_cons in Hall as [Hm Hall].
    repeat constructor; [..|done].
    + eapply Qle_trans; [exact Hm|]. apply Q.le_min_l.
    + eapply Qle_trans; [exact Hm|]. apply Q.le_min_r.
Qed.

Lemma column_max_spec x col : is_max (column_max x col) (x :: col).
Proof.
  unfold is_max, column_max. revert x.
  induction col as [|y col IH]; intros x; simpl.
  { split; [by left|]. repeat constructor. apply Qle_refl. }
  destruct (IH (Qmax x y)) as [Hex Hall]. revert Hex Hall.
  generalize (fold_left Qmax col (Qmax x y)). intros m Hex Hall. split.
  - apply Exists_cons in Hex as [Hex|Hex]; [|by right; right].
    destruct (Qmax_cases x y) as [Hm|Hm]; rewrite Hm in Hex;
      [by left|by right; left].
  - apply Forall_cons in Hall as [Hm Hall].
    repeat constructor; [..|done].
    + eapply Qle_trans; [|exact Hm]. apply Q.le_max_l.
    + eapply Qle_trans; [|exact Hm]. apply Q.le_max_r.
Qed.

Lemma is_min_unique m m' col : is_min m col → is_min m' col → (m == m')%Q.
Proof.
  intros [Hex Hall] [Hex' Hall'].
  apply Exists_exists in Hex as (y & Hy & Hmy).
  apply Exists_exists in Hex' as (y' & Hy' & Hmy').
  rewrite Forall_forall in Hall, Hall'.
  apply Qle_antisym.
  - rewrite Hmy'. by apply Hall.
  - rewrite Hmy. by apply Hall'.
Qed.

Lemma is_max_unique m m' col : is_max m col → is_max m' col → (m == m')%Q.
Proof.
  intros [Hex Hall] [Hex' Hall'].
  apply Exists_exists in Hex as (y & Hy & Hmy).
  apply Exists_exists in Hex' as (y' & Hy' & Hmy').
  rewrite Forall_forall in Hall, Hall'.
  apply Qle_antisym.
  - rewrite Hmy. by apply Hall'.
  - rewrite Hmy'. by apply Hall.
Qed.

Lemma is_min_le_max m M col : is_min m col → is_max M col → (m <= M)%Q.
Proof.
  intros [Hex Hall] [_ Hall'].
  apply Exists_exists in Hex as (y & Hy & Hmy).
  rewrite Forall_forall in Hall'. rewrite Hmy. by apply Hall'.
Qed.

(** ** The two axes *)

Lemma to_int32_Z v : in_int32 v → to_int32 (inject_Z v) = Some v.
Proof.
  intros [Hlo Hhi]. unfold to_int32. rewrite int_Z.
  apply Z.leb_le in Hlo, Hhi. by rewrite Hlo, Hhi.
Qed.

Lemma to_int32_Some q v : to_int32 q = Some v → in_int32 v.
Proof.
  unfold to_int32. case_match eqn:H; [|done]. intros [= <-].
  apply andb_true_iff in H as [?%Z.leb_le ?%Z.leb_le]. done.
Qed.

Lemma axis_in_int32 start spacing count x :
  axis start spacing count = Some x → Forall in_int32 x.
Proof.
  unfold axis. intros H%mapM_Some_1.
  induction H as [|i v l k Hv _ IH]; constructor; [|done].
  by eapply to_int32_Some.
Qed.

Lemma axis_integer start sz count :
  (∀ i, 0 ≤ i < count → in_int32 (start + i * sz)) →
  axis start (inject_Z sz) count = Some ((λ i, start + i * sz) <$> seqZ 0 count).
Proof.
  intros Hrange. unfold axis. apply mapM_Some, Forall2_fmap_r.
  apply Forall_Forall2_diag, Forall_forall. intros i Hi%elem_of_seqZ.
  rewrite <- inject_Z_mult, <- inject_Z_plus.
  apply to_int32_Z, Hrange. lia.
Qed.

Lemma astype_int32_id v : in_int32 v → astype_int32 v = v.
Proof.
  unfold in_int32, astype_int32, int32_min, int32_max. intros Hv.
  rewrite Z.mod_small; lia.
Qed.

Lemma mesh_lattice x y :
  column_stack (ravel (meshgrid x y).1) (ravel (meshgrid x y).2)
  = concat ((λ v, (λ u, (u, v)) <$> x) <$> y).
Proof.
  unfold column_stack, ravel, meshgrid. cbn [fst snd].
  induction y as [|v y IH]; [done|].
  cbn [length replicate fmap list_fmap concat].
  rewrite zip_with_app by (by rewrite length_replicate).
  f_equal; [by rewrite zip_with_replicate_r_eq|exact IH].
Qed.

(** The final check of the script compares an [int32] array with its own
    [int32] copy, so it passes whatever the array holds. *)
Lemma integer_check_passes x y :
  Forall in_int32 x → Forall in_int32 y →
  forallb (λ c : point, (c.1 =? astype_int32 c.1) && (c.2 =? astype_int32 c.2))
          (column_stack (ravel (meshgrid x y).1) (ravel (meshgrid x y).2)) = true.
Proof.
  intros Hx Hy. rewrite mesh_lattice. apply forallb_forall. intros c Hc.
  apply in_concat in Hc as (row & Hrow%list_elem_of_In & Hc%list_elem_of_In).
  apply list_elem_of_fmap in Hrow as (v & -> & Hv).
  apply list_elem_of_fmap in Hc as (u & -> & Hu).
  rewrite Forall_forall in Hx, Hy. simpl.
  rewrite !astype_int32_id by auto. by rewrite !Z.eqb_refl.
Qed.

Lemma bounding_box_nonempty xmin xmax ymin ymax :
  ¬ bounding_box [] xmin xmax ymin ymax.
Proof. intros [[H%Exists_nil _] _]. done. Qed.

(** The script on a non-empty array and non-zero spacings, with the
    bounding box it computes replaced by the bounding box itself. *)
Lemma regularize_coordinates_eq coords rs cs xmin xmax ymin ymax :
  bounding_box coords xmin xmax ymin ymax →
  ¬ (cs == 0)%Q → ¬ (rs == 0)%Q →
  regularize_coordinates coords rs cs =
    match axis (int_ xmin) cs (round_half_even ((xmax - xmin) / cs) + 1),
          axis (int_ ymin) rs (round_half_even ((ymax - ymin) / rs) + 1) with
    | Some x, Some y => Grid (concat ((λ v, (λ u, (u, v)) <$> x) <$> y))
    | _, _ => Raises OutOfInt32
    end.
Proof.
  intros Hbox Hcs Hrs. destruct coords as [|p rest].
  { by apply bounding_box_nonempty in Hbox. }
  destruct Hbox as (Hxmin & Hxmax & Hymin & Hymax).
  unfold regularize_coordinates. cbv zeta.
  pose proof (is_min_unique _ _ _ (column_min_spec p.1 rest.*1) Hxmin) as E1.
  pose proof (is_max_unique _ _ _ (column_max_spec p.1 rest.*1) Hxmax) as E2.
  pose proof (is_min_unique _ _ _ (column_min_spec p.2 rest.*2) Hymin) as E3.
  pose proof (is_max_unique _ _ _ (column_max_spec p.2 rest.*2) Hymax) as E4.
  rewrite (int_comp _ _ E1), (int_comp _ _ E3).
  assert (round_half_even
            ((column_max p.1 rest.*1 - column_min p.1 rest.*1) / cs)
          = round_half_even ((xmax - xmin) / cs)) as ->
    by (by rewrite E1, E2).
  assert (round_half_even
            ((column_max p.2 rest.*2 - column_min p.2 rest.*2) / rs)
          = round_half_even ((ymax - ymin) / rs)) as ->
    by (by rewrite E3, E4).
  rewrite <- Qeq_bool_iff in Hcs, Hrs.
  apply not_true_is_false in Hcs, Hrs. rewrite Hcs, Hrs. simpl.
  destruct (axis (int_ xmin) _ _) as [x|] eqn:Hx; [|done].
  destruct (axis (int_ ymin) _ _) as [y|] eqn:Hy; [|done].
  pose proof (integer_check_passes x y (axis_in_int32 _ _ _ _ Hx)
                (axis_in_int32 _ _ _ _ Hy)) as Hcheck.
  pose proof (mesh_lattice x y) as Hmesh.
  unfold meshgrid in *. simpl in *. by rewrite Hcheck, Hmesh.
Qed.

Lemma lattice_eq ox oy rs cs rows cols :
  concat ((λ v, (λ u, (u, v)) <$> ((λ i, ox + i * cs) <$> seqZ 0 cols))
            <$> ((λ i, oy + i * rs) <$> seqZ 0 rows))
  = lattice ox oy rs cs rows cols.
Proof.
  unfold lattice. f_equal. rewrite <- list_fmap_compose.
  apply list_fmap_ext. intros _ r _. simpl.
  by rewrite <- list_fmap_compose.
Qed.

Lemma lattice_elem ox oy rs cs rows cols p :
  p ∈ lattice ox oy rs cs rows cols ↔
  ∃ r c, 0 ≤ r < rows ∧ 0 ≤ c < cols ∧ p = (ox + c * cs, oy + r * rs).
Proof.
  unfold lattice. rewrite list_elem_of_In, in_concat. split.
  - intros (row & Hrow%list_elem_of_In & Hp%list_elem_of_In).
    apply list_elem_of_fmap in Hrow as (r & -> & Hr%elem_of_seqZ).
    apply list_elem_of_fmap in Hp as (c & -> & Hc%elem_of_seqZ).
    exists r, c. split_and!; [lia..|done].
  - intros (r & c & Hr & Hc & ->).
    exists ((λ c, (ox + c * cs, oy + r * rs)) <$> seqZ 0 cols).
    rewrite <- !list_elem_of_In. split.
    + apply list_elem_of_fmap. exists r. split; [done|]. apply elem_of_seqZ. lia.
    + apply list_elem_of_fmap. exists c. split; [done|]. apply elem_of_seqZ. lia.
Qed.

(** A lattice that reaches from [lo] to [hi] with step [sz] fits the
    [int32] array as soon as its two ends do. *)
Lemma axis_lattice start sz count :
  0 < sz → 1 ≤ count →
  in_int32 start → in_int32 (start + (count - 1) * sz) →
  axis start (inject_Z sz) count = Some ((λ i, start + i * sz) <$> seqZ 0 count).
Proof.
  intros Hsz Hcount [Hlo _] [_ Hhi]. apply axis_integer.
  intros i Hi. unfold in_int32.
  assert (0 ≤ i * sz) by (apply Z.mul_nonneg_nonneg; lia).
  assert (i * sz ≤ (count - 1) * sz) by (apply Z.mul_le_mono_nonneg_r; lia).
  lia.
Qed.

Lemma extent_nonneg m M col sz :
  is_min m col → is_max M col → 0 < sz →
  1 ≤ round_half_even ((M - m) / inject_Z sz) + 1.
Proof.
  intros Hm HM Hsz. pose proof (is_min_le_max _ _ _ Hm HM) as Hle.
  assert (0 ≤ round_half_even ((M - m) / inject_Z sz)); [|lia].
  apply round_half_even_nonneg. apply Qle_shift_div_l.
  - change 0%Q with (inject_Z 0). by rewrite <- Zlt_Qlt.
  - lra.
Qed.

Lemma inject_Z_nonzero sz : 0 < sz → ¬ (inject_Z sz == 0)%Q.
Proof.
  intros Hsz H. change 0%Q with (inject_Z 0) in H.
  rewrite inject_Z_injective in H. lia.
Qed.

Lemma regularize_coordinates_integer coords (rs cs : Z) xmin xmax ymin ymax :
  bounding_box coords xmin xmax ymin ymax → 0 < rs → 0 < cs →
  let cols := round_half_even ((xmax - xmin) / inject_Z cs) + 1 in
  let rows := round_half_even ((ymax - ymin) / inject_Z rs) + 1 in
  let ox := int_ xmin in
  let oy := int_ ymin in
  in_int32 ox → in_int32 (ox + (cols - 1) * cs) →
  in_int32 oy → in_int32 (oy + (rows - 1) * rs) →
  regularize_coordinates coords (inject_Z rs) (inject_Z cs)
  = Grid (lattice ox oy rs cs rows cols) ∧ 1 ≤ cols ∧ 1 ≤ rows.
Proof.
  intros Hbox Hrs Hcs cols rows ox oy Hox Hox' Hoy Hoy'.
  assert (1 ≤ cols) as Hcols.
  { destruct Hbox as (? & ? & _). by eapply extent_nonneg. }
  assert (1 ≤ rows) as Hrows.
  { destruct Hbox as (_ & _ & ? & ?). by eapply extent_nonneg. }
  split; [|done].
  rewrite (regularize_coordinates_eq _ _ _ _ _ _ _ Hbox)
    by (by apply inject_Z_nonzero).
  fold cols rows ox oy.
  rewrite !axis_lattice by done. by rewrite lattice_eq.
Qed.

Lemma lattice_length ox oy rs cs rows cols :
  length (lattice ox oy rs cs rows cols) = (Z.to_nat rows * Z.to_nat cols)%nat.
Proof.
  unfold lattice. rewrite <- (length_seqZ 0 rows).
  induction (seqZ 0 rows) as [|r l IH]; [done|].
  cbn [fmap list_fmap concat length]. rewrite length_app, IH.
  by rewrite length_fmap, length_seqZ.
Qed.

(** In exact arithmetic: for a non-empty reference set and positive
    integer spacings whose lattice fits the [int32] array, the script
    returns the [rows] × [cols] lattice with
    [cols = round((xmax − xmin) / cs) + 1], [rows = round((ymax − ymin) / rs) + 1],
    node [(r, c)] at [(ox + c·cs, oy + r·rs)], rows following one another,
    anchored at the bounding-box minimum truncated toward zero: its floor
    when the minimum is not negative, its ceiling when it is. *)
Lemma regularize_coordinates_lattice_exact
    (coords : list (Q * Q)) (rs cs : Z) (xmin xmax ymin ymax : Q) :
  bounding_box coords xmin xmax ymin ymax → 0 < rs → 0 < cs →
  let cols := round_half_even ((xmax - xmin) / inject_Z cs) + 1 in
  let rows := round_half_even ((ymax - ymin) / inject_Z rs) + 1 in
  let ox := int_ xmin in
  let oy := int_ ymin in
  in_int32 ox → in_int32 (ox + (cols - 1) * cs) →
  in_int32 oy → in_int32 (oy + (rows - 1) * rs) →
  regularize_coordinates coords (inject_Z rs) (inject_Z cs)
  = Grid (lattice ox oy rs cs rows cols)
  ∧ Z.of_nat (length (lattice ox oy rs cs rows cols)) = rows * cols
  ∧ ox = (if Qle_bool 0 xmin then Qfloor xmin else Qceiling xmin)
  ∧ oy = (if Qle_bool 0 ymin then Qfloor ymin else Qceiling ymin).
Proof.
  intros Hbox Hrs Hcs cols rows ox oy Hox Hox' Hoy Hoy'.
  destruct (regularize_coordinates_integer coords rs cs xmin xmax ymin ymax)
    as (Hgrid & Hcols & Hrows); [done..|].
  fold cols rows ox oy in Hgrid, Hcols, Hrows.
  split; [done|]. split; [|done].
  rewrite lattice_length. lia.
Qed.

(** With a negative, fractional minimum the anchor of the script is not the
    floor: the reference set spans x from -3/2 to 17/2, the script anchors
    the lattice at x = -1, the specification at x = -2. *)
Lemma anchor_is_not_floor :
  F_receivers_regularize_float64.regularize_coordinates
    [(-3 # 2, 0); (17 # 2, 0)]%Q 10 10
  = Grid [(-1, 0); (9, 0)]
  ∧ Spec.synthesize [(-3 # 2, 0); (17 # 2, 0)]%Q 10 10
    = Grid [(-2, 0); (8, 0)].
Proof. split; vm_compute; reflexivity. Qed.

(** C9.  The final integer check of the script can never fail: the lattice
    is cast to [int32] when it is built, so the check compares the array
    with itself.  With the spacing 5/2 the lattice of the specification
    holds the coordinate 5/2 and must be rejected; the script returns a
    grid in which that coordinate has silently become 2. *)
Theorem integer_check_never_fails :
  (∀ coords rs cs,
     match regularize_coordinates coords rs cs with
     | Raises NonIntegerCoordinate => False
     | _ => True
     end)
  ∧ regularize_coordinates [(0, 0); (5, 5)]%Q (5 # 2) (5 # 2)
    = Grid [(0,0); (2,0); (5,0); (0,2); (2,2); (5,2); (0,5); (2,5); (5,5)]
  ∧ Spec.synthesize [(0, 0); (5, 5)]%Q (5 # 2) (5 # 2)
    = Raises NonIntegerCoordinate.
Proof.
  split; [|split; vm_compute; reflexivity].
  intros [|p rest] rs cs; [done|]. unfold regularize_coordinates. cbv zeta.
  destruct (Qeq_bool cs 0 || Qeq_bool rs 0); [done|].
  destruct (axis _ cs _) as [x|] eqn:Hx; [|done].
  destruct (axis _ rs _) as [y|] eqn:Hy; [|done].
  pose proof (integer_check_passes x y (axis_in_int32 _ _ _ _ Hx)
                (axis_in_int32 _ _ _ _ Hy)) as Hcheck.
  unfold meshgrid in *. simpl in *. by rewrite Hcheck.
Qed.

(** ** Coverage of the reference bounding box *)

Lemma lattice_Exists (P : point → Prop) ox oy rs cs rows cols :
  Exists P (lattice ox oy rs cs rows cols) ↔
  ∃ r c, 0 ≤ r < rows ∧ 0 ≤ c < cols ∧ P (ox + c * cs, oy + r * rs).
Proof.
  rewrite Exists_exists. split.
  - intros (p & (r & c & ? & ? & ->)%lattice_elem & HP). eauto.
  - intros (r & c & ? & ? & HP). eexists. split; [|exact HP].
    apply lattice_elem. eauto.
Qed.

Section one_axis.
  Context (o sz n : Z) (lo hi : Q).
  Hypothesis Hsz : 0 < sz.

  (** Some position of the axis lies at or below [lo]: the first one does. *)
Lemma axis_reaches_low :
  (∃ i, 0 ≤ i < n ∧ (inject_Z (o + i * sz) <= lo)%Q) ↔
  0 < n ∧ (inject_Z o <= lo)%Q.
Proof.
  split.
  - intros (i & Hi & Hle). split; [lia|].
    eapply Qle_trans; [|exact Hle]. rewrite <- Zle_Qle.
    assert (0 ≤ i * sz) by (apply Z.mul_nonneg_nonneg; lia). lia.
  - intros [Hn Hle]. exists 0. split; [lia|]. by rewrite Z.add_0_r.
Qed.

  (** Some position of the axis lies at or above [hi]: the last one does. *)
Lemma axis_reaches_high :
  (∃ i, 0 ≤ i < n ∧ (hi <= inject_Z (o + i * sz))%Q) ↔
  0 < n ∧ (hi <= inject_Z (o + (n - 1) * sz))%Q.
Proof.
  split.
  - intros (i & Hi & Hle). split; [lia|].
    eapply Qle_trans; [exact Hle|]. rewrite <- Zle_Qle.
    assert (i * sz ≤ (n - 1) * sz) by (apply Z.mul_le_mono_nonneg_r; lia). lia.
  - intros [Hn Hle]. exists (n - 1). split; [lia|done].
Qed.
End one_axis.

Lemma covers_lattice ox oy rs cs rows cols xmin xmax ymin ymax :
  0 < rs → 0 < cs →
  covers (lattice ox oy rs cs rows cols) xmin xmax ymin ymax ↔
  0 < rows ∧ 0 < cols ∧
  (inject_Z ox <= xmin)%Q ∧ (xmax <= inject_Z (ox + (cols - 1) * cs))%Q ∧
  (inject_Z oy <= ymin)%Q ∧ (ymax <= inject_Z (oy + (rows - 1) * rs))%Q.
Proof.
  intros Hrs Hcs. unfold covers. rewrite !lattice_Exists. simpl.
  pose proof (axis_reaches_low ox cs cols xmin Hcs) as Hxl.
  pose proof (axis_reaches_high ox cs cols xmax Hcs) as Hxh.
  pose proof (axis_reaches_low oy rs rows ymin Hrs) as Hyl.
  pose proof (axis_reaches_high oy rs rows ymax Hrs) as Hyh.
  split.
  - intros ((r1 & c1 & Hr1 & Hc1 & H1) & (r2 & c2 & Hr2 & Hc2 & H2)
            & (r3 & c3 & Hr3 & Hc3 & H3) & (r4 & c4 & Hr4 & Hc4 & H4)).
    destruct (proj1 Hxl) as [? ?]; [by eauto|].
    destruct (proj1 Hxh) as [? ?]; [by eauto|].
    destruct (proj1 Hyl) as [? ?]; [by eauto|].
    destruct (proj1 Hyh) as [? ?]; [by eauto|].
    done.
  - intros (Hrows & Hcols & H1 & H2 & H3 & H4).
    destruct (proj2 Hxl) as (c1 & ? & ?); [done|].
    destruct (proj2 Hxh) as (c2 & ? & ?); [done|].
    destruct (proj2 Hyl) as (r3 & ? & ?); [done|].
    destruct (proj2 Hyh) as (r4 & ? & ?); [done|].
    split_and!.
    + exists 0, c1. split_and!; try lia; done.
    + exists 0, c2. split_and!; try lia; done.
    + exists r3, 0. split_and!; try lia; done.
    + exists r4, 0. split_and!; try lia; done.
Qed.

(** Rounding the extent to the nearest count of steps errs by at most half
    a step either way. *)
Lemma rounded_extent e sz :
  0 < sz →
  let n := round_half_even (e / inject_Z sz) in
  (e - inject_Z sz * (1 # 2) <= inject_Z (n * sz))%Q
  ∧ (inject_Z (n * sz) <= e + inject_Z sz * (1 # 2))%Q.
Proof.
  intros Hsz n. rewrite inject_Z_mult.
  assert (0 < inject_Z sz)%Q as Hs
    by (change 0%Q with (inject_Z 0); by rewrite <- Zlt_Qlt).
  assert (e / inject_Z sz * inject_Z sz == e)%Q as He
    by (field; lra).
  destruct (round_half_even_nearest (e / inject_Z sz)) as [Hlo Hhi].
  fold n in Hlo, Hhi. revert Hs He Hlo Hhi.
  generalize (e / inject_Z sz)%Q. intros t.
  generalize (inject_Z n), (inject_Z sz). intros N s Hs He Hlo Hhi.
  apply (Qmult_le_compat_r _ _ s) in Hlo, Hhi; [|lra..].
  assert ((t - (1 # 2)) * s == e - s * (1 # 2))%Q as E1 by (rewrite <- He; ring).
  assert ((t + (1 # 2)) * s == e + s * (1 # 2))%Q as E2 by (rewrite <- He; ring).
  rewrite E1 in Hlo. rewrite E2 in Hhi. by split.
Qed.

Lemma covers_fewer_columns ox oy rs cs rows n e xmin xmax ymin ymax :
  0 < rs → 0 < cs →
  (inject_Z ox <= xmin)%Q → (xmax - xmin == e)%Q →
  n = round_half_even (e / inject_Z cs) →
  ¬ covers (lattice ox oy rs cs rows n) xmin xmax ymin ymax.
Proof.
  intros Hrs Hcs Hox He -> (_ & Hcols & _ & Hhi & _)%covers_lattice; [|done..].
  destruct (rounded_extent e cs Hcs) as [_ Hround]. simpl in Hround.
  revert Hhi Hround. generalize (round_half_even (e / inject_Z cs)).
  intros n Hhi Hround.
  assert (0 < inject_Z cs)%Q as Hs
    by (change 0%Q with (inject_Z 0); by rewrite <- Zlt_Qlt).
  replace (ox + (n - 1) * cs) with (ox + n * cs + - cs) in Hhi by lia.
  rewrite !inject_Z_plus, inject_Z_opp, inject_Z_mult in Hhi.
  rewrite inject_Z_mult in Hround.
  revert Hhi Hround. generalize (inject_Z n * inject_Z cs)%Q. intros; lra.
Qed.

Lemma covers_fewer_rows ox oy rs cs n cols e xmin xmax ymin ymax :
  0 < rs → 0 < cs →
  (inject_Z oy <= ymin)%Q → (ymax - ymin == e)%Q →
  n = round_half_even (e / inject_Z rs) →
  ¬ covers (lattice ox oy rs cs n cols) xmin xmax ymin ymax.
Proof.
  intros Hrs Hcs Hoy He -> (Hrows & _ & _ & _ & _ & Hhi)%covers_lattice; [|done..].
  destruct (rounded_extent e rs Hrs) as [_ Hround]. simpl in Hround.
  revert Hhi Hround. generalize (round_half_even (e / inject_Z rs)).
  intros n Hhi Hround.
  assert (0 < inject_Z rs)%Q as Hs
    by (change 0%Q with (inject_Z 0); by rewrite <- Zlt_Qlt).
  replace (oy + (n - 1) * rs) with (oy + n * rs + - rs) in Hhi by lia.
  rewrite !inject_Z_plus, inject_Z_opp, inject_Z_mult in Hhi.
  rewrite inject_Z_mult in Hround.
  revert Hhi Hround. generalize (inject_Z n * inject_Z rs)%Q. intros; lra.
Qed.

Lemma exact_extent (k sz : Z) (lo hi : Q) :
  0 < sz → (hi - lo == inject_Z (k * sz))%Q →
  round_half_even ((hi - lo) / inject_Z sz) = k.
Proof.
  intros Hsz He. rewrite <- (round_half_even_Z k).
  apply round_half_even_comp. rewrite He, inject_Z_mult.
  apply Qdiv_mult_l. by apply inject_Z_nonzero.
Qed.

(** In exact arithmetic.  Rounding the extent to the nearest number of
    steps can leave the last column (row) short of the reference maximum by
    up to half a step, so the grid need not contain the reference bounding
    box.  When the anchor does not exceed the minimum, the grid contains the
    box exactly when its last column and last row reach the maxima, which
    they do whenever the minima are integers and the extents are whole
    multiples of the spacings; and the grid without its last column, or
    without its last row, never contains it. *)
Lemma regularize_coordinates_fit_exact
    (coords : list (Q * Q)) (rs cs : Z) (xmin xmax ymin ymax : Q) :
  bounding_box coords xmin xmax ymin ymax → 0 < rs → 0 < cs →
  let cols := round_half_even ((xmax - xmin) / inject_Z cs) + 1 in
  let rows := round_half_even ((ymax - ymin) / inject_Z rs) + 1 in
  let ox := int_ xmin in
  let oy := int_ ymin in
  in_int32 ox → in_int32 (ox + (cols - 1) * cs) →
  in_int32 oy → in_int32 (oy + (rows - 1) * rs) →
  (inject_Z ox <= xmin)%Q → (inject_Z oy <= ymin)%Q →
  regularize_coordinates coords (inject_Z rs) (inject_Z cs)
  = Grid (lattice ox oy rs cs rows cols)
  ∧ (covers (lattice ox oy rs cs rows cols) xmin xmax ymin ymax ↔
       (xmax <= inject_Z (ox + (cols - 1) * cs))%Q ∧
       (ymax <= inject_Z (oy + (rows - 1) * rs))%Q)
  ∧ ((xmin == inject_Z ox)%Q ∧ (ymin == inject_Z oy)%Q ∧
     (∃ kx, xmax - xmin == inject_Z (kx * cs))%Q ∧
     (∃ ky, ymax - ymin == inject_Z (ky * rs))%Q →
     covers (lattice ox oy rs cs rows cols) xmin xmax ymin ymax)
  ∧ ¬ covers (lattice ox oy rs cs rows (cols - 1)) xmin xmax ymin ymax
  ∧ ¬ covers (lattice ox oy rs cs (rows - 1) cols) xmin xmax ymin ymax.
Proof.
  intros Hbox Hrs Hcs cols rows ox oy Hox Hox' Hoy Hoy' Hxlo Hylo.
  destruct (regularize_coordinates_integer coords rs cs xmin xmax ymin ymax)
    as (Hgrid & Hcols & Hrows); [done..|].
  fold cols rows ox oy in Hgrid, Hcols, Hrows.
  assert (covers (lattice ox oy rs cs rows cols) xmin xmax ymin ymax ↔
            (xmax <= inject_Z (ox + (cols - 1) * cs))%Q ∧
            (ymax <= inject_Z (oy + (rows - 1) * rs))%Q) as Hiff.
  { rewrite covers_lattice by done. split; [tauto|].
    intros [? ?]. split_and!; [lia|lia|done..]. }
  split; [done|]. split; [done|]. split; [|split].
  - intros (Hx & Hy & (kx & Hkx) & (ky & Hky)). apply Hiff.
    unfold cols, rows.
    rewrite (exact_extent kx cs xmin xmax Hcs Hkx).
    rewrite (exact_extent ky rs ymin ymax Hrs Hky).
    replace (kx + 1 - 1) with kx by lia. replace (ky + 1 - 1) with ky by lia.
    rewrite !inject_Z_plus, <- Hx, <- Hy, <- Hkx, <- Hky. split; lra.
  - eapply (covers_fewer_columns _ _ _ _ _ _ (xmax - xmin)); [done..| |].
    + reflexivity.
    + unfold cols. lia.
  - eapply (covers_fewer_rows _ _ _ _ _ _ (ymax - ymin)); [done..| |].
    + reflexivity.
    + unfold rows. lia.
Qed.

(** The reference set spans x from 0 to 12; with spacing 10 the script
    builds two columns, at x = 0 and x = 10, and the point at x = 12 lies
    outside the grid. *)
Lemma rounded_lattice_falls_short :
  bounding_box [(0, 0); (12, 0)]%Q 0 12 0 0
  ∧ F_receivers_regularize_float64.regularize_coordinates
      [(0, 0); (12, 0)]%Q 10 10 = Grid [(0, 0); (10, 0)]
  ∧ ¬ covers [(0, 0); (10, 0)] 0 12 0 0.
Proof.
  split; [unfold bounding_box, is_min, is_max; compute_done|].
  split; [vm_compute; reflexivity|compute_done].
Qed.

(** * The offset-align matcher *)

(** ** Distinct rows *)

#[local] Instance row_le_total : Total row_le.
Proof. intros [x1 y1] [x2 y2]. unfold row_le. simpl. lia. Qed.

#[local] Instance row_le_trans : Transitive row_le.
Proof. intros [x1 y1] [x2 y2] [x3 y3]. unfold row_le. simpl. lia. Qed.

#[local] Instance row_le_antisymm : AntiSymm (=) row_le.
Proof.
  intros [x1 y1] [x2 y2]. unfold row_le. simpl. intros ??. f_equal; lia.
Qed.

#[local] Instance row_lt_antisymm : AntiSymm (=) row_lt.
Proof. intros p q [? _] [? _]. by apply (anti_symm row_le). Qed.

Lemma row_lt_le_trans p q r : row_lt p q → row_le q r → row_lt p r.
Proof.
  destruct p as [x1 y1], q as [x2 y2], r as [x3 y3].
  unfold row_lt, row_le. simpl. intros [? Hne] ?. split; [lia|].
  intros [= -> ->]. apply Hne. f_equal; lia.
Qed.

Lemma drop_repeats_cons p q rest :
  drop_repeats (p :: q :: rest) =
    if decide (p = q) then drop_repeats (q :: rest)
    else p :: drop_repeats (q :: rest).
Proof. done. Qed.

Lemma drop_repeats_elem rows x : x ∈ drop_repeats rows ↔ x ∈ rows.
Proof.
  induction rows as [|p [|q rest] IH]; [done|done|].
  rewrite drop_repeats_cons. case_decide as Hpq.
  - subst q. rewrite IH, !elem_of_cons. tauto.
  - rewrite (elem_of_cons (drop_repeats _)), IH, !elem_of_cons. tauto.
Qed.

Lemma drop_repeats_sorted rows :
  StronglySorted row_le rows → StronglySorted row_lt (drop_repeats rows).
Proof.
  induction rows as [|p [|q rest] IH]; intros Hs.
  - constructor.
  - repeat constructor.
  - rewrite drop_repeats_cons.
    apply StronglySorted_cons in Hs as [Hp Hs]. specialize (IH Hs).
    case_decide as Hpq; [done|]. constructor; [done|].
    apply Forall_forall. intros x Hx. rewrite drop_repeats_elem in Hx.
    apply Forall_cons in Hp as [Hpq' Hp].
    assert (row_lt p q) as Hlt by done.
    apply elem_of_cons in Hx as [->|Hx]; [done|].
    apply StronglySorted_cons in Hs as [Hq _].
    rewrite Forall_forall in Hq. eapply row_lt_le_trans; eauto.
Qed.

Lemma unique_rows_elem rows x : x ∈ unique_rows rows ↔ x ∈ rows.
Proof.
  unfold unique_rows. by rewrite drop_repeats_elem, merge_sort_Permutation.
Qed.

Lemma unique_rows_sorted rows : StronglySorted row_lt (unique_rows rows).
Proof.
  apply drop_repeats_sorted, StronglySorted_merge_sort; apply _.
Qed.

Lemma row_lt_sorted_NoDup l : StronglySorted row_lt l → NoDup l.
Proof.
  induction 1 as [|p l _ IH Hp]; constructor; [|done].
  intros Hin. rewrite Forall_forall in Hp. by destruct (Hp p Hin) as [_ ?].
Qed.

(** A strictly increasing list of rows is determined by its elements. *)
Lemma row_lt_sorted_unique l1 l2 :
  StronglySorted row_lt l1 → StronglySorted row_lt l2 →
  (∀ x, x ∈ l1 ↔ x ∈ l2) → l1 = l2.
Proof.
  intros H1 H2 Hel. apply (StronglySorted_unique row_lt); [done..|].
  apply NoDup_Permutation; auto using row_lt_sorted_NoDup.
Qed.

(** Moving every row by the same offset commutes with [np.unique]. *)
Lemma unique_rows_shift o rows :
  unique_rows (shift o <$> rows) = shift o <$> unique_rows rows.
Proof.
  apply row_lt_sorted_unique.
  - apply unique_rows_sorted.
  - eapply StronglySorted_fmap; [|apply unique_rows_sorted].
    intros [x1 y1] [x2 y2]. unfold row_lt, row_le, shift. simpl.
    intros [? Hne]. split; [lia|]. intros [= ? ?]. apply Hne. f_equal; lia.
  - intros x. rewrite unique_rows_elem, !list_elem_of_fmap.
    by setoid_rewrite unique_rows_elem.
Qed.

Lemma unique_rows_nonempty rows : rows ≠ [] → unique_rows rows ≠ [].
Proof.
  destruct rows as [|p rows]; [done|]. intros _ Hnil.
  assert (p ∈ unique_rows (p :: rows)) as Hp by (apply unique_rows_elem; by left).
  rewrite Hnil in Hp. by apply elem_of_nil in Hp.
Qed.

(** ** Nearest node *)


(** ** The dictionary *)

Lemma fold_insert_lookup (f : point → point) (ks : list point)
    (m : gmap point point) (q : point) :
  fold_left (λ m kv, <[kv.1 := kv.2]> m) ((λ p, (p, f p)) <$> ks) m !! q
  = if decide (q ∈ ks) then Some (f q) else m !! q.
Proof.
  revert m. induction ks as [|k ks IH]; intros m.
  { case_decide as Hq; [by apply elem_of_nil in Hq|done]. }
  cbn [fmap list_fmap fold_left]. rewrite IH.
  destruct (decide (q ∈ ks)) as [Hin|Hnin].
  - case_decide as Hq; [done|]. exfalso. apply Hq. by right.
  - cbn [fst snd]. rewrite lookup_insert.
    case_decide as Hk; case_decide as Hq; subst; try done.
    + exfalso. apply Hq. by left.
    + apply elem_of_cons in Hq as [->|?]; done.
Qed.

Lemma dict_of_lookup (f : point → point) (ks : list point) (q : point) :
  dict_of (zip ks (f <$> ks)) !! q = if decide (q ∈ ks) then Some (f q) else None.
Proof.
  unfold dict_of.
  assert (zip ks (f <$> ks) = (λ p, (p, f p)) <$> ks) as ->.
  { induction ks; simpl; by f_equal. }
  by rewrite fold_insert_lookup, lookup_empty.
Qed.

(** ** Distances as real numbers *)

Lemma Q2R_inject_Z z : Q2R (inject_Z z) = IZR z.
Proof. unfold Q2R, inject_Z. simpl. Lra.lra. Qed.

Lemma sqdist_nonneg p q : 0 ≤ sqdist p q.
Proof.
  unfold sqdist.
  pose proof (Z.square_nonneg (p.1 - q.1)).
  pose proof (Z.square_nonneg (p.2 - q.2)). lia.
Qed.

(** The comparison on squares is the comparison of the Euclidean distance
    with the threshold. *)
Lemma within_distance_sqrt p q md :
  within_distance p q md ↔ (sqrt (IZR (sqdist p q)) <= Q2R md)%R.
Proof.
  unfold within_distance.
  pose proof (IZR_le _ _ (sqdist_nonneg p q)) as Hd. simpl in Hd.
  split.
  - intros [H0%Qle_Rle Hle%Qle_Rle].
    rewrite Q2R_mult, Q2R_inject_Z in Hle.
    change (Q2R 0) with (0 * / 1)%R in H0. rewrite Rmult_0_l in H0.
    rewrite <- (sqrt_square (Q2R md)) by done.
    by apply sqrt_le_1_alt.
  - intros Hle.
    pose proof (sqrt_pos (IZR (sqdist p q))) as Hpos.
    assert (0 <= Q2R md)%R as H0 by Lra.lra.
    split.
    + apply Rle_Qle. change (Q2R 0) with (0 * / 1)%R. rewrite Rmult_0_l. done.
    + apply Rle_Qle. rewrite Q2R_mult, Q2R_inject_Z.
      rewrite <- (sqrt_def (IZR (sqdist p q))) by done.
      by apply Rmult_le_compat.
Qed.


(** ** The run as a whole *)



Example offset_align_run :
  (λ out, (offset out, shifted_coords out, distances out, written out))
    <$> process_segy_file grid3x3 [(103,98); (112,98); (104,107); (103,98)]
  = Some ((-96, -91), [(7,7); (8,16); (16,7)], [18; 20; 25],
          [(10,10); (20,10); (10,20); (10,10)]).
Proof. vm_compute. reflexivity. Qed.

(** Nothing is removed from the index: two receivers may share a node. *)
Example two_receivers_share_a_node :
  (λ out, map_to_list (receiver_to_grid out)) <$> process_segy_file grid3x3 [(0,0); (1,0)]
  = Some [((11,10), (10,10)); ((10,10), (10,10))].
Proof. vm_compute. reflexivity. Qed.

(** * Further properties of the sequential matcher *)

(** The sorted array depends on the shots only as a collection. *)
Lemma sort_shots_Permutation shots shots' :
  shots ≡ₚ shots' →
  sort_shots_from_right_bottom_to_left_top shots
  = sort_shots_from_right_bottom_to_left_top shots'.
Proof.
  intros Hp. apply (StronglySorted_unique reading_order).
  - apply sort_shots_sorted.
  - apply sort_shots_sorted.
  - by rewrite !sort_shots_perm.
Qed.

(** X1.  The result of [match_shots_to_grid] does not depend on the order
    in which the shots are handed in: two arrays holding the same shots,
    each as often, give the same dictionary and the same list of matched
    nodes. *)
Theorem match_shots_to_grid_order_irrelevant
    (shots shots' grid_points : list point) (max_distance : Q) :
  shots ≡ₚ shots' →
  match_shots_to_grid shots grid_points max_distance
  = match_shots_to_grid shots' grid_points max_distance.
Proof.
  intros Hp. unfold match_shots_to_grid.
  by rewrite (sort_shots_Permutation shots shots' Hp).
Qed.

Lemma match_shots_to_grid_order_irrelevant_witness :
  match_shots_to_grid [(1,1); (9,9); (21,21)] grid3x3 5
  = match_shots_to_grid [(9,9); (21,21); (1,1)] grid3x3 5.
Proof.
  apply match_shots_to_grid_order_irrelevant.
  apply (Permutation_cons_append [(9,9); (21,21)] (1,1)).
Defined.

Lemma match_step_no_candidate grid_points md st shot :
  grid_points = [] ∨ (md < 0)%Q →
  match_step grid_points md st shot = st.
Proof.
  intros [->|Hmd]; unfold match_step.
  - by destruct (NumPy.invert (matched_grid st)).
  - assert (∀ d2, dist_le d2 md = false) as Hle.
    { intros d2. unfold dist_le.
      destruct (Qle_bool 0 md) eqn:H0; [|done].
      apply Qle_bool_iff in H0. lra. }
    by rewrite Hle, andb_false_r.
Qed.

(** X2.  With an empty grid, or with a negative threshold, no shot is
    matched: the dictionary and the list of matched nodes are both empty. *)
Theorem match_shots_to_grid_nothing_to_match
    (shot_points grid_points : list point) (max_distance : Q) :
  grid_points = [] ∨ (max_distance < 0)%Q →
  match_shots_to_grid shot_points grid_points max_distance = (∅, []).
Proof.
  intros Hcond. unfold match_shots_to_grid, run.
  generalize (sort_shots_from_right_bottom_to_left_top shot_points).
  intros l.
  assert (fold_left (match_step grid_points max_distance) l (init grid_points)
          = init grid_points) as ->; [|done].
  induction l as [|shot l IH]; [done|]. simpl.
  by rewrite match_step_no_candidate.
Qed.

Lemma match_shots_to_grid_nothing_to_match_witness :
  match_shots_to_grid scenario_shots grid3x3 (-1) = (∅, []).
Proof.
  apply match_shots_to_grid_nothing_to_match. right. reflexivity.
Defined.

(** ** Bookkeeping *)

Lemma run_snoc grid_points md pre shot :
  run grid_points md (pre ++ [shot])
  = match_step grid_points md (run grid_points md pre) shot.
Proof. unfold run. by rewrite fold_left_app. Qed.

Lemma ledger_run grid_points md pre :
  ledger grid_points pre (run grid_points md pre).
Proof.
  induction pre as [|shot pre IH] using rev_ind.
  { split; simpl.
    - apply length_replicate.
    - exists []. split; [constructor|]. split; [constructor|].
      intros i. rewrite lookup_replicate. split; [by intros [? _]|].
      by intros ?%elem_of_nil.
    - intros _ g Hg. by apply elem_of_nil in Hg.
    - intros _. by rewrite map_size_empty.
    - lia. }
  rewrite run_snoc. set (st := run grid_points md pre) in *.
  destruct IH as [Hlen (idxs & Hnd & Hms & Hidx) Hown Hsize Hturns].
  destruct (match_step_cases grid_points md st shot Hlen)
    as [[-> _]|(gi & node & (Hfree & Hnode & _) & _ & ->)].
  { split; [done|by exists idxs|..].
    - intros [Hpre _]%NoDup_app g Hg. destruct (Hown Hpre g Hg) as (s & ? & ?).
      exists s. split; [|done]. apply elem_of_app. by left.
    - intros [Hpre _]%NoDup_app. by apply Hsize.
    - rewrite length_app. simpl. lia. }
  assert (shot_to_grid st !! shot = None ∨ ¬ NoDup (pre ++ [shot])) as Hfresh.
  { destruct (shot_to_grid st !! shot) eqn:Hs; [|by left]. right.
    intros (_ & Hdisj & _)%NoDup_app. eapply Hdisj; [|by left].
    apply (run_lookup_elem_of grid_points md). fold st. rewrite Hs. eauto. }
  split; simpl.
  - by rewrite length_insert.
  - exists (idxs ++ [gi]). split; [|split].
    + apply NoDup_app. split; [done|]. split; [|apply NoDup_singleton].
      intros i Hi ->%list_elem_of_singleton. apply Hidx in Hi.
      unfold free in Hfree. congruence.
    + apply Forall2_app; [done|]. by repeat constructor.
    + intros i. rewrite elem_of_app, list_elem_of_singleton.
      destruct (decide (i = gi)) as [->|Hne].
      * rewrite list_lookup_insert_eq by (by eapply lookup_lt_Some). tauto.
      * rewrite list_lookup_insert_ne by done. rewrite Hidx. tauto.
  - intros Hnd' g [Hg| ->%list_elem_of_singleton]%elem_of_app.
    + pose proof Hnd' as (Hpre & Hdisj & _)%NoDup_app.
      destruct (Hown Hpre g Hg) as (s & Hs & Hsg). exists s.
      split; [apply elem_of_app; by left|].
      rewrite lookup_insert_ne; [done|]. intros <-. eapply Hdisj; [done|by left].
    + exists shot. split; [apply elem_of_app; right; by left|].
      by rewrite lookup_insert_eq.
  - intros Hnd'. destruct Hfresh as [Hnone|]; [|done].
    apply NoDup_app in Hnd' as (Hpre & _).
    rewrite map_size_insert_None by done. rewrite length_app, Hsize by done.
    simpl. lia.
  - rewrite !length_app. simpl. lia.
Qed.

Lemma consumed_in_matched grid_points pre st i g :
  ledger grid_points pre st →
  matched_grid st !! i = Some true → grid_points !! i = Some g →
  g ∈ matched_shots st.
Proof.
  intros [_ (idxs & _ & Hms & Hidx) _ _ _] Hi Hg.
  apply Hidx, list_elem_of_lookup_1 in Hi as (k & Hk).
  destruct (Forall2_lookup_l _ _ _ _ _ Hms Hk) as (g' & Hg' & Hgi).
  simplify_eq. by eapply list_elem_of_lookup_2.
Qed.

Lemma positions_NoDup (grid_points : list point) (idxs : list nat) (ms : list point) :
  NoDup grid_points → NoDup idxs →
  Forall2 (λ i g, grid_points !! i = Some g) idxs ms → NoDup ms.
Proof.
  intros Hgrid Hnd Hms. induction Hms as [|i g idxs ms Hig Hms IH].
  { constructor. }
  apply NoDup_cons in Hnd as [Hi Hnd]. constructor; [|by apply IH].
  intros (k & Hk)%list_elem_of_lookup_1.
  destruct (Forall2_lookup_r _ _ _ _ _ Hms Hk) as (i' & Hi' & Hgi').
  assert (i = i') as -> by exact (NoDup_lookup grid_points i i' g Hgrid Hig Hgi').
  apply Hi. by eapply list_elem_of_lookup_2.
Qed.

(** X3.  The list of matched nodes is never longer than the array of shots
    nor than the grid; for pairwise distinct shots the dictionary has
    exactly one key per matched node, and on a grid without repeated nodes
    no node is listed twice. *)
Theorem match_shots_to_grid_counts
    (shot_points grid_points : list point) (max_distance : Q) :
  let result := match_shots_to_grid shot_points grid_points max_distance in
  (length result.2 ≤ length shot_points)%nat
  ∧ (length result.2 ≤ length grid_points)%nat
  ∧ (NoDup shot_points → size result.1 = length result.2)
  ∧ (NoDup grid_points → NoDup result.2).
Proof.
  simpl.
  destruct (ledger_run grid_points max_distance
              (sort_shots_from_right_bottom_to_left_top shot_points))
    as [Hlen (idxs & Hnd & Hms & Hidx) _ Hsize Hturns].
  split; [|split; [|split]].
  - rewrite <- (Permutation_length (sort_shots_perm shot_points)). done.
  - rewrite <- (Forall2_length _ _ _ Hms), <- (length_seq (length grid_points) 0).
    apply submseteq_length, NoDup_submseteq; [done|].
    intros i Hi%Hidx. apply elem_of_seq. apply lookup_lt_Some in Hi. lia.
  - intros Hshots. by apply Hsize, sort_shots_NoDup.
  - intros Hgrid. by eapply positions_NoDup.
Qed.

Lemma match_shots_to_grid_counts_witness :
  size (match_shots_to_grid scenario_shots grid3x3 5).1
  = length (match_shots_to_grid scenario_shots grid3x3 5).2
  ∧ NoDup (match_shots_to_grid scenario_shots grid3x3 5).2.
Proof.
  destruct (match_shots_to_grid_counts scenario_shots grid3x3 5)
    as (_ & _ & Hsize & Hnd).
  split; [apply Hsize|apply Hnd]; compute_done.
Defined.

(** ** What an unmatched shot has lost *)

(** The greedy matching is maximal.  If a shot of a duplicate-free input is
    left unmatched although a grid node lies within [max_distance] of it,
    then that node is the entry of another shot, one that precedes it in
    the processing order. *)
Lemma unmatched_node_taken
    (shot_points grid_points : list point) (max_distance : Q) (s g : point) :
  NoDup shot_points → s ∈ shot_points →
  (match_shots_to_grid shot_points grid_points max_distance).1 !! s = None →
  g ∈ grid_points → within_distance s g max_distance →
  ∃ s', (match_shots_to_grid shot_points grid_points max_distance).1 !! s' = Some g
        ∧ s' ≠ s ∧ reading_order s' s.
Proof.
  intros Hnd Hs Hnone Hg Hwithin. simpl in *.
  pose proof (sort_shots_sorted shot_points) as Hsorted.
  apply sort_shots_NoDup in Hnd.
  rewrite <- (sort_shots_perm shot_points) in Hs.
  apply list_elem_of_split in Hs as (pre & post & Hsplit).
  rewrite Hsplit in Hnd, Hsorted, Hnone |- *.
  set (st := run grid_points max_distance pre).
  assert (match_step grid_points max_distance st s = st) as Hturn
    by exact (proj1 (absent_iff_turn_unchanged
                       grid_points max_distance pre s post Hnd) Hnone).
  apply match_step_unchanged_iff in Hturn; [|apply invariant_run].
  pose proof (ledger_run grid_points max_distance pre) as Hled. fold st in Hled.
  apply list_elem_of_lookup_1 in Hg as (i & Hi).
  assert (matched_grid st !! i = Some true) as Hconsumed.
  { destruct (lookup_lt_is_Some_2 (matched_grid st) i) as [[] Hb]; [|done|].
    { rewrite (led_length _ _ _ Hled). by eapply lookup_lt_Some. }
    exfalso. destruct Hturn as [Hfree|(gi & node & (_ & _ & Hmin) & Hfar)].
    - by apply (Hfree i).
    - destruct (Hmin i g Hb Hi) as [Hle _].
      apply farther_not_within in Hfar. apply Hfar.
      destruct Hwithin as [H0 Hd]. split; [done|].
      eapply Qle_trans; [|exact Hd]. by rewrite <- Zle_Qle. }
  pose proof (consumed_in_matched _ _ _ _ _ Hled Hconsumed Hi) as Hin.
  pose proof Hnd as (Hpre & Hdisj & _)%NoDup_app.
  destruct (led_owner _ _ _ Hled Hpre g Hin) as (s' & Hs' & Hsg).
  exists s'. split; [|split].
  - unfold run. rewrite fold_left_app. fold (run grid_points max_distance pre).
    fold st. rewrite fold_lookup_not_in; [done|]. by apply Hdisj.
  - intros ->. eapply Hdisj; [done|by left].
  - eapply StronglySorted_app_1_elem_of; [done..|by left].
Qed.

(** ** Shots that already lie on the grid *)

Lemma sqdist_diag p : sqdist p p = 0.
Proof. unfold sqdist. lia. Qed.

Lemma sqdist_zero p q : sqdist p q ≤ 0 → p = q.
Proof.
  destruct p as [x1 y1], q as [x2 y2]. unfold sqdist. simpl. intros H.
  pose proof (Z.square_nonneg (x1 - x2)).
  pose proof (Z.square_nonneg (y1 - y2)).
  f_equal; nia.
Qed.

Lemma within_distance_diag p md : (0 <= md)%Q → within_distance p p md.
Proof.
  intros Hmd. split; [done|]. rewrite sqdist_diag.
  change (inject_Z 0) with 0%Q. by apply Qmult_le_0_compat.
Qed.

Lemma on_grid_run grid_points md pre :
  NoDup grid_points → (0 <= md)%Q →
  NoDup pre → (∀ s, s ∈ pre → s ∈ grid_points) →
  let st := run grid_points md pre in
  matched_shots st = pre ∧ ∀ s, s ∈ pre → shot_to_grid st !! s = Some s.
Proof.
  intros Hgrid Hmd. induction pre as [|shot pre IH] using rev_ind;
    intros Hnd Hon.
  { split; [done|]. by intros s ?%elem_of_nil. }
  apply NoDup_app in Hnd as (Hpre & Hdisj & _).
  destruct IH as [Hms Hdict]; [done|by intros; apply Hon, elem_of_app; left|].
  cbv zeta. rewrite run_snoc. set (st := run grid_points md pre) in *.
  pose proof (ledger_run grid_points md pre) as Hled. fold st in Hled.
  destruct (list_elem_of_lookup_1 grid_points shot) as (i & Hi).
  { apply Hon, elem_of_app. right. by left. }
  assert (free (matched_grid st) i) as Hfree.
  { destruct (lookup_lt_is_Some_2 (matched_grid st) i) as [[] Hb]; [| |done].
    { rewrite (led_length _ _ _ Hled). by eapply lookup_lt_Some. }
    exfalso. pose proof (consumed_in_matched _ _ _ _ _ Hled Hb Hi) as Hin.
    rewrite Hms in Hin. eapply Hdisj; [done|by left]. }
  destruct (match_step_cases grid_points md st shot (led_length _ _ _ Hled))
    as [[_ [Hnone|(gi & node & (_ & _ & Hmin) & Hfar)]]
       |(gi & node & (_ & _ & Hmin) & _ & ->)].
  - by destruct (Hnone i).
  - exfalso. destruct (Hmin i shot Hfree Hi) as [Hle _].
    rewrite sqdist_diag in Hle. apply sqdist_zero in Hle as <-.
    apply farther_not_within in Hfar. by apply Hfar, within_distance_diag.
  - destruct (Hmin i shot Hfree Hi) as [Hle _].
    rewrite sqdist_diag in Hle. apply sqdist_zero in Hle as <-.
    simpl. split; [by rewrite Hms|].
    intros s [Hs| ->%list_elem_of_singleton]%elem_of_app.
    + rewrite lookup_insert_ne; [by apply Hdict|].
      intros <-. eapply Hdisj; [done|by left].
    + by rewrite lookup_insert_eq.
Qed.

(** X5.  Shots that already lie on the grid stay where they are: when the
    shots are pairwise distinct nodes of a grid without repeated nodes and
    the threshold is not negative, every shot is matched to itself and the
    list of matched nodes is the sorted array of the shots. *)
Theorem match_shots_on_grid_fixed
    (shot_points grid_points : list point) (max_distance : Q) :
  NoDup grid_points → NoDup shot_points →
  (∀ s, s ∈ shot_points → s ∈ grid_points) → (0 <= max_distance)%Q →
  (∀ s, s ∈ shot_points →
        (match_shots_to_grid shot_points grid_points max_distance).1 !! s = Some s)
  ∧ (match_shots_to_grid shot_points grid_points max_distance).2
    = sort_shots_from_right_bottom_to_left_top shot_points.
Proof.
  intros Hgrid Hnd Hon Hmd. simpl.
  destruct (on_grid_run grid_points max_distance
              (sort_shots_from_right_bottom_to_left_top shot_points))
    as [Hms Hdict]; [done|done|by apply sort_shots_NoDup| |].
  { intros s Hs. apply Hon. by rewrite <- (sort_shots_perm shot_points). }
  split; [|done]. intros s Hs. apply Hdict.
  by rewrite (sort_shots_perm shot_points).
Qed.

Lemma match_shots_on_grid_fixed_witness :
  (∀ s, s ∈ [(0,10); (20,0)] →
        (match_shots_to_grid [(0,10); (20,0)] grid3x3 0).1 !! s = Some s)
  ∧ (match_shots_to_grid [(0,10); (20,0)] grid3x3 0).2
    = sort_shots_from_right_bottom_to_left_top [(0,10); (20,0)].
Proof.
  apply match_shots_on_grid_fixed; [compute_done|compute_done| |done].
  intros s Hs. repeat (apply elem_of_cons in Hs as [->|Hs]); [compute_done..|].
  by apply elem_of_nil in Hs.
Defined.

(** * The rewriting of the file after the sequential matching *)

Lemma StronglySorted_lt_seq j n : StronglySorted lt (seq j n).
Proof.
  revert j. induction n as [|n IH]; intros j; simpl; constructor; [done|].
  apply Forall_forall. intros k Hk%elem_of_seq. lia.
Qed.

Lemma StronglySorted_filter_list {A} (R : relation A) (P : A → Prop)
    `{∀ x, Decision (P x)} (l : list A) :
  StronglySorted R l → StronglySorted R (filter P l).
Proof.
  induction 1 as [|x l Hl IH Hx]; [constructor|].
  rewrite filter_cons. case_decide; [|done]. constructor; [done|].
  rewrite Forall_forall in Hx |- *. intros y [_ Hy]%list_elem_of_filter. auto.
Qed.

(** The dictionary of a duplicate-free grid sends distinct shots to
    distinct nodes. *)
Lemma assignment_injective shot_points grid_points md s1 s2 g :
  NoDup grid_points →
  (match_shots_to_grid shot_points grid_points md).1 !! s1 = Some g →
  (match_shots_to_grid shot_points grid_points md).1 !! s2 = Some g →
  s1 = s2.
Proof.
  simpl. intros Hnd.
  destruct (invariant_run grid_points md
              (sort_shots_from_right_bottom_to_left_top shot_points))
    as [_ _ _ (idx & Hdict & _ & Hinj)].
  intros (i1 & Hi1 & Hg1)%Hdict (i2 & Hi2 & Hg2)%Hdict.
  assert (i1 = i2) as -> by exact (NoDup_lookup grid_points i1 i2 g Hnd Hg1 Hg2).
  by eapply Hinj.
Qed.

Lemma assignment_within shot_points grid_points md s g :
  (match_shots_to_grid shot_points grid_points md).1 !! s = Some g →
  g ∈ grid_points ∧ within_distance s g md.
Proof.
  simpl. intros Hs.
  destruct (invariant_run grid_points md
              (sort_shots_from_right_bottom_to_left_top shot_points))
    as [_ Hwithin _ _].
  by destruct (Hwithin s g Hs) as (? & ? & _).
Qed.

Section file.
Context (grid_points : list point) (traces : list trace) (max_distance : Q).

Let unique_shots := unique_rows (source <$> traces).
Let shot_to_grid :=
  (match_shots_to_grid unique_shots grid_points max_distance).1.
Let matched_shots :=
  (match_shots_to_grid unique_shots grid_points max_distance).2.
Let kept (i : nat) : Prop :=
  is_Some (tr ← traces !! i; shot_to_grid !! source tr).
Let keep_indices := filter kept (seq 0 (length traces)).

Lemma keep_indices_elem i :
  i ∈ keep_indices ↔
  ∃ tr node, traces !! i = Some tr ∧ shot_to_grid !! source tr = Some node.
Proof.
  unfold keep_indices. rewrite list_elem_of_filter, elem_of_seq. unfold kept.
  split.
  - intros [[node Hnode] _].
    destruct (traces !! i) as [tr|] eqn:Htr; [|done]. by exists tr, node.
  - intros (tr & node & Htr & Hnode). split.
    + rewrite Htr. simpl. by exists node.
    + apply lookup_lt_Some in Htr. lia.
Qed.

Lemma process_segy_file_cases :
  (matched_shots = [] ∧
   G_shot_match_file.process_segy_file grid_points traces max_distance = IndexError)
  ∨ (matched_shots ≠ [] ∧ ∃ new_segy,
       G_shot_match_file.process_segy_file grid_points traces max_distance
       = Written new_segy
       ∧ Forall2 (λ i out, ∃ tr node,
                    traces !! i = Some tr
                    ∧ shot_to_grid !! source tr = Some node
                    ∧ out = (i, Trace node (group tr)))
                 keep_indices new_segy).
Proof.
  unfold G_shot_match_file.process_segy_file.
  fold unique_shots.
  rewrite (surjective_pairing
             (match_shots_to_grid unique_shots grid_points max_distance)).
  fold shot_to_grid. fold matched_shots.
  destruct matched_shots as [|g ms] eqn:Hms; [by left|]. right. split; [done|].
  fold kept. fold keep_indices.
  destruct (mapM _ keep_indices) as [new_segy|] eqn:Hmap.
  - exists new_segy. split; [done|].
    apply mapM_Some_1 in Hmap. eapply Forall2_impl; [exact Hmap|].
    intros i out Hout. simpl in Hout.
    destruct (traces !! i) as [tr|]; [|done]. simpl in Hout.
    destruct (shot_to_grid !! source tr) as [node|] eqn:Hnode; [|done].
    simplify_eq/=. by exists tr, node.
  - exfalso. apply eq_None_not_Some in Hmap. apply Hmap, mapM_is_Some_2.
    apply Forall_forall. intros i (tr & node & Htr & Hnode)%keep_indices_elem.
    simpl. rewrite Htr. simpl. rewrite Hnode. simpl. eauto.
Qed.
End file.

Lemma written_indices (P : nat → nat * trace → Prop) ks (l : list (nat * trace)) :
  (∀ i out, P i out → out.1 = i) → Forall2 P ks l → fst <$> l = ks.
Proof.
  intros HP Hl. induction Hl as [|i out ks outs Hout _ IH]; [done|].
  by rewrite fmap_cons, IH, (HP i out Hout).
Qed.

(** X6.  The lookup [shot_to_grid[orig_shot]] made while the new file is
    written never fails: the run ends with the [IndexError] of the plot
    when no shot at all was matched, and writes the file otherwise. *)
Theorem trace_rewrite_never_misses_a_key
    (grid_points : list point) (traces : list trace) (max_distance : Q) :
  let unique_shots := unique_rows (source <$> traces) in
  let matched_shots :=
    (match_shots_to_grid unique_shots grid_points max_distance).2 in
  (matched_shots = [] →
   G_shot_match_file.process_segy_file grid_points traces max_distance
   = IndexError)
  ∧ (matched_shots ≠ [] →
     ∃ new_segy,
       G_shot_match_file.process_segy_file grid_points traces max_distance
       = Written new_segy).
Proof.
  cbv zeta.
  destruct (process_segy_file_cases grid_points traces max_distance)
    as [[Hms Hr]|(Hms & new_segy & Hr & _)].
  - split; [done|]. by intros [].
  - split; [done|]. intros _. by exists new_segy.
Qed.

Lemma trace_rewrite_never_misses_a_key_witness :
  ∃ new_segy,
    G_shot_match_file.process_segy_file grid3x3 three_traces 5
    = Written new_segy.
Proof.
  apply (proj2 (trace_rewrite_never_misses_a_key grid3x3 three_traces 5)).
  vm_compute. discriminate.
Defined.

Example three_traces_rewritten :
  G_shot_match_file.process_segy_file grid3x3 three_traces 5
  = Written [(0%nat, Trace (0,0) (50,50)); (2%nat, Trace (0,0) (70,50))].
Proof. vm_compute. reflexivity. Qed.

(** The written file holds, in their original order and each once, exactly
    the traces whose shot was matched.  Such a trace keeps its receiver
    position, and its shot position is replaced by the grid node the
    dictionary holds for it, which lies within [max_distance] of the
    original shot. *)
Lemma written_traces_exact
    (grid_points : list point) (traces : list trace) (max_distance : Q)
    (new_segy : list (nat * trace)) :
  G_shot_match_file.process_segy_file grid_points traces max_distance
  = Written new_segy →
  let shot_to_grid :=
    (match_shots_to_grid (unique_rows (source <$> traces))
       grid_points max_distance).1 in
  StronglySorted lt (fst <$> new_segy)
  ∧ (∀ i t, (i, t) ∈ new_segy →
       ∃ tr, traces !! i = Some tr
             ∧ group t = group tr
             ∧ shot_to_grid !! source tr = Some (source t)
             ∧ source t ∈ grid_points
             ∧ within_distance (source tr) (source t) max_distance)
  ∧ (∀ i tr, traces !! i = Some tr →
       is_Some (shot_to_grid !! source tr) → ∃ t, (i, t) ∈ new_segy).
Proof.
  intros Hr. cbv zeta.
  destruct (process_segy_file_cases grid_points traces max_distance)
    as [[_ Hr']|(_ & l & Hr' & Hl)]; rewrite Hr in Hr'; [done|].
  injection Hr' as <-.
  assert (fst <$> new_segy
          = filter (λ i, is_Some (tr ← traces !! i;
                      (match_shots_to_grid (unique_rows (source <$> traces))
                         grid_points max_distance).1 !! source tr))
              (seq 0 (length traces))) as Hfst.
  { eapply written_indices; [|exact Hl].
    by intros i out (tr & node & _ & _ & ->). }
  split; [|split].
  - rewrite Hfst. apply StronglySorted_filter_list, StronglySorted_lt_seq.
  - intros i t (k & Hk)%list_elem_of_lookup_1.
    destruct (Forall2_lookup_r _ _ _ _ _ Hl Hk)
      as (i' & _ & tr & node & Htr & Hnode & [= <- ->]).
    exists tr. simpl. split; [done|]. split; [done|]. split; [done|].
    by eapply assignment_within.
  - intros i tr Htr [node Hnode].
    assert (i ∈ filter (λ i, is_Some (tr ← traces !! i;
                      (match_shots_to_grid (unique_rows (source <$> traces))
                         grid_points max_distance).1 !! source tr))
              (seq 0 (length traces))) as Hi.
    { apply keep_indices_elem. eauto. }
    apply list_elem_of_lookup_1 in Hi as (k & Hk).
    destruct (Forall2_lookup_l _ _ _ _ _ Hl Hk) as (out & Hout & tr' & node' & _ & _ & ->).
    eexists. by eapply list_elem_of_lookup_2.
Qed.

(** X8.  On a grid without repeated nodes the rewriting never merges two
    shots and never splits one: two written traces carry the same new shot
    position exactly when their original traces carried the same shot
    position. *)
Theorem shot_gathers_preserved
    (grid_points : list point) (traces : list trace) (max_distance : Q)
    (new_segy : list (nat * trace)) (i j : nat) (ti tj tri trj : trace) :
  G_shot_match_file.process_segy_file grid_points traces max_distance
  = Written new_segy →
  NoDup grid_points →
  (i, ti) ∈ new_segy → (j, tj) ∈ new_segy →
  traces !! i = Some tri → traces !! j = Some trj →
  source ti = source tj ↔ source tri = source trj.
Proof.
  intros Hr Hnd Hi Hj Htri Htrj.
  destruct (process_segy_file_cases grid_points traces max_distance)
    as [[_ Hr']|(_ & l & Hr' & Hl)]; rewrite Hr in Hr'; [done|].
  injection Hr' as <-.
  apply list_elem_of_lookup_1 in Hi as (ki & Hki), Hj as (kj & Hkj).
  destruct (Forall2_lookup_r _ _ _ _ _ Hl Hki)
    as (? & _ & tr1 & n1 & Htr1 & Hn1 & [= <- ->]).
  destruct (Forall2_lookup_r _ _ _ _ _ Hl Hkj)
    as (? & _ & tr2 & n2 & Htr2 & Hn2 & [= <- ->]).
  simplify_eq. simpl. split.
  - intros <-. by eapply assignment_injective.
  - intros Heq. rewrite Heq in Hn1. congruence.
Qed.

Lemma shot_gathers_preserved_witness :
  source (Trace (0,0) (50,50)) = source (Trace (0,0) (70,50)) ↔
  source (Trace (1,1) (50,50)) = source (Trace (1,1) (70,50)).
Proof.
  apply (shot_gathers_preserved grid3x3 three_traces 5
           [(0%nat, Trace (0,0) (50,50)); (2%nat, Trace (0,0) (70,50))]
           0 2 _ _ _ _);
    first [by vm_compute | compute_done | reflexivity | set_solver].
Defined.

(** * Further properties of the offset-align matcher *)

Lemma sum_shift (o : Z) (col : list Z) :
  foldr Z.add 0 ((λ x, x + o) <$> col)
  = foldr Z.add 0 col + Z.of_nat (length col) * o.
Proof.
  induction col as [|x col IH]; [done|].
  cbn [fmap list_fmap foldr length]. rewrite IH. lia.
Qed.

Lemma mean_shift (o : Z) (col : list Z) :
  col ≠ [] →
  (mean ((λ x : Z, (x + o)%Z) <$> col) == mean col + inject_Z o)%Q.
Proof.
  intros Hne. unfold mean. rewrite sum_shift, length_fmap.
  rewrite inject_Z_plus, inject_Z_mult.
  assert (¬ inject_Z (Z.of_nat (length col)) == 0)%Q as Hn.
  { change 0%Q with (inject_Z 0). rewrite inject_Z_injective.
    destruct col; [done|]. simpl. lia. }
  field. exact Hn.
Qed.

Lemma centre_shift (o : Z * Z) (pts : list point) :
  pts ≠ [] →
  ((centre (shift o <$> pts)).1 == (centre pts).1 + inject_Z o.1)%Q
  ∧ ((centre (shift o <$> pts)).2 == (centre pts).2 + inject_Z o.2)%Q.
Proof.
  intros Hne. unfold centre. cbn [fst snd].
  assert (fst <$> (shift o <$> pts) = (λ x, x + o.1) <$> (fst <$> pts)) as ->
    by (by rewrite <- !list_fmap_compose).
  assert (snd <$> (shift o <$> pts) = (λ y, y + o.2) <$> (snd <$> pts)) as ->
    by (by rewrite <- !list_fmap_compose).
  split; apply mean_shift; by intros ?%fmap_nil_inv.
Qed.

(** ** Receivers that are a shifted copy of the grid *)




#[local] Instance shift_inj o : Inj (=) (=) (shift o).
Proof.
  intros [x1 y1] [x2 y2]. unfold shift. simpl. intros [= ? ?]. f_equal; lia.
Qed.




(** * Further properties of the grid synthesizer *)

Lemma lattice_row_NoDup (ox cs y cols : Z) :
  0 < cs → NoDup ((λ c, (ox + c * cs, y)) <$> seqZ 0 cols).
Proof.
  intros Hcs. apply NoDup_fmap_2; [|apply NoDup_seqZ].
  intros c1 c2 [= H]. nia.
Qed.

Lemma lattice_NoDup ox oy rs cs rows cols :
  0 < rs → 0 < cs → NoDup (lattice ox oy rs cs rows cols).
Proof.
  intros Hrs Hcs. unfold lattice.
  pose proof (NoDup_seqZ 0 rows) as Hrows.
  induction Hrows as [|r l Hr _ IH]; [constructor|].
  cbn [fmap list_fmap concat]. apply NoDup_app. split; [|split; [|done]].
  - by apply lattice_row_NoDup.
  - intros p (c & -> & _)%list_elem_of_fmap Hin.
    apply list_elem_of_In, in_concat in Hin
      as (row & Hrow%list_elem_of_In & Hp%list_elem_of_In).
    apply list_elem_of_fmap in Hrow as (r' & -> & Hr').
    apply list_elem_of_fmap in Hp as (c' & [= _ Hy] & _).
    assert (r = r') as -> by nia. done.
Qed.

(** X11.  For reference points with integer coordinates and positive
    integer spacings, the grid the synthesizer returns has pairwise distinct
    nodes, so that the sequential matcher run on it never gives one node to
    two shots. *)
Theorem synthesized_grid_has_distinct_nodes
    (orig_coords : list point) (rs cs xmin xmax ymin ymax : Z) :
  bounding_box (as_floats <$> orig_coords)
    (inject_Z xmin) (inject_Z xmax) (inject_Z ymin) (inject_Z ymax) →
  0 < rs → 0 < cs →
  let cols := round_half_even (inject_Z (xmax - xmin) / inject_Z cs) + 1 in
  let rows := round_half_even (inject_Z (ymax - ymin) / inject_Z rs) + 1 in
  in_int32 xmin → in_int32 (xmin + (cols - 1) * cs) →
  in_int32 ymin → in_int32 (ymin + (rows - 1) * rs) →
  ∃ grid,
    regularize_coordinates (as_floats <$> orig_coords) (inject_Z rs) (inject_Z cs)
    = Grid grid
    ∧ NoDup grid
    ∧ ∀ shot_points max_distance s1 s2 node,
        (match_shots_to_grid shot_points grid max_distance).1 !! s1 = Some node →
        (match_shots_to_grid shot_points grid max_distance).1 !! s2 = Some node →
        s1 = s2.
Proof.
  intros Hbox Hrs Hcs cols rows Hox Hox' Hoy Hoy'.
  assert (inject_Z xmax - inject_Z xmin == inject_Z (xmax - xmin))%Q as Ex
    by (unfold Z.sub; rewrite inject_Z_plus, inject_Z_opp; ring).
  assert (inject_Z ymax - inject_Z ymin == inject_Z (ymax - ymin))%Q as Ey
    by (unfold Z.sub; rewrite inject_Z_plus, inject_Z_opp; ring).
  assert (round_half_even ((inject_Z xmax - inject_Z xmin) / inject_Z cs) + 1
          = cols) as Hcols by (unfold cols; by rewrite Ex).
  assert (round_half_even ((inject_Z ymax - inject_Z ymin) / inject_Z rs) + 1
          = rows) as Hrows by (unfold rows; by rewrite Ey).
  destruct (regularize_coordinates_integer (as_floats <$> orig_coords) rs cs
              (inject_Z xmin) (inject_Z xmax) (inject_Z ymin) (inject_Z ymax))
    as (Hgrid & _); [done|done|done|rewrite ?int_Z, ?Hcols, ?Hrows; done..|].
  rewrite !int_Z, Hcols, Hrows in Hgrid.
  eexists. split; [exact Hgrid|].
  pose proof (lattice_NoDup xmin ymin rs cs rows cols Hrs Hcs).
  split; [done|]. intros shots md s1 s2 node.
  by apply assignment_injective.
Qed.

Lemma synthesized_grid_has_distinct_nodes_witness :
  ∃ grid,
    regularize_coordinates (as_floats <$> [(3,4); (27,4); (14,22)])
      (inject_Z 10) (inject_Z 10)
    = Grid grid
    ∧ NoDup grid
    ∧ ∀ shot_points max_distance s1 s2 node,
        (match_shots_to_grid shot_points grid max_distance).1 !! s1 = Some node →
        (match_shots_to_grid shot_points grid max_distance).1 !! s2 = Some node →
        s1 = s2.
Proof.
  apply (synthesized_grid_has_distinct_nodes
           [(3,4); (27,4); (14,22)] 10 10 3 27 4 22);
    first [lia | unfold bounding_box, is_min, is_max, in_int32; compute_done].
Defined.

(** ** How far a reference point is from the grid *)







(** ** Regularizing a grid that is regular already *)







(** * The [float64] arithmetic *)

Lemma pow2_pos e : (0 < 2 ^ e)%Q.
Proof. by apply Qpower_0_lt. Qed.

Lemma pow2_add a b : (2 ^ (a + b) == 2 ^ a * 2 ^ b)%Q.
Proof. by apply Qpower_plus. Qed.

Lemma pow2_sub a b : (2 ^ (a - b) == 2 ^ a / 2 ^ b)%Q.
Proof.
  unfold Z.sub. rewrite pow2_add, Qpower_opp. reflexivity.
Qed.

Lemma pow2_Z a : 0 ≤ a → (2 ^ a == inject_Z (2 ^ a))%Q.
Proof. intros Ha. by rewrite Zpower_Qpower. Qed.

Lemma pow2_lt a b : a < b → (2 ^ a < 2 ^ b)%Q.
Proof. intros. apply Qpower_lt_compat_l; [done|]. reflexivity. Qed.

Lemma pow2_le a b : a ≤ b → (2 ^ a <= 2 ^ b)%Q.
Proof. intros. apply Qpower_le_compat_l; [done|]. discriminate. Qed.

Lemma pow2_lt_inv a b : (2 ^ a < 2 ^ b)%Q → a < b.
Proof.
  intros H. destruct (Z_lt_le_dec a b) as [|Hle]; [done|].
  apply pow2_le in Hle. lra.
Qed.

Lemma pow2_succ a : (2 ^ (a + 1) == 2 * 2 ^ a)%Q.
Proof. rewrite pow2_add. change (2 ^ 1)%Q with 2%Q. ring. Qed.

Lemma ilog2_spec q :
  (0 < q)%Q → (2 ^ Float64.ilog2 q <= q)%Q ∧ (q < 2 ^ (Float64.ilog2 q + 1))%Q.
Proof.
  intros Hq. unfold Float64.ilog2.
  destruct q as [n d]. simpl Qnum. simpl Qden.
  assert (0 < n) as Hn by (unfold Qlt in Hq; simpl in Hq; lia).
  set (a := Z.log2 n). set (b := Z.log2 (Z.pos d)).
  destruct (Z.log2_spec n Hn) as [Ha1 Ha2].
  destruct (Z.log2_spec (Z.pos d) eq_refl) as [Hb1 Hb2].
  fold a in Ha1, Ha2. fold b in Hb1, Hb2.
  assert (0 ≤ a) as Ha0 by apply Z.log2_nonneg.
  assert (0 ≤ b) as Hb0 by apply Z.log2_nonneg.
  assert (inject_Z n == (n # d) * inject_Z (Z.pos d))%Q as Hnd.
  { unfold Qeq, Qmult, inject_Z. simpl. lia. }
  assert (0 < inject_Z (Z.pos d))%Q as Hd0 by (unfold Qlt; simpl; lia).
  (* n/d < 2^(a-b+1) *)
  assert ((n # d) < 2 ^ (a - b + 1))%Q as Hup.
  { replace (a - b + 1) with ((a + 1) - b) by lia.
    rewrite pow2_sub. apply Qlt_shift_div_l; [apply pow2_pos|].
    rewrite (pow2_Z (a + 1)) by lia.
    apply Qle_lt_trans with ((n # d) * inject_Z (Z.pos d))%Q.
    - apply Qmult_le_l; [done|]. rewrite (pow2_Z b) by lia.
      rewrite <- Zle_Qle. lia.
    - rewrite <- Hnd. rewrite <- Zlt_Qlt. replace (a + 1) with (Z.succ a) by lia. lia. }
  assert (2 ^ (a - b - 1) < (n # d))%Q as Hlo.
  { replace (a - b - 1) with (a - (b + 1)) by lia.
    rewrite pow2_sub. apply Qlt_shift_div_r; [apply pow2_pos|].
    rewrite (pow2_Z a) by lia.
    apply Qle_lt_trans with (inject_Z n).
    - rewrite <- Zle_Qle. lia.
    - rewrite Hnd. apply Qmult_lt_l; [done|]. rewrite (pow2_Z (b + 1)) by lia.
      rewrite <- Zlt_Qlt. replace (b + 1) with (Z.succ b) by lia. lia. }
  destruct (Qle_bool (2 ^ (a - b)) (n # d)) eqn:Ht.
  - apply Qle_bool_iff in Ht. split; done.
  - assert (¬ (2 ^ (a - b) <= n # d)%Q) as Hnt.
    { intros H. apply Qle_bool_iff in H. congruence. }
    apply Qnot_le_lt in Hnt.
    replace (a - b - 1 + 1) with (a - b) by lia. split; [|done].
    by apply Qlt_le_weak.
Qed.

Lemma ilog2_unique q e :
  (2 ^ e <= q)%Q → (q < 2 ^ (e + 1))%Q → Float64.ilog2 q = e.
Proof.
  intros H1 H2.
  assert (0 < q)%Q as Hq by (pose proof (pow2_pos e); lra).
  destruct (ilog2_spec q Hq) as [H3 H4].
  assert (2 ^ e < 2 ^ (Float64.ilog2 q + 1))%Q as A by lra.
  assert (2 ^ Float64.ilog2 q < 2 ^ (e + 1))%Q as B by lra.
  apply pow2_lt_inv in A, B. lia.
Qed.

Lemma ilog2_comp q q' : (0 < q)%Q → (q == q')%Q → Float64.ilog2 q = Float64.ilog2 q'.
Proof.
  intros Hq Heq. destruct (ilog2_spec q Hq) as [H1 H2]. symmetry.
  apply ilog2_unique; by rewrite <- Heq.
Qed.

Lemma Qabs_pos_lt q : ¬ (q == 0)%Q → (0 < Qabs q)%Q.
Proof.
  intros Hq. destruct (Qlt_le_dec 0 (Qabs q)) as [|Hle]; [done|].
  destruct Hq. apply Qabs_Qle_condition in Hle. lra.
Qed.

Lemma Qeq_bool_false q : ¬ (q == 0)%Q → Qeq_bool q 0 = false.
Proof. intros Hq. apply not_true_is_false. by rewrite Qeq_bool_iff. Qed.

#[local] Instance fl_comp : Proper (Qeq ==> Qeq) Float64.fl.
Proof.
  intros q q' Heq. unfold Float64.fl.
  destruct (Qeq_dec q 0) as [H0|H0].
  - assert (q' == 0)%Q as H0' by (by rewrite <- Heq).
    apply Qeq_bool_iff in H0, H0'. rewrite H0, H0'. reflexivity.
  - assert (¬ q' == 0)%Q as H0' by (by rewrite <- Heq).
    rewrite !Qeq_bool_false by done.
    rewrite <- (ilog2_comp (Qabs q) (Qabs q')); [|by apply Qabs_pos_lt|by rewrite Heq].
    cbv zeta. generalize (2 ^ (Float64.ilog2 (Qabs q) - 52))%Q. intros u.
    assert (round_half_even (q / u) = round_half_even (q' / u)) as ->; [|reflexivity].
    apply round_half_even_comp. by rewrite Heq.
Qed.

Lemma fl_0 : Float64.fl 0 = 0%Q.
Proof. reflexivity. Qed.

(** A number with a significand of at most 53 bits is a [float64] value. *)
Lemma fl_exact (m k : Z) (q : Q) :
  Z.abs m < 2 ^ 53 → (q == inject_Z m * 2 ^ k)%Q → (Float64.fl q == q)%Q.
Proof.
  intros Hm Hq. destruct (Qeq_dec q 0) as [H0|H0].
  { rewrite H0. reflexivity. }
  unfold Float64.fl. rewrite Qeq_bool_false by done. cbv zeta.
  set (e := Float64.ilog2 (Qabs q)).
  destruct (ilog2_spec (Qabs q) (Qabs_pos_lt q H0)) as [Hlo _]. fold e in Hlo.
  assert (Qabs q == inject_Z (Z.abs m) * 2 ^ k)%Q as Habs.
  { rewrite Hq, Qabs_Qmult.
    rewrite (Qabs_pos (2 ^ k)%Q); [reflexivity|].
    apply Qlt_le_weak, pow2_pos. }
  assert (e < 53 + k) as He.
  { apply pow2_lt_inv. apply Qle_lt_trans with (Qabs q); [done|].
    rewrite Habs, pow2_add. apply Qmult_lt_r; [apply pow2_pos|].
    rewrite (pow2_Z 53) by lia. by rewrite <- Zlt_Qlt. }
  set (j := k - (e - 52)).
  assert (q / 2 ^ (e - 52) == inject_Z (m * 2 ^ j))%Q as Hint.
  { rewrite inject_Z_mult, <- (pow2_Z j) by (unfold j; lia).
    unfold j. rewrite (pow2_sub k (e - 52)), Hq.
    pose proof (pow2_pos (e - 52)) as Hb. revert Hb.
    generalize (2 ^ (e - 52))%Q (2 ^ k)%Q. intros b a Hb. field. lra. }
  rewrite (round_half_even_comp _ _ Hint), round_half_even_Z, <- Hint.
  pose proof (pow2_pos (e - 52)) as Hb. revert Hb.
  generalize (2 ^ (e - 52))%Q. intros b Hb. field. lra.
Qed.

Lemma fl_Z (z : Z) : Z.abs z < 2 ^ 53 → (Float64.fl (inject_Z z) == inject_Z z)%Q.
Proof.
  intros Hz. apply (fl_exact z 0); [done|]. change (2 ^ 0)%Q with 1%Q. ring.
Qed.

(** The relative error of a rounding is at most 2^-53. *)
Lemma fl_error q : (Qabs (Float64.fl q - q) <= Qabs q * 2 ^ (-53))%Q.
Proof.
  destruct (Qeq_dec q 0) as [H0|H0].
  { rewrite H0, fl_0. pose proof (pow2_pos (-53)). 
    change (Qabs (0 - 0)) with 0%Q. change (Qabs 0) with 0%Q. lra. }
  unfold Float64.fl. rewrite Qeq_bool_false by done. cbv zeta.
  set (e := Float64.ilog2 (Qabs q)).
  destruct (ilog2_spec (Qabs q) (Qabs_pos_lt q H0)) as [Hlo _]. fold e in Hlo.
  pose proof (pow2_pos (e - 52)) as Hu.
  assert (2 ^ (e - 52) * (1 # 2) == 2 ^ e * 2 ^ (-53))%Q as Hu2.
  { replace (e - 52) with (e + -53 + 1) by lia.
    rewrite pow2_succ, pow2_add. ring. }
  revert Hu Hu2. generalize (2 ^ (e - 52))%Q. intros u Hu Hu2.
  destruct (round_half_even_nearest (q / u)) as [H1 H2].
  set (r := inject_Z (round_half_even (q / u))) in *.
  assert (q == q / u * u)%Q as Hq by (field; lra).
  revert H1 H2 Hq. generalize (q / u)%Q. generalize r. clear r.
  intros r x H1 H2 Hq.
  assert (Qabs (r * u - q) <= u * (1 # 2))%Q as Hhalf.
  { apply Qabs_Qle_condition. rewrite Hq.
    assert ((x - (1 # 2)) * u <= r * u)%Q by (apply Qmult_le_compat_r; lra).
    assert (r * u <= (x + (1 # 2)) * u)%Q by (apply Qmult_le_compat_r; lra).
    split; lra. }
  rewrite Hu2 in Hhalf. eapply Qle_trans; [exact Hhalf|].
  apply Qmult_le_compat_r; [done|]. apply Qlt_le_weak, pow2_pos.
Qed.

(** ** The square root *)

Lemma Qle_bool_false a b : (b < a)%Q → Qle_bool a b = false.
Proof.
  intros H. apply not_true_is_false. rewrite Qle_bool_iff. lra.
Qed.

Lemma Qle_bool_true a b : (a <= b)%Q → Qle_bool a b = true.
Proof. by rewrite Qle_bool_iff. Qed.

Lemma sqrt_nonpos q : (q <= 0)%Q → Float64.sqrt q = 0%Q.
Proof. intros H. unfold Float64.sqrt. by rewrite Qle_bool_true. Qed.

(** The result is [m · ulp] for the integer [m] nearest to the root of
    [q / ulp²]. *)
Lemma sqrt_spec q :
  (0 < q)%Q →
  let u := (2 ^ (Float64.ilog2 q / 2 - 52))%Q in
  ∃ m : Z, Float64.sqrt q = (inject_Z m * u)%Q ∧ 1 ≤ m
    ∧ ((inject_Z m - (1 # 2)) * (inject_Z m - (1 # 2)) * (u * u) <= q)%Q
    ∧ (q <= (inject_Z m + (1 # 2)) * (inject_Z m + (1 # 2)) * (u * u))%Q.
Proof.
  intros Hq u. unfold Float64.sqrt. rewrite Qle_bool_false by done. cbv zeta. fold u.
  destruct (ilog2_spec q Hq) as [Hlo _].
  assert (0 < u)%Q as Hu by apply pow2_pos.
  assert (u * u <= q)%Q as Huu.
  { eapply Qle_trans; [|exact Hlo]. unfold u. rewrite <- pow2_add.
    apply pow2_le. pose proof (Z.mul_div_le (Float64.ilog2 q) 2). lia. }
  set (n := (q / (u * u))%Q).
  assert (q == n * (u * u))%Q as Hqn by (unfold n; field; lra).
  assert (1 <= n)%Q as Hn1.
  { unfold n. apply Qle_shift_div_l; [nra|]. lra. }
  clearbody n u.
  destruct (floor_bounds n) as [Hf1 Hf2].
  assert (1 ≤ Qfloor n) as Hfl.
  { change 1 with (Qfloor 1). by apply Qfloor_resp_le. }
  destruct (Z.sqrt_spec (Qfloor n)) as [Hr1 Hr2]; [lia|].
  set (r := Z.sqrt (Qfloor n)) in *.
  assert (1 ≤ r) as Hr by (destruct (Z_lt_le_dec r 1); [nia|done]).
  assert (inject_Z (r * r) <= n)%Q as Hlow.
  { eapply Qle_trans; [|exact Hf1]. rewrite <- Zle_Qle. lia. }
  assert (n < inject_Z ((r + 1) * (r + 1)))%Q as Hhigh.
  { eapply Qlt_le_trans; [exact Hf2|].
    change 1%Q with (inject_Z 1). rewrite <- inject_Z_plus, <- Zle_Qle. lia. }
  rewrite inject_Z_mult in Hlow, Hhigh. rewrite inject_Z_plus in Hhigh.
  change (inject_Z 1) with 1%Q in Hhigh.
  assert (1 <= inject_Z r)%Q as HrQ
    by (change 1%Q with (inject_Z 1); by rewrite <- Zle_Qle).
  assert (0 < u * u)%Q as Huu0 by nra.
  assert (∀ m : Z,
            ((inject_Z m - (1 # 2)) * (inject_Z m - (1 # 2)) <= n)%Q →
            (n <= (inject_Z m + (1 # 2)) * (inject_Z m + (1 # 2)))%Q →
            ((inject_Z m - (1 # 2)) * (inject_Z m - (1 # 2)) * (u * u) <= q)%Q
            ∧ (q <= (inject_Z m + (1 # 2)) * (inject_Z m + (1 # 2)) * (u * u))%Q)
    as Hscale.
  { intros m H1 H2. rewrite Hqn. split; apply Qmult_le_compat_r; lra. }
  assert (inject_Z (r + 1) == inject_Z r + 1)%Q as Hr1Q
    by (rewrite inject_Z_plus; reflexivity).
  destruct (n ?= (inject_Z r + (1 # 2)) * (inject_Z r + (1 # 2)))%Q eqn:Hc.
  - apply Qeq_alt in Hc.
    assert (((inject_Z r - (1 # 2)) * (inject_Z r - (1 # 2)) <= n)%Q
            ∧ (n <= (inject_Z (r + 1) + (1 # 2)) * (inject_Z (r + 1) + (1 # 2)))%Q)
      as [Ha Hb] by (rewrite Hr1Q; split; nra).
    destruct (Z.even r).
    + exists r. split; [done|]. split; [done|]. apply Hscale; [done|]. lra.
    + exists (r + 1). split; [done|]. split; [lia|]. apply Hscale; [|done].
      rewrite Hr1Q. nra.
  - apply Qlt_alt in Hc. exists r. split; [done|]. split; [done|].
    apply Hscale; nra.
  - apply Qgt_alt in Hc. exists (r + 1). split; [done|]. split; [lia|].
    apply Hscale; rewrite Hr1Q; nra.
Qed.

(** The root of an integer below 2^51: the result [f] is a multiple of a
    spacing [u = 1 / U] of at most 2^-27 and lies within half a spacing of
    the root. *)
Lemma sqrt_Z_near (n : Z) :
  1 ≤ n < 2 ^ 51 →
  ∃ (U m : Z),
    2 ^ 27 ≤ U ∧ 1 ≤ m
    ∧ Float64.sqrt (inject_Z n) = (inject_Z m * 2 ^ (Float64.ilog2 (inject_Z n) / 2 - 52))%Q
    ∧ (2 ^ (Float64.ilog2 (inject_Z n) / 2 - 52) == 1 / inject_Z U)%Q
    ∧ (2 * m - 1) * (2 * m - 1) ≤ 4 * n * (U * U)
    ∧ 4 * n * (U * U) ≤ (2 * m + 1) * (2 * m + 1).
Proof.
  intros [Hn1 Hn2].
  assert (0 < inject_Z n)%Q as Hq
    by (change 0%Q with (inject_Z 0); rewrite <- Zlt_Qlt; lia).
  destruct (ilog2_spec _ Hq) as [Hlo Hhi].
  set (e' := Float64.ilog2 (inject_Z n)) in *.
  assert (0 ≤ e' < 51) as He'.
  { split.
    - assert (2 ^ 0 < 2 ^ (e' + 1))%Q as H; [|apply pow2_lt_inv in H; lia].
      eapply Qle_lt_trans; [|exact Hhi]. change (2 ^ 0)%Q with (inject_Z 1).
      rewrite <- Zle_Qle. lia.
    - apply pow2_lt_inv. eapply Qle_lt_trans; [exact Hlo|].
      rewrite (pow2_Z 51) by lia. by rewrite <- Zlt_Qlt. }
  assert (0 ≤ e' / 2 ≤ 25) as He.
  { split; [apply Z.div_pos; lia|]. apply Z.div_le_upper_bound; lia. }
  destruct (sqrt_spec _ Hq) as (m & Hf & Hm & H1 & H2). fold e' in Hf, H1, H2.
  set (e := e' / 2) in *. set (j := 52 - e).
  exists (2 ^ j), m.
  assert (2 ^ (e - 52) == 1 / inject_Z (2 ^ j))%Q as Hu.
  { rewrite <- (pow2_Z j) by (unfold j; lia).
    replace (e - 52) with (- j) by (unfold j; lia).
    rewrite Qpower_opp. field. pose proof (pow2_pos j). lra. }
  assert (2 ^ 27 ≤ 2 ^ j) as HU by (apply Z.pow_le_mono_r; unfold j; lia).
  split; [done|]. split; [done|]. split; [done|]. split; [done|].
  assert (0 < inject_Z (2 ^ j))%Q as HUQ
    by (change 0%Q with (inject_Z 0); rewrite <- Zlt_Qlt; lia).
  rewrite Hu in H1, H2. revert HUQ H1 H2 HU.
  generalize (2 ^ j). intros U HUQ H1 H2 HU.
  assert (inject_Z ((2 * m - 1) * (2 * m - 1)) <= inject_Z (4 * n * (U * U)))%Q as A.
  { rewrite !inject_Z_mult. unfold Z.sub.
    rewrite !inject_Z_plus, inject_Z_opp, inject_Z_mult.
    change (inject_Z 2) with 2%Q. change (inject_Z 4) with 4%Q.
    change (inject_Z 1) with 1%Q.
    assert ((inject_Z m - (1 # 2)) * (inject_Z m - (1 # 2))
            <= inject_Z n * (inject_Z U * inject_Z U))%Q as H1'.
    { apply Qmult_le_r with (1 / inject_Z U * (1 / inject_Z U))%Q.
      - apply Qmult_lt_0_compat; apply Qlt_shift_div_l; lra.
      - eapply Qle_trans; [exact H1|]. apply Qle_lteq. right. field. lra. }
    lra. }
  assert (inject_Z (4 * n * (U * U)) <= inject_Z ((2 * m + 1) * (2 * m + 1)))%Q as B.
  { rewrite !inject_Z_mult.
    rewrite !inject_Z_plus, inject_Z_mult.
    change (inject_Z 2) with 2%Q. change (inject_Z 4) with 4%Q.
    change (inject_Z 1) with 1%Q.
    assert (inject_Z n * (inject_Z U * inject_Z U)
            <= (inject_Z m + (1 # 2)) * (inject_Z m + (1 # 2)))%Q as H2'.
    { apply Qmult_le_r with (1 / inject_Z U * (1 / inject_Z U))%Q.
      - apply Qmult_lt_0_compat; apply Qlt_shift_div_l; lra.
      - eapply Qle_trans; [|exact H2]. apply Qle_lteq. right. field. lra. }
    lra. }
  rewrite <- Zle_Qle in A, B. done.
Qed.

Lemma sqrt_Q_near (n : Z) :
  1 ≤ n < 2 ^ 51 →
  ∃ f u : Q,
    Float64.sqrt (inject_Z n) = f ∧ (0 < u)%Q ∧ (u <= 1 # 134217728)%Q ∧ (u <= f)%Q
    ∧ ((f - u * (1 # 2)) * (f - u * (1 # 2)) <= inject_Z n)%Q
    ∧ (inject_Z n <= (f + u * (1 # 2)) * (f + u * (1 # 2)))%Q.
Proof.
  intros Hn.
  destruct (sqrt_Z_near n Hn) as (U & m & HU & Hm & Hf & Hu & _).
  assert (0 < inject_Z n)%Q as Hq
    by (change 0%Q with (inject_Z 0); rewrite <- Zlt_Qlt; lia).
  destruct (sqrt_spec _ Hq) as (m' & Hf' & Hm' & H1 & H2).
  exists (inject_Z m' * 2 ^ (Float64.ilog2 (inject_Z n) / 2 - 52))%Q,
         (2 ^ (Float64.ilog2 (inject_Z n) / 2 - 52))%Q.
  split; [exact Hf'|]. clear Hf Hf'.
  assert (0 < inject_Z U)%Q as HUQ
    by (change 0%Q with (inject_Z 0); rewrite <- Zlt_Qlt; lia).
  assert (inject_Z (2 ^ 27) <= inject_Z U)%Q as HU' by (by rewrite <- Zle_Qle).
  assert (1 <= inject_Z m')%Q as HmQ
    by (change 1%Q with (inject_Z 1); by rewrite <- Zle_Qle).
  pose proof (pow2_pos (Float64.ilog2 (inject_Z n) / 2 - 52)) as Hpos.
  revert Hu H1 H2 Hpos. generalize (2 ^ (Float64.ilog2 (inject_Z n) / 2 - 52))%Q.
  intros u Hu H1 H2 Hpos.
  split; [done|]. split.
  { rewrite Hu. apply Qle_shift_div_r; [done|].
    change (inject_Z (2 ^ 27)) with 134217728%Q in HU'. lra. }
  split; [nra|]. split.
  - eapply Qle_trans; [|exact H1]. apply Qle_lteq. right. ring.
  - eapply Qle_trans; [exact H2|]. apply Qle_lteq. right. ring.
Qed.

Lemma sqrt_0 : Float64.sqrt 0 = 0%Q.
Proof. reflexivity. Qed.

Lemma sqrt_Z_pos (n : Z) : 1 ≤ n < 2 ^ 51 → (0 < Float64.sqrt (inject_Z n))%Q.
Proof.
  intros Hn. destruct (sqrt_Q_near n Hn) as (f & u & -> & ? & _ & ? & _). lra.
Qed.

(** On integers below 2^51 the rounded root is strictly increasing. *)
Lemma sqrt_Z_lt (n n' : Z) :
  0 ≤ n → n < n' → n' < 2 ^ 51 →
  (Float64.sqrt (inject_Z n) < Float64.sqrt (inject_Z n'))%Q.
Proof.
  intros Hn0 Hlt Hn'.
  destruct (Z.eq_dec n 0) as [->|Hnz].
  { change (inject_Z 0) with 0%Q. rewrite sqrt_0. apply sqrt_Z_pos. lia. }
  destruct (sqrt_Q_near n) as (f & u & -> & Hu0 & Hu & Huf & Hlo & _); [lia|].
  destruct (sqrt_Q_near n') as (f' & u' & -> & Hu0' & Hu' & Huf' & _ & Hhi');
    [lia|].
  destruct (Qlt_le_dec f f') as [|Hle]; [done|]. exfalso.
  assert (inject_Z n + 1 <= inject_Z n')%Q as Hstep.
  { change 1%Q with (inject_Z 1). rewrite <- inject_Z_plus, <- Zle_Qle. lia. }
  assert (inject_Z n < 47453133 * 47453133)%Q as Hbig.
  { change (47453133 * 47453133)%Q with (inject_Z (47453133 * 47453133)).
    rewrite <- Zlt_Qlt. lia. }
  revert Hlo Hhi' Hstep Hbig. generalize (inject_Z n) (inject_Z n').
  intros a a' Hlo Hhi' Hstep Hbig.
  assert (f - u * (1 # 2) < 47453133)%Q as Hfb.
  { destruct (Qlt_le_dec (f - u * (1 # 2)) 47453133) as [|Hge]; [done|]. nra. }
  assert ((f' + u' * (1 # 2)) * (f' + u' * (1 # 2))
          <= (f + u' * (1 # 2)) * (f + u' * (1 # 2)))%Q as Hsq by nra.
  set (s := ((u + u') * (1 # 2))%Q).
  set (t := (2 * f + (u' - u) * (1 # 2))%Q).
  assert (1 <= s * t)%Q as Hst.
  { assert ((f + u' * (1 # 2)) * (f + u' * (1 # 2))
            - (f - u * (1 # 2)) * (f - u * (1 # 2)) == s * t)%Q as <-
      by (unfold s, t; ring). lra. }
  assert (0 < s)%Q as Hs0 by (unfold s; lra).
  assert (s <= 1 # 134217728)%Q as Hs by (unfold s; lra).
  assert (t <= 94906267)%Q as Ht by (unfold t; lra).
  clearbody s t. nra.
Qed.

Lemma sqrt_Z_le_iff (n n' : Z) :
  0 ≤ n < 2 ^ 51 → 0 ≤ n' < 2 ^ 51 →
  (Float64.sqrt (inject_Z n) <= Float64.sqrt (inject_Z n'))%Q ↔ n ≤ n'.
Proof.
  intros Hn Hn'. split.
  - intros Hle. destruct (Z_lt_le_dec n' n) as [Hlt|]; [|done].
    pose proof (sqrt_Z_lt n' n ltac:(lia) Hlt ltac:(lia)) as H.
    exfalso. by apply (Qlt_not_le _ _ H).
  - intros Hle. destruct (Z.eq_dec n n') as [->|]; [apply Qle_refl|].
    apply Qlt_le_weak, sqrt_Z_lt; lia.
Qed.

(** Comparison of the rounded root with an integer threshold. *)
Lemma sqrt_Z_le_threshold (n T : Z) :
  0 ≤ n < 2 ^ 51 →
  (Float64.sqrt (inject_Z n) <= inject_Z T)%Q ↔ 0 ≤ T ∧ n ≤ T * T.
Proof.
  intros Hn. destruct (Z.eq_dec n 0) as [->|Hnz].
  { change (inject_Z 0) with 0%Q. rewrite sqrt_0.
    change 0%Q with (inject_Z 0). rewrite <- Zle_Qle. nia. }
  destruct (sqrt_Z_near n) as (U & m & HU & Hm & -> & -> & Hlo & Hhi); [lia|].
  assert (0 < inject_Z U)%Q as HUQ
    by (change 0%Q with (inject_Z 0); rewrite <- Zlt_Qlt; lia).
  assert ((inject_Z m * (1 / inject_Z U) <= inject_Z T)%Q ↔ m ≤ T * U) as ->.
  { rewrite Zle_Qle, inject_Z_mult. split.
    - intros H. apply Qmult_le_r with (1 / inject_Z U)%Q.
      + apply Qlt_shift_div_l; lra.
      + eapply Qle_trans; [exact H|]. apply Qle_lteq. right. field. lra.
    - intros H. apply Qmult_le_r with (inject_Z U); [done|].
      eapply Qle_trans; [|exact H]. apply Qle_lteq. right. field. lra. }
  split.
  - intros Hle. assert (0 ≤ T) by nia. split; [done|].
    destruct (Z_lt_le_dec (T * T) n) as [Hgt|]; [|done]. exfalso.
    assert (T < 2 ^ 26) by nia.
    assert (4 * U * U ≤ 4 * T * U + 1) by nia. nia.
  - intros [HT Hle]. 
    destruct (Z_lt_le_dec (T * U) m) as [Hgt|]; [|done]. exfalso.
    assert (2 * (T * U) + 1 ≤ 2 * m - 1) as H1 by lia.
    assert (0 ≤ T * U) as H2 by nia.
    assert ((2 * (T * U) + 1) * (2 * (T * U) + 1) ≤ (2 * m - 1) * (2 * m - 1))
      as H3 by nia.
    assert (4 * n * (U * U) ≤ 4 * (T * T) * (U * U)) as H4 by nia.
    nia.
Qed.

#[local] Instance sqrt_comp : Proper (Qeq ==> Qeq) Float64.sqrt.
Proof.
  intros q q' Heq. destruct (Qlt_le_dec 0 q) as [Hq|Hq].
  - assert (0 < q')%Q as Hq' by (by rewrite <- Heq).
    unfold Float64.sqrt. rewrite !Qle_bool_false by done. cbv zeta.
    rewrite <- (ilog2_comp q q' Hq Heq).
    pose proof (pow2_pos (Float64.ilog2 q / 2 - 52)) as Hu. revert Hu.
    generalize (2 ^ (Float64.ilog2 q / 2 - 52))%Q. intros u Hu.
    assert (q / (u * u) == q' / (u * u))%Q as HN by (by rewrite Heq).
    revert HN. generalize (q / (u * u))%Q (q' / (u * u))%Q. intros n n' HN.
    rewrite <- (Qfloor_comp _ _ HN).
    generalize (Z.sqrt (Qfloor n)). intros r.
    assert ((n ?= (inject_Z r + (1 # 2)) * (inject_Z r + (1 # 2)))%Q
            = (n' ?= (inject_Z r + (1 # 2)) * (inject_Z r + (1 # 2)))%Q) as ->
      by (by apply Qcompare_comp).
    reflexivity.
  - assert (q' <= 0)%Q as Hq' by (by rewrite <- Heq).
    rewrite !sqrt_nonpos by done. reflexivity.
Qed.

(** * The sequential matcher in [float64] arithmetic *)

Lemma fold_left_Qmin_assoc r x y :
  (fold_left Qmin r (Qmin x y) == Qmin x (fold_left Qmin r y))%Q.
Proof.
  revert x y. induction r as [|z r IH]; intros x y; simpl; [reflexivity|].
  rewrite <- IH. 
  assert (Qmin (Qmin x y) z == Qmin x (Qmin y z))%Q as E by (symmetry; apply Q.min_assoc).
  revert E. generalize (Qmin (Qmin x y) z) (Qmin x (Qmin y z)). intros a b E.
  clear IH. revert a b E. induction r as [|w r IH]; intros a b E; simpl; [done|].
  apply IH. by rewrite E.
Qed.

Lemma fmin_cons x y r :
  (Float64.min (x :: y :: r) == Qmin x (Float64.min (y :: r)))%Q.
Proof. simpl. apply fold_left_Qmin_assoc. Qed.

Lemma fargmin_cons x y r :
  Float64.argmin (x :: y :: r) =
    if Qle_bool x (Float64.min (y :: r)) then 0%nat else S (Float64.argmin (y :: r)).
Proof. done. Qed.

(** Rounded roots of squared distances below 2^51 have the minimum and the
    first position of the minimum where the squared distances have them. *)
Lemma float_min_argmin (fd : list Q) (d : list Z) :
  Forall2 (λ q n, (q == Float64.sqrt (inject_Z n))%Q ∧ 0 ≤ n < 2 ^ 51) fd d →
  d ≠ [] →
  (Float64.min fd == Float64.sqrt (inject_Z (NumPy.min d)))%Q
  ∧ Float64.argmin fd = NumPy.argmin d
  ∧ 0 ≤ NumPy.min d < 2 ^ 51.
Proof.
  induction 1 as [|q n fd d [Hq Hn] Hrest IH]; [done|]. intros _.
  destruct Hrest as [|q' n' fd d Hqn' Hrest].
  { simpl. done. }
  destruct (IH ltac:(done)) as (Hmin & Harg & Hrange). clear IH.
  rewrite fargmin_cons, argmin_cons, min_cons.
  assert (Float64.min (q :: q' :: fd)
          == Qmin q (Float64.min (q' :: fd)))%Q as -> by apply fmin_cons.
  revert Hmin Harg Hrange.
  generalize (Float64.min (q' :: fd)) (Float64.argmin (q' :: fd))
             (NumPy.min (n' :: d)) (NumPy.argmin (n' :: d)).
  intros fm fk m k Hmin -> Hrange.
  assert (Qle_bool q fm = (n <=? m)) as ->.
  { apply eq_true_iff_eq. rewrite Qle_bool_iff, Z.leb_le, Hq, Hmin.
    by apply sqrt_Z_le_iff. }
  destruct (Z.leb_spec n m) as [Hle|Hlt].
  - rewrite Z.min_l by lia. split; [|done].
    rewrite Q.min_l; [done|]. rewrite Hq, Hmin. apply sqrt_Z_le_iff; [done..|lia].
  - rewrite Z.min_r by lia. split; [|done].
    rewrite Q.min_r; [done|]. rewrite Hq, Hmin. apply sqrt_Z_le_iff; [done..|lia].
Qed.

Lemma sqdist_range s g :
  survey_range s → survey_range g → 0 ≤ sqdist s g < 2 ^ 51.
Proof.
  intros [Hs1 Hs2] [Hg1 Hg2]. unfold sqdist.
  assert (∀ a b, Z.abs a < 2 ^ 24 → Z.abs b < 2 ^ 24 →
                 0 ≤ (a - b) * (a - b) < 2 ^ 50) as Hsq.
  { intros a b Ha Hb. assert (Z.abs (a - b) < 2 ^ 25) as Hab by lia.
    split; [apply Z.square_nonneg|].
    rewrite <- Z.abs_square. assert (0 ≤ Z.abs (a - b)) by lia.
    change (2 ^ 50) with (2 ^ 25 * 2 ^ 25). nia. }
  pose proof (Hsq _ _ Hs1 Hg1). pose proof (Hsq _ _ Hs2 Hg2). lia.
Qed.

(** With coordinates below 2^24 every operation of the distance but the
    root is exact. *)
Lemma euclidean_exact s g :
  survey_range s → survey_range g →
  (G_shot_match_float64.euclidean s g == Float64.sqrt (inject_Z (sqdist s g)))%Q.
Proof.
  intros Hs Hg. pose proof (sqdist_range s g Hs Hg) as Hd.
  destruct Hs as [Hs1 Hs2], Hg as [Hg1 Hg2].
  unfold G_shot_match_float64.euclidean, sqdist in *. cbv zeta.
  assert (∀ a b, Z.abs a < 2 ^ 24 → Z.abs b < 2 ^ 24 →
            (Float64.fl (Float64.fl (inject_Z a) - Float64.fl (inject_Z b))
             == inject_Z (a - b))%Q
            ∧ Z.abs ((a - b) * (a - b)) < 2 ^ 50) as Hsub.
  { intros a b Ha Hb. split.
    - rewrite !fl_Z by lia.
      assert (inject_Z a - inject_Z b == inject_Z (a - b))%Q as ->
        by (unfold Z.sub; rewrite inject_Z_plus, inject_Z_opp; reflexivity).
      apply fl_Z. lia.
    - assert (Z.abs (a - b) < 2 ^ 25) as Hab by lia.
      rewrite Z.abs_mul. change (2 ^ 50) with (2 ^ 25 * 2 ^ 25).
      assert (0 ≤ Z.abs (a - b)) by lia. nia. }
  destruct (Hsub _ _ Hs1 Hg1) as [-> Hx]. destruct (Hsub _ _ Hs2 Hg2) as [-> Hy].
  rewrite <- !inject_Z_mult. rewrite !fl_Z by lia.
  rewrite <- inject_Z_plus. rewrite fl_Z by lia. reflexivity.
Qed.

Lemma cdist_exact s pts :
  survey_range s → Forall survey_range pts →
  Forall2 (λ q n, (q == Float64.sqrt (inject_Z n))%Q ∧ 0 ≤ n < 2 ^ 51)
    (G_shot_match_float64.cdist s pts) (cdist s pts).
Proof.
  intros Hs Hpts. unfold G_shot_match_float64.cdist, cdist.
  apply Forall2_fmap, Forall_Forall2_diag.
  eapply Forall_impl; [exact Hpts|]. intros g Hg. simpl.
  split; [by apply euclidean_exact|by apply sqdist_range].
Qed.

Lemma mask_index_Forall {A} (P : A → Prop) (a : list A) mask :
  Forall P a → Forall P (NumPy.mask_index a mask).
Proof.
  intros Ha. revert mask. induction Ha as [|x a Hx Ha IH]; intros [|b mask];
    simpl; try done.
  destruct b; [constructor; [done|]|]; apply IH.
Qed.

(** With coordinates below 2^24 and an integer threshold, one turn of the
    loop in [float64] arithmetic is the turn in exact arithmetic. *)
Lemma match_step_float64 grid_points (T : Z) st shot :
  survey_range shot → Forall survey_range grid_points →
  G_shot_match_float64.match_step grid_points (inject_Z T) st shot
  = match_step grid_points (inject_Z T) st shot.
Proof.
  intros Hs Hgrid. unfold G_shot_match_float64.match_step, match_step. cbv zeta.
  set (pts := NumPy.mask_index grid_points (NumPy.invert (matched_grid st))).
  pose proof (cdist_exact shot pts Hs
                (mask_index_Forall survey_range grid_points
                   (NumPy.invert (matched_grid st)) Hgrid)) as Hd.
  assert (length (G_shot_match_float64.cdist shot pts) = length (cdist shot pts))
    as Hlen by (eapply Forall2_length; exact Hd).
  rewrite Hlen.
  destruct (bool_decide (0 < length (cdist shot pts))%nat) eqn:Hne; [|done].
  apply bool_decide_eq_true in Hne.
  assert (cdist shot pts ≠ []) as Hnil by (intros E; rewrite E in Hne; simpl in Hne; lia).
  destruct (float_min_argmin _ _ Hd Hnil) as (Hmin & Harg & Hrange).
  rewrite Harg.
  assert (Qle_bool (Float64.min (G_shot_match_float64.cdist shot pts)) (inject_Z T)
          = dist_le (NumPy.min (cdist shot pts)) (inject_Z T)) as ->; [|done].
  apply eq_true_iff_eq. unfold dist_le.
  rewrite andb_true_iff, !Qle_bool_iff, Hmin.
  rewrite sqrt_Z_le_threshold by done.
  change 0%Q with (inject_Z 0). rewrite <- inject_Z_mult, <- !Zle_Qle. done.
Qed.

Lemma run_float64 grid_points (T : Z) shots :
  Forall survey_range shots → Forall survey_range grid_points →
  G_shot_match_float64.run grid_points (inject_Z T) shots
  = run grid_points (inject_Z T) shots.
Proof.
  intros Hshots Hgrid. unfold G_shot_match_float64.run, run.
  generalize (init grid_points).
  induction Hshots as [|s shots Hs Hshots IH]; intros st; simpl; [done|].
  rewrite match_step_float64 by done. apply IH.
Qed.

Lemma match_shots_to_grid_float64 shot_points grid_points (T : Z) :
  Forall survey_range shot_points → Forall survey_range grid_points →
  G_shot_match_float64.match_shots_to_grid shot_points grid_points (inject_Z T)
  = match_shots_to_grid shot_points grid_points (inject_Z T).
Proof.
  intros Hshots Hgrid.
  unfold G_shot_match_float64.match_shots_to_grid, match_shots_to_grid.
  rewrite run_float64; [done| |done].
  apply Forall_forall. intros s Hs.
  rewrite Forall_forall in Hshots. apply Hshots.
  by rewrite <- (sort_shots_perm shot_points).
Qed.

Lemma process_segy_file_float64 grid_points traces (T : Z) :
  Forall survey_range grid_points →
  Forall (λ tr, survey_range (source tr)) traces →
  G_shot_match_file_float64.process_segy_file grid_points traces (inject_Z T)
  = G_shot_match_file.process_segy_file grid_points traces (inject_Z T).
Proof.
  intros Hgrid Htraces.
  unfold G_shot_match_file_float64.process_segy_file,
    G_shot_match_file.process_segy_file.
  rewrite match_shots_to_grid_float64; [done| |done].
  apply Forall_forall. intros s Hs. rewrite unique_rows_elem in Hs.
  apply list_elem_of_fmap in Hs as (tr & -> & Htr).
  rewrite Forall_forall in Htraces. by apply Htraces.
Qed.

Lemma within_or_farther s g md : within_distance s g md ∨ farther_than s g md.
Proof.
  destruct (dist_le (sqdist s g) md) eqn:E.
  - left. by apply dist_le_true.
  - right. by apply dist_le_false.
Qed.

(** In one run a shot at the exact distance √(2^60 + 1) from the only node
    is matched with the threshold 2^30: the sum of the squares, 2^60 + 1,
    is rounded to 2^60, whose root is the threshold. *)
Lemma rounded_distance_meets_the_threshold :
  (G_shot_match_float64.match_shots_to_grid
     [(0,0)] [(2 ^ 30, 1)] (inject_Z (2 ^ 30))).1 !! (0,0)
  = Some (2 ^ 30, 1)
  ∧ farther_than (0,0) (2 ^ 30, 1) (inject_Z (2 ^ 30)).
Proof. split; [vm_compute; reflexivity|right; vm_compute; reflexivity]. Qed.

(** C2 (as the code behaves).  For pairwise distinct shots and pairwise
    distinct nodes with coordinates below 2^24 in absolute value and an
    integer threshold: every pair of the returned assignment joins a shot
    of the input to a node of the grid at distance at most the threshold;
    and a shot is absent from the assignment exactly when every node that
    has not been given to a shot processed before it lies farther than the
    threshold, which is the case in particular when no such node is left.
    The assignment is the final one: a shot that is absent has not been
    taken up again. *)
Theorem match_shots_to_grid_threshold
    (shot_points grid_points : list point) (T : Z) :
  Forall survey_range shot_points → Forall survey_range grid_points →
  NoDup shot_points → NoDup grid_points →
  let assignment :=
    (G_shot_match_float64.match_shots_to_grid
       shot_points grid_points (inject_Z T)).1 in
  (∀ s g, assignment !! s = Some g →
          s ∈ shot_points ∧ g ∈ grid_points ∧ within_distance s g (inject_Z T))
  ∧ (∀ s, s ∈ shot_points →
       (assignment !! s = None ↔
        ∀ g, g ∈ grid_points → ¬ taken_before assignment s g →
             farther_than s g (inject_Z T))).
Proof.
  intros Hshots Hgrid Hnd Hndg. cbv zeta.
  rewrite match_shots_to_grid_float64 by done.
  split.
  - intros s g Hsg. destruct (assignment_within _ _ _ _ _ Hsg) as [Hg Hw].
    split; [|done].
    rewrite <- (sort_shots_perm shot_points).
    apply (run_lookup_elem_of grid_points (inject_Z T)). by exists g.
  - intros s Hs. split.
    + intros Hnone g Hg Hfree.
      destruct (within_or_farther s g (inject_Z T)) as [Hw|]; [|done].
      destruct Hfree.
      by apply (unmatched_node_taken shot_points grid_points).
    + intros Hall.
      destruct ((match_shots_to_grid shot_points grid_points (inject_Z T)).1 !! s)
        as [g|] eqn:Hsg; [|done]. exfalso.
      destruct (assignment_within _ _ _ _ _ Hsg) as [Hg Hw].
      apply (proj1 (farther_not_within s g (inject_Z T))); [|done].
      apply Hall; [done|]. intros (s' & Hs'g & Hne & _). apply Hne.
      by apply (assignment_injective shot_points grid_points (inject_Z T) s' s g).
Qed.

Lemma match_shots_to_grid_threshold_witness :
  let assignment :=
    (G_shot_match_float64.match_shots_to_grid
       scenario_shots [(0,0); (20,20)] (inject_Z 5)).1 in
  assignment !! (9,9) = None
  ∧ (∀ g, g ∈ [(0,0); (20,20)] → ¬ taken_before assignment (9,9) g →
          farther_than (9,9) g (inject_Z 5)).
Proof.
  intros assignment.
  destruct (match_shots_to_grid_threshold scenario_shots [(0,0); (20,20)] 5)
    as [_ Hiff]; [compute_done..|].
  assert (assignment !! (9,9) = None) as Hnone by (vm_compute; reflexivity).
  split; [exact Hnone|].
  apply (proj1 (Hiff (9,9) ltac:(compute_done))). exact Hnone.
Defined.

(** A position consumed before the turn of [shot] holds a node that was
    given to an earlier shot. *)
Lemma consumed_taken_before shot_points grid_points md pre shot post j g :
  NoDup shot_points →
  sort_shots_from_right_bottom_to_left_top shot_points = pre ++ shot :: post →
  matched_grid (run grid_points md pre) !! j = Some true →
  grid_points !! j = Some g →
  taken_before (match_shots_to_grid shot_points grid_points md).1 shot g.
Proof.
  intros Hnd Hsplit Hconsumed Hj. simpl.
  pose proof (sort_shots_sorted shot_points) as Hsorted.
  apply sort_shots_NoDup in Hnd. rewrite Hsplit in Hnd, Hsorted |- *.
  set (st := run grid_points md pre) in *.
  pose proof (ledger_run grid_points md pre) as Hled. fold st in Hled.
  pose proof (consumed_in_matched _ _ _ _ _ Hled Hconsumed Hj) as Hin.
  pose proof Hnd as (Hpre & Hdisj & _)%NoDup_app.
  destruct (led_owner _ _ _ Hled Hpre g Hin) as (s' & Hs' & Hsg).
  exists s'. split; [|split].
  - unfold run. rewrite fold_left_app. fold (run grid_points md pre).
    fold st. rewrite fold_lookup_not_in; [done|]. by apply Hdisj.
  - intros ->. eapply Hdisj; [done|by left].
  - eapply StronglySorted_app_1_elem_of; [done..|by left].
Qed.

(** Two nodes at exactly the same distance from the shot, the Pythagorean
    pairs (1046348895, 122941810) and (900379135, 547063170); the squares
    exceed 2^53, the two rounded distances differ, and the node stored
    last is assigned. *)
Lemma later_node_wins_an_exact_tie :
  sqdist (0,0) (1046348895, 122941810) = sqdist (0,0) (900379135, 547063170)
  ∧ (G_shot_match_float64.match_shots_to_grid
       [(0,0)] [(1046348895, 122941810); (900379135, 547063170)]
       (inject_Z (2 ^ 31))).1 !! (0,0)
    = Some (900379135, 547063170).
Proof. split; vm_compute; reflexivity. Qed.

(** C10 (as the code behaves).  For coordinates below 2^24 in absolute
    value and an integer threshold: a turn that assigns a node assigns,
    among the nodes still free, one at minimal distance and, among the free
    nodes at exactly that distance, the one with the smallest position in
    the grid array; and for pairwise distinct shots the node the returned
    assignment holds for a shot is at a position from which every node not
    given to an earlier shot is either strictly farther from the shot, or
    at the same distance and stored no earlier. *)
Theorem match_shots_to_grid_tie_break
    (shot_points grid_points : list point) (T : Z) :
  Forall survey_range shot_points → Forall survey_range grid_points →
  (∀ pre post shot node,
     sort_shots_from_right_bottom_to_left_top shot_points = pre ++ shot :: post →
     let st := G_shot_match_float64.run grid_points (inject_Z T) pre in
     matched_shots (G_shot_match_float64.match_step grid_points (inject_Z T) st shot)
     = matched_shots st ++ [node] →
     ∃ gi, first_nearest_free grid_points (matched_grid st) shot gi node)
  ∧ (NoDup shot_points →
     let assignment :=
       (G_shot_match_float64.match_shots_to_grid
          shot_points grid_points (inject_Z T)).1 in
     ∀ shot node, assignment !! shot = Some node →
       ∃ gi, grid_points !! gi = Some node ∧
         ∀ j g, grid_points !! j = Some g → ¬ taken_before assignment shot g →
           sqdist shot node < sqdist shot g
           ∨ (sqdist shot node = sqdist shot g ∧ (gi ≤ j)%nat)).
Proof.
  intros Hshots Hgrid.
  assert (Forall survey_range (sort_shots_from_right_bottom_to_left_top shot_points))
    as Hsorted.
  { apply Forall_forall. intros s Hs. rewrite Forall_forall in Hshots.
    apply Hshots. by rewrite <- (sort_shots_perm shot_points). }
  split.
  - intros pre post shot node Hsplit. cbv zeta.
    rewrite Hsplit in Hsorted. apply Forall_app in Hsorted as [Hpre Hrest].
    apply Forall_cons in Hrest as [Hshot _].
    rewrite run_float64, match_step_float64 by done. intros Heq.
    destruct (match_step_assigns grid_points (inject_Z T)
                (run grid_points (inject_Z T) pre) shot node)
      as (gi & Hsel & _); [apply invariant_run|done|]. by exists gi.
  - intros Hnd. cbv zeta. rewrite match_shots_to_grid_float64 by done.
    intros shot node Hsn.
    assert (shot ∈ sort_shots_from_right_bottom_to_left_top shot_points) as Hin
      by (apply (run_lookup_elem_of grid_points (inject_Z T)); by exists node).
    apply list_elem_of_split in Hin as (pre & post & Hsplit).
    pose proof Hnd as Hnd'%sort_shots_NoDup. rewrite Hsplit in Hnd'.
    set (st := run grid_points (inject_Z T) pre).
    pose proof (ledger_run grid_points (inject_Z T) pre) as Hled. fold st in Hled.
    destruct (run_lookup_at_turn grid_points (inject_Z T) pre shot post Hnd')
      as [Hnone Hturn]. fold st in Hnone, Hturn.
    simpl in Hsn. rewrite Hsplit, Hturn in Hsn.
    destruct (match_step_cases grid_points (inject_Z T) st shot) as
      [[Hst _]|(gi & node' & Hsel & _ & Hst)]; [apply invariant_run|..];
      rewrite Hst in Hsn.
    { by rewrite Hnone in Hsn. }
    simpl in Hsn. rewrite lookup_insert_eq in Hsn. injection Hsn as <-.
    destruct Hsel as (_ & Hgi & Hmin).
    exists gi. split; [done|]. intros j g Hj Hfree.
    assert (free (matched_grid st) j) as Hfj.
    { destruct (lookup_lt_is_Some_2 (matched_grid st) j) as [[] Hb]; [| |done].
      { rewrite (led_length _ _ _ Hled). by eapply lookup_lt_Some. }
      destruct Hfree.
      by apply (consumed_taken_before shot_points grid_points (inject_Z T)
                  pre shot post j g). }
    destruct (Hmin j g Hfj Hj) as [Hle Htie].
    destruct (Z.eq_dec (sqdist shot g) (sqdist shot node')) as [Heq|Hne].
    + right. split; [done|]. by apply Htie.
    + left. lia.
Qed.

Lemma match_shots_to_grid_tie_break_witness :
  ∃ gi, first_nearest_free [(0,0); (2,0)]
          (matched_grid (G_shot_match_float64.run [(0,0); (2,0)] (inject_Z 5) []))
          (1,0) gi (0,0).
Proof.
  apply (proj1 (match_shots_to_grid_tie_break [(1,0)] [(0,0); (2,0)] 5
                  ltac:(compute_done) ltac:(compute_done))
           [] [] (1,0) (0,0) eq_refl).
  vm_compute. reflexivity.
Defined.

(** X4.  The greedy matching is maximal.  For coordinates below 2^24 in
    absolute value and an integer threshold: if a shot of a duplicate-free
    input is left unmatched although a grid node lies within the threshold
    of it, then that node is the entry of another shot, one that precedes
    it in the processing order. *)
Theorem unmatched_shot_lost_its_nodes
    (shot_points grid_points : list point) (T : Z) (s g : point) :
  Forall survey_range shot_points → Forall survey_range grid_points →
  NoDup shot_points → s ∈ shot_points →
  (G_shot_match_float64.match_shots_to_grid
     shot_points grid_points (inject_Z T)).1 !! s = None →
  g ∈ grid_points → within_distance s g (inject_Z T) →
  taken_before
    (G_shot_match_float64.match_shots_to_grid
       shot_points grid_points (inject_Z T)).1 s g.
Proof.
  intros Hshots Hgrid Hnd Hs. rewrite match_shots_to_grid_float64 by done.
  intros Hnone Hg Hw.
  by apply (unmatched_node_taken shot_points grid_points).
Qed.

Lemma unmatched_shot_lost_its_nodes_witness :
  taken_before
    (G_shot_match_float64.match_shots_to_grid
       [(1,0); (0,1)] [(0,0)] (inject_Z 5)).1 (1,0) (0,0).
Proof.
  apply (unmatched_shot_lost_its_nodes [(1,0); (0,1)] [(0,0)] 5 (1,0) (0,0));
    first [compute_done | by vm_compute | unfold within_distance; compute_done].
Defined.

(** X7.  For coordinates below 2^24 in absolute value and an integer
    threshold: the written file holds, in their original order and each
    once, exactly the traces whose shot was matched.  Such a trace keeps
    its receiver position, and its shot position is replaced by the grid
    node the dictionary holds for it, which lies within the threshold of
    the original shot. *)
Theorem written_traces
    (grid_points : list point) (traces : list trace) (T : Z)
    (new_segy : list (nat * trace)) :
  Forall survey_range grid_points →
  Forall (λ tr, survey_range (source tr)) traces →
  G_shot_match_file_float64.process_segy_file grid_points traces (inject_Z T)
  = Written new_segy →
  let shot_to_grid :=
    (G_shot_match_float64.match_shots_to_grid
       (unique_rows (source <$> traces)) grid_points (inject_Z T)).1 in
  StronglySorted lt (fst <$> new_segy)
  ∧ (∀ i t, (i, t) ∈ new_segy →
       ∃ tr, traces !! i = Some tr
             ∧ group t = group tr
             ∧ shot_to_grid !! source tr = Some (source t)
             ∧ source t ∈ grid_points
             ∧ within_distance (source tr) (source t) (inject_Z T))
  ∧ (∀ i tr, traces !! i = Some tr →
       is_Some (shot_to_grid !! source tr) → ∃ t, (i, t) ∈ new_segy).
Proof.
  intros Hgrid Htraces. rewrite process_segy_file_float64 by done.
  rewrite match_shots_to_grid_float64; [|  |done].
  - apply written_traces_exact.
  - apply Forall_forall. intros s Hs. rewrite unique_rows_elem in Hs.
    apply list_elem_of_fmap in Hs as (tr & -> & Htr).
    rewrite Forall_forall in Htraces. by apply Htraces.
Qed.

Lemma written_traces_witness :
  let new_segy := [(0%nat, Trace (0,0) (50,50)); (2%nat, Trace (0,0) (70,50))] in
  let shot_to_grid :=
    (G_shot_match_float64.match_shots_to_grid
       (unique_rows (source <$> three_traces)) grid3x3 (inject_Z 5)).1 in
  StronglySorted lt (fst <$> new_segy)
  ∧ (∀ i t, (i, t) ∈ new_segy →
       ∃ tr, three_traces !! i = Some tr
             ∧ group t = group tr
             ∧ shot_to_grid !! source tr = Some (source t)
             ∧ source t ∈ grid3x3
             ∧ within_distance (source tr) (source t) (inject_Z 5))
  ∧ (∀ i tr, three_traces !! i = Some tr →
       is_Some (shot_to_grid !! source tr) → ∃ t, (i, t) ∈ new_segy).
Proof.
  apply (written_traces grid3x3 three_traces 5);
    first [compute_done | vm_compute; reflexivity].
Defined.

(** * The grid synthesizer in [float64] arithmetic *)

Lemma round_half_even_unique (x : Q) (k : Z) :
  (inject_Z k - (1 # 2) < x)%Q → (x < inject_Z k + (1 # 2))%Q →
  round_half_even x = k.
Proof.
  intros H1 H2. destruct (round_half_even_nearest x) as [H3 H4].
  assert (inject_Z (round_half_even x) < inject_Z k + 1)%Q as A by lra.
  assert (inject_Z k < inject_Z (round_half_even x) + 1)%Q as B by lra.
  change 1%Q with (inject_Z 1) in A, B.
  rewrite <- inject_Z_plus, <- Zlt_Qlt in A, B. lia.
Qed.

(** The quotient of two integers, the first below 2^52 in absolute value,
    is rounded to the same integer before and after it has been rounded to
    [float64]. *)
Lemma round_fl_quotient (c d : Z) :
  0 < d → Z.abs c < 2 ^ 52 →
  round_half_even (Float64.fl (inject_Z c / inject_Z d))
  = round_half_even (inject_Z c / inject_Z d).
Proof.
  intros Hd Hc.
  assert (0 < inject_Z d)%Q as HdQ
    by (change 0%Q with (inject_Z 0); by rewrite <- Zlt_Qlt).
  assert (1 <= inject_Z d)%Q as Hd1
    by (change 1%Q with (inject_Z 1); rewrite <- Zle_Qle; lia).
  set (q := (inject_Z c / inject_Z d)%Q).
  set (k := round_half_even q).
  destruct (round_half_even_nearest q) as [Hlo Hhi]. fold k in Hlo, Hhi.
  assert (q * inject_Z d == inject_Z c)%Q as Hq by (unfold q; field; lra).
  assert (Qabs q * inject_Z d == inject_Z (Z.abs c))%Q as Habs.
  { transitivity (Qabs (q * inject_Z d)).
    - rewrite Qabs_Qmult, (Qabs_pos (inject_Z d)) by lra. reflexivity.
    - rewrite Hq. reflexivity. }
  assert (Qabs q <= inject_Z (Z.abs c))%Q as Habs'.
  { pose proof (Qabs_nonneg q). rewrite <- Habs. nra. }
  assert (inject_Z (Z.abs c) < inject_Z (2 ^ 52))%Q as Hc' by (by rewrite <- Zlt_Qlt).
  change (inject_Z (2 ^ 52)) with 4503599627370496%Q in Hc'.
  (* a tie is a [float64] value *)
  assert (∀ h : Z, (q == inject_Z h * (1 # 2))%Q →
            round_half_even (Float64.fl q) = k) as Htie.
  { intros h Hh. unfold k. apply round_half_even_comp.
    apply (fl_exact h (-1)); [|by rewrite Hh].
    assert (Qabs (inject_Z h) < 2 * 4503599627370496)%Q as Hh'.
    { assert (inject_Z h == 2 * q)%Q as -> by (rewrite Hh; ring).
      rewrite Qabs_Qmult. change (Qabs 2) with 2%Q. lra. }
    change (Qabs (inject_Z h)) with (inject_Z (Z.abs h)) in Hh'.
    change (2 * 4503599627370496)%Q with (inject_Z (2 ^ 53)) in Hh'.
    by rewrite <- Zlt_Qlt in Hh'. }
  destruct (Qeq_dec q (inject_Z (2 * k - 1) * (1 # 2))) as [E|Elo].
  { by apply (Htie (2 * k - 1)). }
  destruct (Qeq_dec q (inject_Z (2 * k + 1) * (1 # 2))) as [E|Ehi].
  { by apply (Htie (2 * k + 1)). }
  (* otherwise the quotient stays clear of the two ties by 1 / (2 d) *)
  assert (inject_Z (2 * k - 1) == 2 * inject_Z k - 1)%Q as E1.
  { unfold Z.sub. rewrite inject_Z_plus, inject_Z_mult. reflexivity. }
  assert (inject_Z (2 * k + 1) == 2 * inject_Z k + 1)%Q as E2.
  { rewrite inject_Z_plus, inject_Z_mult. reflexivity. }
  rewrite E1 in Elo. rewrite E2 in Ehi.
  assert (inject_Z k - (1 # 2) < q)%Q as Hlo'.
  { destruct (Qlt_le_dec (inject_Z k - (1 # 2)) q) as [|Hle]; [done|].
    destruct Elo. lra. }
  assert (q < inject_Z k + (1 # 2))%Q as Hhi'.
  { destruct (Qlt_le_dec q (inject_Z k + (1 # 2))) as [|Hle]; [done|].
    destruct Ehi. lra. }
  assert (1 <= inject_Z (2 * c - (2 * k - 1) * d))%Q as Hgap1.
  { change 1%Q with (inject_Z 1). rewrite <- Zle_Qle.
    assert (0 < 2 * c - (2 * k - 1) * d); [|lia].
    rewrite Zlt_Qlt. unfold Z.sub.
    rewrite !inject_Z_plus, !inject_Z_opp, !inject_Z_mult, inject_Z_plus,
      inject_Z_mult. change (inject_Z 2) with 2%Q. change (inject_Z 0) with 0%Q.
    change (inject_Z (-(1))) with (-1)%Q. rewrite <- Hq. nra. }
  assert (1 <= inject_Z ((2 * k + 1) * d - 2 * c))%Q as Hgap2.
  { change 1%Q with (inject_Z 1). rewrite <- Zle_Qle.
    assert (0 < (2 * k + 1) * d - 2 * c); [|lia].
    rewrite Zlt_Qlt. unfold Z.sub.
    rewrite !inject_Z_plus, !inject_Z_opp, !inject_Z_mult, inject_Z_plus,
      inject_Z_mult. change (inject_Z 2) with 2%Q. change (inject_Z 0) with 0%Q.
    change (inject_Z 1) with 1%Q. rewrite <- Hq. nra. }
  unfold Z.sub in Hgap1, Hgap2.
  rewrite !inject_Z_plus, !inject_Z_opp, !inject_Z_mult, !inject_Z_plus,
    !inject_Z_mult in Hgap1, Hgap2.
  change (inject_Z 2) with 2%Q in *. change (inject_Z 1) with 1%Q in *.
  change (inject_Z (-(1))) with (-1)%Q in *.
  rewrite <- Hq in Hgap1, Hgap2.
  pose proof (fl_error q) as Herr.
  assert (2 ^ (-53) == 1 # 9007199254740992)%Q as Hp by reflexivity.
  rewrite Hp in Herr.
  apply Qabs_Qle_condition in Herr.
  pose proof (Qabs_nonneg q) as Haq.
  revert Herr Hgap1 Hgap2 Habs Hc' Haq. generalize (Float64.fl q) (Qabs q).
  generalize (inject_Z (Z.abs c)). intros C f aq [He1 He2] Hgap1 Hgap2 Habs Hc' Haq.
  assert (- (aq * (1 # 9007199254740992)) * inject_Z d <= (f - q) * inject_Z d)%Q
    as H1 by (apply Qmult_le_compat_r; lra).
  assert ((f - q) * inject_Z d <= aq * (1 # 9007199254740992) * inject_Z d)%Q
    as H2 by (apply Qmult_le_compat_r; lra).
  apply round_half_even_unique.
  - apply Qmult_lt_r with (inject_Z d); [done|]. nra.
  - apply Qmult_lt_r with (inject_Z d); [done|]. nra.
Qed.

Lemma exact_coordinate_comp q q' :
  (q == q')%Q → exact_coordinate q → exact_coordinate q'.
Proof.
  intros Heq [H1 H2]. split.
  - by rewrite <- Heq.
  - assert (q * 65536 == q' * 65536)%Q as E by (by rewrite Heq).
    rewrite <- (Qfloor_comp _ _ E), <- E. done.
Qed.

Lemma exact_coordinate_spec q :
  exact_coordinate q →
  ∃ a : Z, Z.abs a ≤ 2 ^ 47 ∧ (q == inject_Z a * (1 # 65536))%Q.
Proof.
  intros [H1 H2]. exists (Qfloor (q * 65536)). split.
  - assert (inject_Z (Z.abs (Qfloor (q * 65536))) <= inject_Z (2 ^ 47))%Q as H;
      [|by rewrite <- Zle_Qle in H].
    change (inject_Z (Z.abs ?z)) with (Qabs (inject_Z z)).
    rewrite H2, Qabs_Qmult. change (Qabs 65536) with 65536%Q.
    change (inject_Z (2 ^ 47)) with (2147483648 * 65536)%Q.
    apply Qmult_le_compat_r; [done|]. discriminate.
  - rewrite H2. field.
Qed.

(** The number of steps is the same whether the extent and the quotient
    are rounded to [float64] or not. *)
Lemma extent_quotient (x y : Q) (sz : Z) :
  exact_coordinate x → exact_coordinate y → 0 < sz →
  round_half_even (Float64.fl (Float64.fl (x - y) / inject_Z sz))
  = round_half_even ((x - y) / inject_Z sz).
Proof.
  intros (a & Ha & Hx)%exact_coordinate_spec (b & Hb & Hy)%exact_coordinate_spec Hsz.
  assert (0 < inject_Z sz)%Q as HszQ
    by (change 0%Q with (inject_Z 0); by rewrite <- Zlt_Qlt).
  assert (x - y == inject_Z (a - b) * 2 ^ (-16))%Q as Hxy.
  { rewrite Hx, Hy. unfold Z.sub. rewrite inject_Z_plus, inject_Z_opp.
    change (2 ^ (-16))%Q with (1 # 65536)%Q. ring. }
  assert (Float64.fl (x - y) == x - y)%Q as Hfl
    by (apply (fl_exact (a - b) (-16)); [lia|done]).
  assert ((x - y) / inject_Z sz == inject_Z (a - b) / inject_Z (65536 * sz))%Q as Hq.
  { rewrite Hxy, inject_Z_mult. change (2 ^ (-16))%Q with (1 # 65536)%Q.
    change (inject_Z 65536) with 65536%Q. field. lra. }
  assert (Float64.fl (x - y) / inject_Z sz
          == inject_Z (a - b) / inject_Z (65536 * sz))%Q as Hq'
    by (by rewrite Hfl).
  rewrite (round_half_even_comp _ _ Hq).
  rewrite (round_half_even_comp _ _ (fl_comp _ _ Hq')).
  apply round_fl_quotient; lia.
Qed.

Lemma is_min_exact m col :
  is_min m col → Forall exact_coordinate col → exact_coordinate m.
Proof.
  intros [Hex _] Hall. apply Exists_exists in Hex as (y & Hy & Hmy).
  rewrite Forall_forall in Hall.
  apply (exact_coordinate_comp y); [by symmetry|by apply Hall].
Qed.

Lemma is_max_exact m col :
  is_max m col → Forall exact_coordinate col → exact_coordinate m.
Proof.
  intros [Hex _] Hall. apply Exists_exists in Hex as (y & Hy & Hmy).
  rewrite Forall_forall in Hall.
  apply (exact_coordinate_comp y); [by symmetry|by apply Hall].
Qed.

(** On coordinates that are multiples of 2^-16 and integer spacings the
    script in [float64] arithmetic returns what exact arithmetic gives. *)
Lemma regularize_coordinates_float64 (coords : list (Q * Q)) (rs cs : Z) :
  Forall exact_point coords → 0 < rs → 0 < cs →
  F_receivers_regularize_float64.regularize_coordinates
    coords (inject_Z rs) (inject_Z cs)
  = regularize_coordinates coords (inject_Z rs) (inject_Z cs).
Proof.
  intros Hall Hrs Hcs. destruct coords as [|p rest]; [done|].
  unfold F_receivers_regularize_float64.regularize_coordinates,
    regularize_coordinates. cbv zeta.
  assert (Forall exact_coordinate (p.1 :: rest.*1)) as Hxs.
  { change (p.1 :: rest.*1) with ((p :: rest).*1).
    apply Forall_fmap. eapply Forall_impl; [exact Hall|]. by intros ? [? ?]. }
  assert (Forall exact_coordinate (p.2 :: rest.*2)) as Hys.
  { change (p.2 :: rest.*2) with ((p :: rest).*2).
    apply Forall_fmap. eapply Forall_impl; [exact Hall|]. by intros ? [? ?]. }
  rewrite (extent_quotient (column_max p.1 rest.*1) (column_min p.1 rest.*1) cs);
    [|by eapply is_max_exact; [apply column_max_spec|]
     |by eapply is_min_exact; [apply column_min_spec|]|done].
  rewrite (extent_quotient (column_max p.2 rest.*2) (column_min p.2 rest.*2) rs);
    [|by eapply is_max_exact; [apply column_max_spec|]
     |by eapply is_min_exact; [apply column_min_spec|]|done].
  done.
Qed.

(** C4 (as the code behaves).  For a non-empty reference set whose
    coordinates are multiples of 2^-16 of absolute value at most 2^31, and
    positive integer spacings whose lattice fits the [int32] array, the
    script returns the [rows] × [cols] lattice with
    [cols = round((xmax − xmin) / cs) + 1], [rows = round((ymax − ymin) / rs) + 1],
    node [(r, c)] at [(ox + c·cs, oy + r·rs)], rows following one another,
    anchored at the bounding-box minimum truncated toward zero: its floor
    when the minimum is not negative, its ceiling when it is. *)
Theorem regularize_coordinates_lattice
    (coords : list (Q * Q)) (rs cs : Z) (xmin xmax ymin ymax : Q) :
  Forall exact_point coords →
  bounding_box coords xmin xmax ymin ymax → 0 < rs → 0 < cs →
  let cols := round_half_even ((xmax - xmin) / inject_Z cs) + 1 in
  let rows := round_half_even ((ymax - ymin) / inject_Z rs) + 1 in
  let ox := int_ xmin in
  let oy := int_ ymin in
  in_int32 ox → in_int32 (ox + (cols - 1) * cs) →
  in_int32 oy → in_int32 (oy + (rows - 1) * rs) →
  F_receivers_regularize_float64.regularize_coordinates
    coords (inject_Z rs) (inject_Z cs)
  = Grid (lattice ox oy rs cs rows cols)
  ∧ Z.of_nat (length (lattice ox oy rs cs rows cols)) = rows * cols
  ∧ ox = (if Qle_bool 0 xmin then Qfloor xmin else Qceiling xmin)
  ∧ oy = (if Qle_bool 0 ymin then Qfloor ymin else Qceiling ymin).
Proof.
  intros Hexact Hbox Hrs Hcs cols rows ox oy Hox Hox' Hoy Hoy'.
  rewrite regularize_coordinates_float64 by done.
  by apply regularize_coordinates_lattice_exact.
Qed.

Lemma regularize_coordinates_lattice_witness :
  F_receivers_regularize_float64.regularize_coordinates
    fractional_reference (inject_Z 10) (inject_Z 10)
  = Grid (lattice (-1) 0 10 10 3 2)
  ∧ Z.of_nat (length (lattice (-1) 0 10 10 3 2)) = 3 * 2
  ∧ -1 = Qceiling (-3 # 2)
  ∧ 0 = Qfloor (1 # 2).
Proof.
  apply (regularize_coordinates_lattice fractional_reference 10 10
           (-3 # 2) (17 # 2) (1 # 2) (41 # 2));
    first [lia | unfold bounding_box, is_min, is_max, in_int32; compute_done].
Defined.

(** C5 (as the code behaves).  Rounding the extent to the nearest number of
    steps can leave the last column (row) short of the reference maximum by
    up to half a step, so the grid need not contain the reference bounding
    box.  For coordinates that are multiples of 2^-16 of absolute value at
    most 2^31: when the anchor does not exceed the minimum, the grid
    contains the box exactly when its last column and last row reach the
    maxima, which they do whenever the minima are integers and the extents
    are whole multiples of the spacings; and the grid without its last
    column, or without its last row, never contains it. *)
Theorem regularize_coordinates_fit
    (coords : list (Q * Q)) (rs cs : Z) (xmin xmax ymin ymax : Q) :
  Forall exact_point coords →
  bounding_box coords xmin xmax ymin ymax → 0 < rs → 0 < cs →
  let cols := round_half_even ((xmax - xmin) / inject_Z cs) + 1 in
  let rows := round_half_even ((ymax - ymin) / inject_Z rs) + 1 in
  let ox := int_ xmin in
  let oy := int_ ymin in
  in_int32 ox → in_int32 (ox + (cols - 1) * cs) →
  in_int32 oy → in_int32 (oy + (rows - 1) * rs) →
  (inject_Z ox <= xmin)%Q → (inject_Z oy <= ymin)%Q →
  F_receivers_regularize_float64.regularize_coordinates
    coords (inject_Z rs) (inject_Z cs)
  = Grid (lattice ox oy rs cs rows cols)
  ∧ (covers (lattice ox oy rs cs rows cols) xmin xmax ymin ymax ↔
       (xmax <= inject_Z (ox + (cols - 1) * cs))%Q ∧
       (ymax <= inject_Z (oy + (rows - 1) * rs))%Q)
  ∧ ((xmin == inject_Z ox)%Q ∧ (ymin == inject_Z oy)%Q ∧
     (∃ kx, xmax - xmin == inject_Z (kx * cs))%Q ∧
     (∃ ky, ymax - ymin == inject_Z (ky * rs))%Q →
     covers (lattice ox oy rs cs rows cols) xmin xmax ymin ymax)
  ∧ ¬ covers (lattice ox oy rs cs rows (cols - 1)) xmin xmax ymin ymax
  ∧ ¬ covers (lattice ox oy rs cs (rows - 1) cols) xmin xmax ymin ymax.
Proof.
  intros Hexact Hbox Hrs Hcs cols rows ox oy Hox Hox' Hoy Hoy' Hxlo Hylo.
  rewrite regularize_coordinates_float64 by done.
  by apply regularize_coordinates_fit_exact.
Qed.

Lemma regularize_coordinates_fit_witness :
  F_receivers_regularize_float64.regularize_coordinates
    [(0, 0); (20, 10)]%Q (inject_Z 10) (inject_Z 10)
  = Grid (lattice 0 0 10 10 2 3)
  ∧ covers (lattice 0 0 10 10 2 3) 0 20 0 10
  ∧ ¬ covers (lattice 0 0 10 10 2 2) 0 20 0 10
  ∧ ¬ covers (lattice 0 0 10 10 1 3) 0 20 0 10.
Proof.
  pose proof (regularize_coordinates_fit [(0, 0); (20, 10)]%Q 10 10 0 20 0 10)
    as H. cbv zeta in H.
  destruct H as (Hgrid & _ & Hmultiples & Hcols & Hrows);
    try first [lia | unfold bounding_box, is_min, is_max, in_int32; compute_done].
  split; [exact Hgrid|]. split; [|split; [exact Hcols|exact Hrows]].
  apply Hmultiples. split; [reflexivity|]. split; [reflexivity|].
  split; [by exists 2|by exists 1].
Defined.

(** * The offset-align matcher in [float64] arithmetic *)

Lemma sum_float64_acc (col : list Z) (acc : Q) (a : Z) :
  (acc == inject_Z a)%Q →
  Forall (λ x, Z.abs x < 2 ^ 22) col →
  Z.abs a + Z.of_nat (length col) * 2 ^ 22 < 2 ^ 53 →
  (fold_left (λ acc x, Float64.fl (acc + Float64.fl (inject_Z x))) col acc
   == inject_Z (a + foldr Z.add 0%Z col))%Q.
Proof.
  intros Hacc Hcol. revert acc a Hacc.
  induction Hcol as [|x col Hx Hcol IH]; intros acc a Hacc Hbound.
  { simpl. by rewrite Z.add_0_r. }
  cbn [fold_left foldr]. rewrite length_cons in Hbound.
  assert (Float64.fl (acc + Float64.fl (inject_Z x)) == inject_Z (a + x))%Q as Hstep.
  { rewrite (fl_Z x) by lia. rewrite Hacc, <- inject_Z_plus. apply fl_Z. lia. }
  rewrite (IH _ (a + x) Hstep) by lia. by rewrite Z.add_assoc.
Qed.

Lemma sum_bound (col : list Z) :
  Forall (λ x, Z.abs x < 2 ^ 22) col →
  Z.abs (foldr Z.add 0 col) ≤ Z.of_nat (length col) * 2 ^ 22.
Proof.
  induction 1 as [|x col Hx _ IH]; [done|].
  cbn [foldr]. rewrite length_cons. lia.
Qed.

(** The mean of fewer than 2^31 integers below 2^22 in absolute value: the
    sum is exact and the quotient is rounded once. *)
Lemma mean_float64_error (col : list Z) :
  col ≠ [] → Forall (λ x, Z.abs x < 2 ^ 22) col →
  Z.of_nat (length col) < 2 ^ 31 →
  (Qabs (H_receivers_match_float64.mean col - mean col) <= 1 # 2147483648)%Q
  ∧ (Qabs (mean col) <= 4194304)%Q.
Proof.
  intros Hne Hcol Hlen.
  set (n := Z.of_nat (length col)).
  assert (0 < n) as Hn by (destruct col; [done|unfold n; simpl; lia]).
  assert (0 < inject_Z n)%Q as HnQ
    by (change 0%Q with (inject_Z 0); by rewrite <- Zlt_Qlt).
  pose proof (sum_bound col Hcol) as HS. fold n in HS.
  set (S := foldr Z.add 0 col) in *.
  assert (H_receivers_match_float64.sum col == inject_Z S)%Q as Hsum.
  { unfold H_receivers_match_float64.sum.
    rewrite (sum_float64_acc col 0%Q 0); [done|reflexivity|done|].
    fold n. simpl Z.abs. lia. }
  assert (H_receivers_match_float64.mean col == Float64.fl (mean col))%Q as Hmean.
  { unfold H_receivers_match_float64.mean, mean. fold n. fold S.
    apply fl_comp. rewrite Hsum, (fl_Z n) by lia. reflexivity. }
  assert (Qabs (mean col) <= 4194304)%Q as Hm.
  { unfold mean. fold n. fold S. unfold Qdiv.
    rewrite Qabs_Qmult, Qabs_Qinv, (Qabs_pos (inject_Z n)) by lra.
    change (Qabs (inject_Z S)) with (inject_Z (Z.abs S)).
    apply Qle_shift_div_r; [done|].
    change 4194304%Q with (inject_Z (2 ^ 22)).
    rewrite <- inject_Z_mult, <- Zle_Qle. lia. }
  split; [|done]. rewrite Hmean.
  pose proof (fl_error (mean col)) as Herr.
  assert (2 ^ (-53) == 1 # 9007199254740992)%Q as Hp by reflexivity.
  rewrite Hp in Herr. eapply Qle_trans; [exact Herr|].
  revert Hm. generalize (Qabs (mean col)). intros m Hm. lra.
Qed.

(** The rounded difference of two means that are each within 2^-31 of a
    number of absolute value at most 2^22. *)
Lemma offset_error (a b a' b' : Q) :
  (Qabs a <= 4194304)%Q → (Qabs b <= 4194304)%Q →
  (Qabs (a' - a) <= 1 # 2147483648)%Q → (Qabs (b' - b) <= 1 # 2147483648)%Q →
  (Qabs (inject_Z (round_half_even (Float64.fl (a' - b'))) - (a - b))
   <= (1 # 2) + (1 # 268435456))%Q.
Proof.
  intros Ha Hb Ha' Hb'.
  pose proof (fl_error (a' - b')) as Herr.
  assert (2 ^ (-53) == 1 # 9007199254740992)%Q as Hp by reflexivity.
  rewrite Hp in Herr.
  destruct (round_half_even_nearest (Float64.fl (a' - b'))) as [H1 H2].
  revert Herr H1 H2.
  generalize (inject_Z (round_half_even (Float64.fl (a' - b')))).
  generalize (Float64.fl (a' - b')). intros f o Herr H1 H2.
  assert (Qabs (a' - b') <= 8388609)%Q as Hx.
  { apply Qabs_Qle_condition.
    apply Qabs_Qle_condition in Ha, Hb, Ha', Hb'. split; lra. }
  assert (Qabs (f - (a' - b')) <= 1 # 1000000000)%Q as Herr'.
  { eapply Qle_trans; [exact Herr|].
    revert Hx. generalize (Qabs (a' - b')). intros m Hm. lra. }
  apply Qabs_Qle_condition.
  apply Qabs_Qle_condition in Ha', Hb', Herr'. split; lra.
Qed.

Lemma centroid_centre (pts : list point) : centroid pts = centre pts.
Proof.
  unfold centroid, centre, mean. cbv zeta. rewrite !length_fmap.
  assert (∀ f : point → Z,
            foldr (λ (p : point) (s : Z), f p + s) 0 pts
            = foldr Z.add 0 (f <$> pts)) as Hf
    by (intros f; induction pts as [|p pts IH]; simpl; by rewrite ?IH).
  by rewrite (Hf fst), (Hf snd).
Qed.

Lemma unique_rows_remove_dups (rows : list point) :
  unique_rows rows ≡ₚ remove_dups rows.
Proof.
  apply NoDup_Permutation.
  - apply row_lt_sorted_NoDup, unique_rows_sorted.
  - apply NoDup_remove_dups.
  - intros x. by rewrite unique_rows_elem, elem_of_remove_dups.
Qed.

Lemma remove_dups_length (rows : list point) :
  (length (remove_dups rows) ≤ length rows)%nat.
Proof.
  induction rows as [|p rows IH]; [done|]. simpl.
  destruct (decide_rel elem_of p rows); simpl; lia.
Qed.

Lemma unique_rows_length (rows : list point) :
  (length (unique_rows rows) ≤ length rows)%nat.
Proof.
  rewrite (Permutation_length (unique_rows_remove_dups rows)).
  apply remove_dups_length. 
Qed.

Lemma process_segy_file_float64_eq grid_points group :
  grid_points ≠ [] → group ≠ [] →
  let movable := unique_rows group in
  let o := H_receivers_match_float64.offset_of
             (H_receivers_match_float64.centre grid_points)
             (H_receivers_match_float64.centre movable) in
  let sc := shift o <$> movable in
  H_receivers_match_float64.process_segy_file grid_points group =
    Some (Output o sc (fst <$> (query grid_points <$> sc))
            (dict_of (zip sc (nearest_node grid_points <$> sc)))
            (nearest_node grid_points <$> (shift o <$> group))).
Proof.
  intros Hgrid Hgroup movable o sc.
  unfold H_receivers_match_float64.process_segy_file.
  rewrite decide_False by tauto. cbv zeta. fold movable. fold o.
  rewrite unique_rows_shift. fold movable. fold sc.
  assert (NumPy.take grid_points (snd <$> (query grid_points <$> sc))
          = nearest_node grid_points <$> sc) as ->.
  { unfold NumPy.take. rewrite <- !list_fmap_compose. done. }
  set (dict := dict_of _).
  assert (mapM (λ p, dict !! p) (shift o <$> group)
          = Some (nearest_node grid_points <$> (shift o <$> group))) as ->; [|done].
  apply mapM_Some, Forall2_fmap_r, Forall_Forall2_diag, Forall_forall.
  intros p Hp. unfold dict. rewrite dict_of_lookup.
  rewrite decide_True; [done|].
  unfold sc, movable. rewrite <- unique_rows_shift. by apply unique_rows_elem.
Qed.

Lemma alignment_range_columns (pts : list point) :
  Forall alignment_range pts →
  Forall (λ x, Z.abs x < 2 ^ 22) pts.*1 ∧ Forall (λ x, Z.abs x < 2 ^ 22) pts.*2.
Proof.
  intros H. split; apply Forall_fmap; (eapply Forall_impl; [exact H|]);
    by intros p [? ?].
Qed.

(** The offset the script computes is within 1/2 + 2^-28 of the exact
    difference of the centroids. *)
Lemma offset_of_error (grid_points movable : list point) :
  grid_points ≠ [] → movable ≠ [] →
  Forall alignment_range grid_points → Forall alignment_range movable →
  Z.of_nat (length grid_points) < 2 ^ 31 → Z.of_nat (length movable) < 2 ^ 31 →
  let o := H_receivers_match_float64.offset_of
             (H_receivers_match_float64.centre grid_points)
             (H_receivers_match_float64.centre movable) in
  (Qabs (inject_Z o.1 - ((centroid grid_points).1 - (centroid movable).1))
   <= (1 # 2) + (1 # 268435456))%Q
  ∧ (Qabs (inject_Z o.2 - ((centroid grid_points).2 - (centroid movable).2))
     <= (1 # 2) + (1 # 268435456))%Q.
Proof.
  intros Hg Hm Hgr Hmr Hgl Hml. cbv zeta.
  rewrite !centroid_centre. unfold centre, H_receivers_match_float64.offset_of,
    H_receivers_match_float64.centre. cbn [fst snd].
  destruct (alignment_range_columns _ Hgr) as [Hg1 Hg2].
  destruct (alignment_range_columns _ Hmr) as [Hm1 Hm2].
  assert (∀ (f : point → Z) (l : list point), l ≠ [] → f <$> l ≠ []) as Hne
    by (intros f l Hl E%fmap_nil_inv; done).
  destruct (mean_float64_error grid_points.*1) as [? ?];
    [by apply Hne|done|by rewrite length_fmap|].
  destruct (mean_float64_error grid_points.*2) as [? ?];
    [by apply Hne|done|by rewrite length_fmap|].
  destruct (mean_float64_error movable.*1) as [? ?];
    [by apply Hne|done|by rewrite length_fmap|].
  destruct (mean_float64_error movable.*2) as [? ?];
    [by apply Hne|done|by rewrite length_fmap|].
  split; by apply offset_error.
Qed.






(** X9.  For coordinates below 2^22 in absolute value and fewer than 2^31
    nodes and traces: after the shift the centroid of the distinct receiver
    positions lies within 1/2 + 2^-28 of the centroid of the grid, in X and
    in Y. *)
Theorem shifted_centroid_is_aligned (grid_points group : list point) :
  grid_points ≠ [] → group ≠ [] →
  Forall alignment_range grid_points → Forall alignment_range group →
  Z.of_nat (length grid_points) < 2 ^ 31 → Z.of_nat (length group) < 2 ^ 31 →
  ∃ out, H_receivers_match_float64.process_segy_file grid_points group = Some out
    ∧ (Qabs ((centroid (shifted_coords out)).1 - (centroid grid_points).1)
       <= (1 # 2) + (1 # 268435456))%Q
    ∧ (Qabs ((centroid (shifted_coords out)).2 - (centroid grid_points).2)
       <= (1 # 2) + (1 # 268435456))%Q.
Proof.
  intros Hgrid Hgroup Hgr Hmr Hgl Hml.
  eexists. split; [by apply process_segy_file_float64_eq|].
  cbn [shifted_coords].
  set (movable := unique_rows group).
  set (o := H_receivers_match_float64.offset_of _ _).
  assert (movable ≠ []) as Hmne by (by apply unique_rows_nonempty).
  assert (Forall alignment_range movable) as Hmov.
  { apply Forall_forall. intros p Hp. rewrite Forall_forall in Hmr.
    apply Hmr. by apply unique_rows_elem. }
  assert (Z.of_nat (length movable) < 2 ^ 31) as Hmovl.
  { pose proof (unique_rows_length group). fold movable in H. lia. }
  destruct (offset_of_error grid_points movable Hgrid Hmne Hgr Hmov Hgl Hmovl)
    as [Hx Hy]. fold o in Hx, Hy.
  rewrite (centroid_centre (shift o <$> movable)).
  destruct (centre_shift o movable Hmne) as [Ex Ey].
  rewrite Ex, Ey. rewrite <- (centroid_centre movable).
  apply Qabs_Qle_condition in Hx, Hy.
  split; apply Qabs_Qle_condition; split; lra.
Qed.

Lemma shifted_centroid_is_aligned_witness :
  ∃ out, H_receivers_match_float64.process_segy_file
           grid3x3 [(103,98); (112,98); (104,107); (103,98)]
         = Some out
    ∧ (Qabs ((centroid (shifted_coords out)).1 - (centroid grid3x3).1)
       <= (1 # 2) + (1 # 268435456))%Q
    ∧ (Qabs ((centroid (shifted_coords out)).2 - (centroid grid3x3).2)
       <= (1 # 2) + (1 # 268435456))%Q.
Proof.
  apply (shifted_centroid_is_aligned grid3x3
           [(103,98); (112,98); (104,107); (103,98)]);
    first [discriminate | compute_done].
Defined.
